(** * cudf fixed_point: a shallow embedding of [fixed_point.hpp]

    The header defines a fixed-point number [fixed_point<Rep, Rad>]: an
    integer representation value of type [Rep] (int32_t or int64_t) together
    with a runtime scale (a strongly typed int32_t) under a compile-time radix
    (2 or 10).  This file embeds the header's functions as Rocq functions and
    proves properties of its arithmetic.

    Modelling conventions.
    - A value of a w-bit signed integer type is a [Z]; every arithmetic
      operation of the header on such values is followed by the
      two's-complement wrap-around [wrap], written out.
    - A [double] is a [spec_float] of the Standard Library at precision 53 and
      maximal exponent 1024, and the operations on it are the library's IEEE-754
      operations ([SFdiv], [SFmul], rounding to nearest even).
    - [std::pow] is a function of the C++ library, not of the header: it is
      taken to return the correctly rounded power.  A library returns the
      power itself wherever it is a [double] (radix 2 up to the exponent 1023,
      radix 10 up to the exponent 22) and an infinity beyond the range, but
      need not round correctly in between; the statements below about a
      [double] returned by a shift are restricted to exponents at which the
      power is a [double].
    - The conversion of a [double] that does not fit the target integer type,
      an integer division by zero and the integer division of the minimum by
      -1 have no defined result in C++: the embedding returns [None] there. *)

From Stdlib Require Import ZArith Lia Bool QArith.
From Stdlib Require Import QArith.Qpower.
From Stdlib Require Import Floats.SpecFloat.

Local Open Scope Z_scope.

(** ** Integer types *)

(** The two representation types accepted by
    [is_supported_representation_type]. *)
Inductive int_type : Type := int32_t | int64_t.

Definition bits (T : int_type) : Z :=
  match T with int32_t => 32 | int64_t => 64 end.

(** [std::numeric_limits<T>::min()] and [std::numeric_limits<T>::max()]. *)
Definition numeric_limits_min (T : int_type) : Z := - 2 ^ (bits T - 1).
Definition numeric_limits_max (T : int_type) : Z := 2 ^ (bits T - 1) - 1.

Definition in_range (T : int_type) (z : Z) : Prop :=
  numeric_limits_min T <= z <= numeric_limits_max T.

Definition in_rangeb (T : int_type) (z : Z) : bool :=
  (numeric_limits_min T <=? z) && (z <=? numeric_limits_max T).

(** Two's-complement wrap-around of an unbounded integer into [T]. *)
Definition wrap (T : int_type) (z : Z) : Z :=
  (z + 2 ^ (bits T - 1)) mod 2 ^ bits T - 2 ^ (bits T - 1).

Definition int_add (T : int_type) (a b : Z) : Z := wrap T (a + b).
Definition int_sub (T : int_type) (a b : Z) : Z := wrap T (a - b).
Definition int_mul (T : int_type) (a b : Z) : Z := wrap T (a * b).
Definition int_neg (T : int_type) (a : Z) : Z := wrap T (- a).

(** The C++ operator [/] on integers truncates toward zero ([Z.quot]). *)
Definition int_quot (T : int_type) (a b : Z) : Z := wrap T (Z.quot a b).

(** ** Strong typedef of the scale *)

Record weak_typedef (T : Type) : Type := mk_weak_typedef { _t : T }.
Arguments mk_weak_typedef {T} _.
Arguments _t {T} _.

(** [using scale_type = weak_typedef<int32_t>] *)
Definition scale_type : Type := weak_typedef Z.

Inductive Radix : Type := BASE_2 | BASE_10.

(** [static_cast<int32_t>(Rad)] *)
Definition radix_value (Rad : Radix) : Z :=
  match Rad with BASE_2 => 2 | BASE_10 => 10 end.

(** ** Double precision *)

Definition double : Type := spec_float.

Definition dprec : Z := 53.
Definition demax : Z := 1024.

(** Conversion of an integer to [double] (round to nearest even). *)
Definition double_of_Z (z : Z) : double := binary_normalize dprec demax z 0 false.

(** Correctly rounded quotient of two positive integers. *)
Definition double_of_ratio (a b : Z) : double :=
  let '(q, e, l) := SFdiv_core_binary dprec demax a 0 b 0 in
  binary_round_aux dprec demax false q e l.

(** [std::pow(b, e)] on two [int32_t] arguments with [0 < b]: both are
    converted to [double] and the result is the correctly rounded [b ^ e]. *)
Definition std_pow (b e : Z) : double :=
  if 0 <=? e then double_of_Z (b ^ e) else double_of_ratio 1 (b ^ (- e)).

(** Truncation toward zero of a finite [double]. *)
Definition double_trunc (d : double) : option Z :=
  match d with
  | S754_zero _ => Some 0
  | S754_finite s m e => Some (cond_Zopp s (Z.shiftl (Zpos m) e))
  | S754_infinity _ | S754_nan => None
  end.

(** [static_cast<T>(d)] from [double] to an integer type. *)
Definition static_cast_int (T : int_type) (d : double) : option Z :=
  match double_trunc d with
  | Some z => if in_rangeb T z then Some z else None
  | None => None
  end.

(** ** Types a fixed_point can be constructed from and converted to *)

(** [is_supported_construction_value_type]: the integral types and the
    floating-point types; of the former int32_t, int64_t and [bool] are
    embedded, of the latter [double]. *)
Inductive arith_type : Type :=
| Integral (T : int_type)
| Boolean
| Floating.

Definition value_of (T : arith_type) : Type :=
  match T with Integral _ => Z | Boolean => bool | Floating => double end.

(** The integral promotion of a [bool]. *)
Definition int_of_bool (b : bool) : Z := if b then 1 else 0.

(** [static_cast<bool>(d)] from [double]: whether [d] is not a zero. *)
Definition static_cast_bool (d : double) : bool :=
  match d with S754_zero _ => false | _ => true end.

(** The usual arithmetic conversion of an operand of [T] that meets a
    [double] operand. *)
Definition to_double (T : arith_type) : value_of T -> double :=
  match T with
  | Integral _ => double_of_Z
  | Boolean => fun b => double_of_Z (int_of_bool b)
  | Floating => fun d => d
  end.

(** [static_cast<T>(d)] for a [double] [d]. *)
Definition static_cast_from_double (T : arith_type) : double -> option (value_of T) :=
  match T with
  | Integral W => static_cast_int W
  | Boolean => fun d => Some (static_cast_bool d)
  | Floating => fun d => Some d
  end.

(** [static_cast<Rep>(v)] for a value [v] of [T]. *)
Definition static_cast_to_rep (T : arith_type) (Rep : int_type) : value_of T -> option Z :=
  match T with
  | Integral _ => fun v => Some (wrap Rep v)
  | Boolean => fun b => Some (int_of_bool b)
  | Floating => static_cast_int Rep
  end.

(** [static_cast<U>(v)] for a representation value [v]. *)
Definition static_cast_of_rep (U : arith_type) : Z -> value_of U :=
  match U with
  | Integral W => wrap W
  | Boolean => fun v => negb (v =? 0)
  | Floating => double_of_Z
  end.

Definition bind {A B : Type} (x : option A) (f : A -> option B) : option B :=
  match x with Some a => f a | None => None end.

Notation "x <- c ;; k" := (bind c (fun x => k))
  (at level 61, c at next level, right associativity).

(** ** namespace detail *)

Module detail.

(** [negate]: the scale with the opposite sign. *)
Definition negate (scale : scale_type) : scale_type :=
  mk_weak_typedef (int_neg int32_t (_t scale)).

(** [right_shift]: [val / std::pow(Rad, scale)]; the quotient is a
    [double]. *)
Definition right_shift (Rad : Radix) (T : arith_type) (val : value_of T)
    (scale : scale_type) : double :=
  SFdiv dprec demax (to_double T val) (std_pow (radix_value Rad) (_t scale)).

(** [left_shift]: [val * std::pow(Rad, negate(scale))]. *)
Definition left_shift (Rad : Radix) (T : arith_type) (val : value_of T)
    (scale : scale_type) : double :=
  SFmul dprec demax (to_double T val) (std_pow (radix_value Rad) (_t (negate scale))).

(** [shift]: dispatch on the sign of the scale and cast back to [T]. *)
Definition shift (Rad : Radix) (T : arith_type) (val : value_of T)
    (scale : scale_type) : option (value_of T) :=
  if _t scale =? 0 then Some val
  else if _t scale >? 0 then static_cast_from_double T (right_shift Rad T val scale)
  else static_cast_from_double T (left_shift Rad T val scale).

End detail.

(** ** The fixed_point class *)

Record scaled_integer (Rep : int_type) : Type := mk_scaled_integer {
  si_value : Z;
  si_scale : scale_type
}.
Arguments mk_scaled_integer {Rep} _ _.
Arguments si_value {Rep} _.
Arguments si_scale {Rep} _.

Record fixed_point (Rep : int_type) (Rad : Radix) : Type := mk_fixed_point {
  _value : Z;
  _scale : scale_type
}.
Arguments mk_fixed_point {Rep Rad} _ _.
Arguments _value {Rep Rad} _.
Arguments _scale {Rep Rad} _.

Section FixedPoint.

Context {Rep : int_type} {Rad : Radix}.

(** [explicit fixed_point(T const& value, scale_type const& scale)] *)
Definition fixed_point_of (T : arith_type) (value : value_of T)
    (scale : scale_type) : option (fixed_point Rep Rad) :=
  v <- detail.shift Rad T value scale ;;
  r <- static_cast_to_rep T Rep v ;;
  Some (mk_fixed_point r scale).

(** [explicit fixed_point(scaled_integer<Rep> s)] *)
Definition fixed_point_of_scaled (s : scaled_integer Rep) : fixed_point Rep Rad :=
  mk_fixed_point (si_value s) (si_scale s).

(** [fixed_point()] *)
Definition fixed_point_default : fixed_point Rep Rad :=
  mk_fixed_point 0 (mk_weak_typedef 0).

(** [explicit constexpr operator U() const] *)
Definition convert (U : arith_type) (x : fixed_point Rep Rad) : option (value_of U) :=
  detail.shift Rad U (static_cast_of_rep U (_value x)) (detail.negate (_scale x)).

(** [get()] *)
Definition get (x : fixed_point Rep Rad) : option double := convert Floating x.

(** The two aligned representation values computed at the head of
    [operator+], [operator-] and [operator==]: first [rhsv], then [lhsv]. *)
Definition aligned (lhs rhs : fixed_point Rep Rad) : option (Z * Z) :=
  let ls := _t (_scale lhs) in
  let rs := _t (_scale rhs) in
  rhsv <- (if ls >? rs
           then detail.shift Rad (Integral Rep) (_value rhs)
                  (mk_weak_typedef (int_sub int32_t ls rs))
           else Some (_value rhs)) ;;
  lhsv <- (if ls <? rs
           then detail.shift Rad (Integral Rep) (_value lhs)
                  (mk_weak_typedef (int_sub int32_t rs ls))
           else Some (_value lhs)) ;;
  Some (lhsv, rhsv).

Definition aligned_scale (lhs rhs : fixed_point Rep Rad) : scale_type :=
  if _t (_scale lhs) >? _t (_scale rhs) then _scale lhs else _scale rhs.

(** [operator+] *)
Definition operator_plus (lhs rhs : fixed_point Rep Rad) : option (fixed_point Rep Rad) :=
  p <- aligned lhs rhs ;;
  Some (fixed_point_of_scaled
          (mk_scaled_integer (int_add Rep (fst p) (snd p)) (aligned_scale lhs rhs))).

(** [operator-] *)
Definition operator_minus (lhs rhs : fixed_point Rep Rad) : option (fixed_point Rep Rad) :=
  p <- aligned lhs rhs ;;
  Some (fixed_point_of_scaled
          (mk_scaled_integer (int_sub Rep (fst p) (snd p)) (aligned_scale lhs rhs))).

(** [operator*] *)
Definition operator_multiplies (lhs rhs : fixed_point Rep Rad) : fixed_point Rep Rad :=
  fixed_point_of_scaled
    (mk_scaled_integer (int_mul Rep (_value lhs) (_value rhs))
       (mk_weak_typedef (int_add int32_t (_t (_scale lhs)) (_t (_scale rhs))))).

(** [operator/]: [lhs._value / rhs._value] has no defined result when the
    divisor's value is zero, and none when the quotient is not representable
    in [Rep], which is the minimum divided by -1. *)
Definition operator_divides (lhs rhs : fixed_point Rep Rad) : option (fixed_point Rep Rad) :=
  if _value rhs =? 0 then None
  else if (_value lhs =? numeric_limits_min Rep) && (_value rhs =? -1) then None
  else Some (fixed_point_of_scaled
               (mk_scaled_integer (int_quot Rep (_value lhs) (_value rhs))
                  (mk_weak_typedef (int_sub int32_t (_t (_scale lhs)) (_t (_scale rhs)))))).

(** [operator==] *)
Definition operator_eq (lhs rhs : fixed_point Rep Rad) : option bool :=
  p <- aligned lhs rhs ;;
  Some (snd p =? fst p).

(** [operator++]: the literal [1] is an [int], so the constructor is the
    one taking a value and a scale, at [T = int32_t]. *)
Definition operator_increment (x : fixed_point Rep Rad) : option (fixed_point Rep Rad) :=
  one <- fixed_point_of (Integral int32_t) 1 (mk_weak_typedef (_t (_scale x))) ;;
  operator_plus x one.

(** The compound assignments rewrite to the binary operators. *)
Definition operator_plus_assign (x rhs : fixed_point Rep Rad) : option (fixed_point Rep Rad) := operator_plus x rhs.
Definition operator_minus_assign (x rhs : fixed_point Rep Rad) : option (fixed_point Rep Rad) := operator_minus x rhs.
Definition operator_multiplies_assign (x rhs : fixed_point Rep Rad) : option (fixed_point Rep Rad) :=
  Some (operator_multiplies x rhs).
Definition operator_divides_assign (x rhs : fixed_point Rep Rad) : option (fixed_point Rep Rad) := operator_divides x rhs.

End FixedPoint.

(** ** Overflow predicates *)

(** The operands have the type [Rep]; the limits are combined with them in
    [Rep]'s arithmetic. *)
Definition addition_overflow (Rep : int_type) (lhs rhs : Z) : bool :=
  if rhs >? 0 then lhs >? int_sub Rep (numeric_limits_max Rep) rhs
  else lhs <? int_sub Rep (numeric_limits_min Rep) rhs.

Definition subtraction_overflow (Rep : int_type) (lhs rhs : Z) : bool :=
  if rhs >? 0 then lhs <? int_add Rep (numeric_limits_min Rep) rhs
  else lhs >? int_add Rep (numeric_limits_max Rep) rhs.

Definition division_overflow (Rep : int_type) (lhs rhs : Z) : bool :=
  (lhs =? numeric_limits_min Rep) && (rhs =? -1).

Definition multiplication_overflow (Rep : int_type) (lhs rhs : Z) : bool :=
  let min := numeric_limits_min Rep in
  let max := numeric_limits_max Rep in
  if rhs >? 0 then (lhs >? int_quot Rep max rhs) || (lhs <? int_quot Rep min rhs)
  else if rhs <? -1 then (lhs >? int_quot Rep min rhs) || (lhs <? int_quot Rep max rhs)
  else (rhs =? -1) && (lhs =? min).

(** The rational number a fixed_point stands for: [value * Rad ^ scale]. *)
Definition rational_value {Rep : int_type} {Rad : Radix} (x : fixed_point Rep Rad) : Q :=
  inject_Z (_value x) * Qpower (inject_Z (radix_value Rad)) (_t (_scale x)).

(** ** Auxiliary notions for the rounding proofs *)

(** The exponent of the last place of a double of magnitude [e]. *)
Definition dfexp (e : Z) : Z := Z.max (e - 53) (-1074).

(** What [binary_round_aux] does once the mantissa has been rounded to
    [m'] at exponent [e1]. *)
Definition finish (s : bool) (m' e1 : Z) : spec_float :=
  let e2 := Z.max e1 (dfexp (Zdigits2 m' + e1)) in
  match m' / 2 ^ (e2 - e1) with
  | Z0 => S754_zero s
  | Zpos mz => if e2 <=? 971 then S754_finite s mz e2 else S754_infinity s
  | Zneg _ => S754_nan
  end.

(** [rounded s m' e1 z]: the float [z] stands for [m' * 2 ^ e1] with the
    sign [s], in canonical form, or is the infinity that replaces it. *)
Definition rounded (s : bool) (m' e1 : Z) (z : spec_float) : Prop :=
  (m' = 0 /\ z = S754_zero s) \/
  exists mz e2,
    Zpos mz * 2 ^ (e2 - e1) = m' /\ e1 <= e2 <= e1 + 1 /\
    Zdigits2 (Zpos mz) + e2 = Zdigits2 m' + e1 /\
    e2 = Z.max e1 (dfexp (Zdigits2 m' + e1)) /\
    z = (if e2 <=? 971 then S754_finite s mz e2 else S754_infinity s).

(** [d] is within one unit in the last place of the double [x]: between
    the predecessor and the successor of [x]. *)
Definition within_one_ulp (d x : double) : Prop :=
  SFleb (SFpred dprec demax x) d = true /\
  SFleb d (SFsucc dprec demax x) = true.

(** * Rounding of doubles *)

Lemma fexp_double e : fexp dprec demax e = dfexp e.
Proof. reflexivity. Qed.

Lemma digits2_pos_size p : digits2_pos p = Pos.size p.
Proof. induction p; simpl; congruence. Qed.

Lemma Zdigits2_bounds p :
  2 ^ (Zdigits2 (Zpos p) - 1) <= Zpos p < 2 ^ Zdigits2 (Zpos p).
Proof.
  change (Zdigits2 (Zpos p)) with (Zpos (digits2_pos p)).
  rewrite digits2_pos_size.
  pose proof (Pos.size_le p) as H. apply Pos2Z.pos_le_pos in H.
  pose proof (Pos.size_gt p) as H'. apply Pos2Z.pos_lt_pos in H'.
  rewrite Pos2Z.inj_pow in H, H'. change (Z.pos p~0) with (2 * Z.pos p) in H.
  set (d := Z.pos (Pos.size p)) in *.
  assert (Hd : 2 ^ d = 2 * 2 ^ (d - 1)).
  { rewrite <- Z.pow_succ_r by (unfold d; lia). f_equal. lia. }
  lia.
Qed.

Lemma Zdigits2_log2 m : 0 < m -> Zdigits2 m = Z.log2 m + 1.
Proof.
  intros Hm. destruct m as [|p|p]; try lia.
  pose proof (Zdigits2_bounds p) as [H1 H2].
  assert (Hd : 0 < Zdigits2 (Zpos p)) by (simpl; lia).
  set (d := Zdigits2 (Zpos p)) in *.
  assert (H : Z.log2 (Zpos p) = d - 1).
  { apply Z.log2_unique; [lia|]. replace (Z.succ (d - 1)) with d by lia. lia. }
  lia.
Qed.

Lemma Zdigits2_0 : Zdigits2 0 = 0.
Proof. reflexivity. Qed.

Lemma shr_1_m mrs : 0 <= shr_m mrs -> shr_m (shr_1 mrs) = shr_m mrs / 2.
Proof.
  destruct mrs as [m r s]; simpl. intros Hm.
  rewrite <- Z.div2_div.
  destruct m as [|[p|p|]|p]; try reflexivity; lia.
Qed.

Lemma pow2_pos k : 0 <= k -> 0 < 2 ^ k.
Proof. intros; apply Z.pow_pos_nonneg; lia. Qed.

Lemma div_pow2_pow2 m a b : 0 <= a -> 0 <= b -> m / 2 ^ a / 2 ^ b = m / 2 ^ (a + b).
Proof.
  intros Ha Hb. rewrite <- !Z.shiftr_div_pow2 by lia. apply Z.shiftr_shiftr; lia.
Qed.

Lemma div_pow2_nonneg m k : 0 <= m -> 0 <= k -> 0 <= m / 2 ^ k.
Proof. intros; apply Z.div_pos; [lia | apply pow2_pos; lia]. Qed.

Lemma iter_shr_m p : forall mrs, 0 <= shr_m mrs ->
  shr_m (iter_pos shr_1 p mrs) = shr_m mrs / 2 ^ Zpos p.
Proof.
  induction p as [p IH|p IH|]; intros mrs Hm; simpl iter_pos.
  - assert (H1 : 0 <= shr_m (shr_1 mrs)).
    { rewrite shr_1_m by lia. apply Z.div_pos; lia. }
    assert (H2 : 0 <= shr_m (iter_pos shr_1 p (shr_1 mrs))).
    { rewrite IH by lia. apply div_pow2_nonneg; lia. }
    rewrite IH, IH, shr_1_m by lia.
    change (shr_m mrs / 2) with (shr_m mrs / 2 ^ 1).
    rewrite !div_pow2_pow2 by lia. f_equal. f_equal. lia.
  - assert (H2 : 0 <= shr_m (iter_pos shr_1 p mrs)).
    { rewrite IH by lia. apply div_pow2_nonneg; lia. }
    rewrite IH, IH by lia.
    rewrite !div_pow2_pow2 by lia. f_equal. f_equal. lia.
  - rewrite shr_1_m by lia. reflexivity.
Qed.

Lemma mod_pow2_split m a b : 0 <= a -> 0 <= b -> m mod 2 ^ (a + b) = 0 ->
  m mod 2 ^ a = 0 /\ (m / 2 ^ a) mod 2 ^ b = 0.
Proof.
  intros Ha Hb H. pose proof (pow2_pos a Ha). pose proof (pow2_pos b Hb).
  apply Z.mod_divide in H; [|rewrite Z.pow_add_r by lia; lia].
  destruct H as [c Hc]. rewrite Z.pow_add_r in Hc by lia. subst m. split.
  - replace (c * (2 ^ a * 2 ^ b)) with (c * 2 ^ b * 2 ^ a) by ring. apply Z.mod_mul; lia.
  - replace (c * (2 ^ a * 2 ^ b)) with (c * 2 ^ b * 2 ^ a) by ring.
    rewrite Z.div_mul by lia. apply Z.mod_mul; lia.
Qed.

Lemma shr_1_exact m : 0 <= m -> m mod 2 ^ 1 = 0 ->
  shr_1 (Build_shr_record m false false) = Build_shr_record (m / 2 ^ 1) false false.
Proof.
  intros Hm H. change (2 ^ 1) with 2 in *. rewrite <- Z.div2_div.
  destruct m as [|[p|p|]|p]; try reflexivity; try lia.
  - rewrite Pos2Z.inj_xI in H. rewrite Z.add_comm, Z.mul_comm, Z.mod_add in H by lia. discriminate.
  - discriminate.
Qed.

Lemma iter_shr_exact p : forall m, 0 <= m -> m mod 2 ^ Zpos p = 0 ->
  iter_pos shr_1 p (Build_shr_record m false false)
  = Build_shr_record (m / 2 ^ Zpos p) false false.
Proof.
  induction p as [p IH|p IH|]; intros m Hm H; cbn [iter_pos].
  - replace (Zpos p~1) with (1 + (Zpos p + Zpos p)) in * by lia.
    apply mod_pow2_split in H; try lia. destruct H as [H1 H2].
    apply mod_pow2_split in H2; try lia. destruct H2 as [H2 H3].
    rewrite shr_1_exact by assumption.
    rewrite IH by (try apply div_pow2_nonneg; try assumption; lia).
    rewrite IH by (repeat apply div_pow2_nonneg; try assumption; lia).
    rewrite !div_pow2_pow2 by lia. reflexivity.
  - replace (Zpos p~0) with (Zpos p + Zpos p) in * by lia.
    apply mod_pow2_split in H; try lia. destruct H as [H2 H3].
    rewrite IH by (try assumption; lia).
    rewrite IH by (repeat apply div_pow2_nonneg; try assumption; lia).
    rewrite !div_pow2_pow2 by lia. reflexivity.
  - apply shr_1_exact; assumption.
Qed.

Lemma round_nearest_even_cases m l :
  round_nearest_even m l = m \/ round_nearest_even m l = m + 1.
Proof.
  destruct l as [|[| |]]; simpl; auto. destruct (Z.even m); auto.
Qed.

Lemma loc_of_shr_record_of_loc m l : loc_of_shr_record (shr_record_of_loc m l) = l.
Proof. destruct l as [|[| |]]; reflexivity. Qed.

Lemma shr_m_of_loc m l : shr_m (shr_record_of_loc m l) = m.
Proof. destruct l as [|[| |]]; reflexivity. Qed.

Lemma shr_fexp_spec m e l : 0 <= m ->
  let e1 := Z.max e (dfexp (Zdigits2 m + e)) in
  shr_m (fst (shr_fexp dprec demax m e l)) = m / 2 ^ (e1 - e) /\
  snd (shr_fexp dprec demax m e l) = e1 /\
  (l = loc_Exact -> m mod 2 ^ (e1 - e) = 0 ->
   loc_of_shr_record (fst (shr_fexp dprec demax m e l)) = loc_Exact).
Proof.
  intros Hm e1. unfold shr_fexp. rewrite fexp_double. fold e1.
  unfold shr. destruct (dfexp (Zdigits2 m + e) - e) as [|p|p] eqn:Hn; simpl fst; simpl snd.
  - replace (e1 - e) with 0 by lia. rewrite Z.pow_0_r, Z.div_1_r, shr_m_of_loc.
    repeat split; try lia. intros ->. reflexivity.
  - replace (e1 - e) with (Zpos p) by lia. rewrite iter_shr_m by (rewrite shr_m_of_loc; lia).
    rewrite shr_m_of_loc. repeat split; try lia.
    intros -> H. simpl shr_record_of_loc. rewrite iter_shr_exact by assumption. reflexivity.
  - replace (e1 - e) with 0 by lia. rewrite Z.pow_0_r, Z.div_1_r, shr_m_of_loc.
    repeat split; try lia. intros ->. reflexivity.
Qed.

Lemma binary_round_aux_unfold s m e l : 0 <= m ->
  let e1 := Z.max e (dfexp (Zdigits2 m + e)) in
  let m1 := m / 2 ^ (e1 - e) in
  exists m', (m' = m1 \/ m' = m1 + 1) /\
    (l = loc_Exact -> m mod 2 ^ (e1 - e) = 0 -> m' = m1) /\
    binary_round_aux dprec demax s m e l = finish s m' e1.
Proof.
  intros Hm e1 m1. unfold binary_round_aux.
  destruct (shr_fexp_spec m e l Hm) as (H1 & H2 & H3). fold e1 in H1, H2, H3.
  destruct (shr_fexp dprec demax m e l) as [mrs' e'] eqn:E1. simpl in H1, H2, H3. subst e'.
  set (m' := round_nearest_even (shr_m mrs') (loc_of_shr_record mrs')).
  exists m'. fold m1 in H1.
  assert (Hc : m' = m1 \/ m' = m1 + 1).
  { unfold m'. rewrite <- H1. apply round_nearest_even_cases. }
  assert (Hm1 : 0 <= m1) by (apply div_pow2_nonneg; lia).
  assert (Hm' : 0 <= m') by lia.
  split; [exact Hc|]. split.
  - intros Hl Hd. unfold m'. rewrite (H3 Hl Hd). simpl. exact H1.
  - destruct (shr_fexp_spec m' e1 loc_Exact Hm') as (G1 & G2 & _).
    destruct (shr_fexp dprec demax m' e1 loc_Exact) as [mrs'' e''] eqn:E2.
    simpl in G1, G2. unfold finish. rewrite G1, G2. reflexivity.
Qed.

Lemma dfexp_succ_le x : dfexp (x + 1) <= dfexp x + 1.
Proof. unfold dfexp; lia. Qed.

Lemma dfexp_mono x y : x <= y -> dfexp x <= dfexp y.
Proof. unfold dfexp; lia. Qed.

Lemma Zdigits2_pow2 b : 0 <= b -> Zdigits2 (2 ^ b) = b + 1.
Proof.
  intros Hb. rewrite Zdigits2_log2 by (apply pow2_pos; lia).
  rewrite Z.log2_pow2 by lia. reflexivity.
Qed.

Lemma Zdigits2_succ m : 0 < m ->
  Zdigits2 (m + 1) = Zdigits2 m \/
  (Zdigits2 (m + 1) = Zdigits2 m + 1 /\ m + 1 = 2 ^ Zdigits2 m).
Proof.
  intros Hm. rewrite !Zdigits2_log2 by lia.
  destruct (Z.log2_succ_or m) as [H|H].
  - right. pose proof H as H'.
    apply Z.log2_eq_succ_iff_pow2 in H'; [|lia].
    destruct H' as [b Hb]. unfold Z.succ in *.
    assert (0 <= b).
    { destruct (Z.le_gt_cases 0 b); [assumption|]. rewrite Z.pow_neg_r in Hb by lia. lia. }
    rewrite Hb in H. rewrite Z.log2_pow2 in H by lia. rewrite Hb, Z.log2_pow2 by lia.
    split; [lia|]. f_equal. lia.
  - left. unfold Z.succ in *. lia.
Qed.

Lemma finish_canon s m' e1 m1 :
  0 <= m1 -> (m' = m1 \/ m' = m1 + 1) -> dfexp (Zdigits2 m1 + e1) <= e1 ->
  rounded s m' e1 (finish s m' e1).
Proof.
  intros Hm1 Hc Hf. unfold finish.
  set (e2 := Z.max e1 (dfexp (Zdigits2 m' + e1))).
  assert (A : e2 = e1 \/ (e2 = e1 + 1 /\ exists b, 1 <= b /\ m' = 2 ^ b)).
  { destruct Hc as [->| ->]; [left; unfold e2; lia|].
    destruct (Z.eq_dec m1 0) as [->|Hz].
    - left. change (Zdigits2 0) with 0 in Hf. unfold e2. change (Zdigits2 (0 + 1)) with 1.
      unfold dfexp in *. lia.
    - destruct (Zdigits2_succ m1 ltac:(lia)) as [H|[H1 H2]].
      + left. unfold e2. rewrite H. lia.
      + pose proof (dfexp_succ_le (Zdigits2 m1 + e1)) as Hs.
        assert (Hd : 1 <= Zdigits2 m1) by (rewrite Zdigits2_log2 by lia; pose proof (Z.log2_nonneg m1); lia).
        destruct (Z.le_gt_cases (dfexp (Zdigits2 (m1 + 1) + e1)) e1) as [Hle|Hgt].
        * left. unfold e2. lia.
        * right. split.
          -- unfold e2. rewrite H1 in *.
             replace (Zdigits2 m1 + 1 + e1) with (Zdigits2 m1 + e1 + 1) in * by lia. lia.
          -- exists (Zdigits2 m1). split; assumption. }
  assert (Hm' : 0 <= m') by lia.
  destruct (Z.eq_dec m' 0) as [->|Hnz].
  { left. split; [reflexivity|]. rewrite Z.div_0_l; [reflexivity|].
    apply Z.pow_nonzero; lia. }
  right. destruct A as [A|[A (b & Hb & Hmb)]].
  - rewrite A. replace (e1 - e1) with 0 by lia. rewrite Z.pow_0_r, Z.div_1_r.
    destruct m' as [|mz|mz]; try lia.
    exists mz, e1. split; [|split; [|split; [|split]]].
    + replace (e1 - e1) with 0 by lia. rewrite Z.pow_0_r. lia.
    + lia.
    + reflexivity.
    + unfold e2 in A. symmetry. exact A.
    + reflexivity.
  - rewrite A. replace (e1 + 1 - e1) with 1 by lia.
    assert (Hq : m' / 2 ^ 1 = 2 ^ (b - 1)).
    { rewrite Hmb. replace b with ((b - 1) + 1) at 1 by lia.
      rewrite Z.pow_add_r by lia. apply Z.div_mul. discriminate. }
    rewrite Hq. pose proof (pow2_pos (b - 1) ltac:(lia)) as Hp.
    destruct (2 ^ (b - 1)) as [|mz|mz] eqn:Emz; try lia.
    exists mz, (e1 + 1). split; [|split; [|split; [|split]]].
    + replace (e1 + 1 - e1) with 1 by lia. rewrite Hmb.
      replace b with ((b - 1) + 1) at 1 by lia. rewrite Z.pow_add_r by lia. rewrite Emz. reflexivity.
    + lia.
    + rewrite <- Emz, Hmb, !Zdigits2_pow2 by lia. lia.
    + unfold e2 in A. symmetry. exact A.
    + reflexivity.
Qed.

Lemma Zdigits2_div_pow2 m k : 0 <= k -> 0 < m / 2 ^ k ->
  Zdigits2 (m / 2 ^ k) = Zdigits2 m - k.
Proof.
  intros Hk Hq. pose proof (pow2_pos k Hk).
  assert (Hm : 0 < m).
  { destruct (Z.lt_ge_cases 0 m) as [|Hle]; [assumption|].
    pose proof (Z.div_le_mono m 0 (2 ^ k) ltac:(lia) Hle) as Hd.
    rewrite Z.div_0_l in Hd by lia. lia. }
  rewrite !Zdigits2_log2 by lia.
  rewrite <- Z.shiftr_div_pow2 in * by lia.
  rewrite Z.log2_shiftr by lia.
  destruct (Z.le_gt_cases k (Z.log2 m)); [lia|].
  rewrite Z.shiftr_eq_0 in Hq; lia.
Qed.

Lemma binary_round_aux_spec s m e l : 0 <= m ->
  let e1 := Z.max e (dfexp (Zdigits2 m + e)) in
  let m1 := m / 2 ^ (e1 - e) in
  exists m', (m' = m1 \/ m' = m1 + 1) /\
    (l = loc_Exact -> m mod 2 ^ (e1 - e) = 0 -> m' = m1) /\
    rounded s m' e1 (binary_round_aux dprec demax s m e l).
Proof.
  intros Hm e1 m1.
  destruct (binary_round_aux_unfold s m e l Hm) as (m' & Hc & Hx & ->).
  fold e1 in Hc, Hx |- *. fold m1 in Hc, Hx.
  exists m'. split; [exact Hc|]. split; [exact Hx|].
  assert (Hm1 : 0 <= m1) by (apply div_pow2_nonneg; lia).
  apply finish_canon with (m1 := m1); try assumption.
  destruct (Z.eq_dec m1 0) as [Hz|Hz].
  - rewrite Hz. change (Zdigits2 0) with 0. unfold e1, dfexp. lia.
  - unfold m1. rewrite Zdigits2_div_pow2 by (fold m1; lia).
    replace (Zdigits2 m - (e1 - e) + e1) with (Zdigits2 m + e) by lia. unfold e1. lia.
Qed.

Lemma pos_iter_xO p d : Zpos (Pos.iter xO p d) = Zpos p * 2 ^ Zpos d.
Proof.
  induction d as [|d IH] using Pos.peano_ind.
  - simpl. lia.
  - rewrite Pos.iter_succ, Pos2Z.inj_xO, IH, Pos2Z.inj_succ, Z.pow_succ_r by lia. ring.
Qed.

Lemma Zdigits2_mul_pow2 m k : 0 < m -> 0 <= k -> Zdigits2 (m * 2 ^ k) = Zdigits2 m + k.
Proof.
  intros Hm Hk. pose proof (pow2_pos k Hk).
  rewrite !Zdigits2_log2 by nia. rewrite Z.log2_mul_pow2 by lia. lia.
Qed.

Lemma Zdigits2_le m d : 0 < m -> 0 <= d -> m < 2 ^ d -> Zdigits2 m <= d.
Proof.
  intros Hm Hd H. rewrite Zdigits2_log2 by lia.
  assert (Z.log2 m < d) by (apply Z.log2_lt_pow2; lia). lia.
Qed.

Lemma Zdigits2_ge m d : 0 < m -> 2 ^ d <= m -> d < Zdigits2 m.
Proof.
  intros Hm H. rewrite Zdigits2_log2 by lia.
  destruct (Z.le_gt_cases 0 d); [|pose proof (Z.log2_nonneg m); lia].
  assert (d <= Z.log2 m) by (apply Z.log2_le_pow2; lia). lia.
Qed.

Lemma Zdigits2_lt_pow2 m : 0 < m -> 2 ^ (Zdigits2 m - 1) <= m < 2 ^ Zdigits2 m.
Proof. intros Hm. destruct m; try lia. apply Zdigits2_bounds. Qed.

Lemma Zdigits2_pos m : 0 < m -> 1 <= Zdigits2 m.
Proof. intros. rewrite Zdigits2_log2 by lia. pose proof (Z.log2_nonneg m). lia. Qed.

(** The canonical mantissa and exponent of a positive integer below [2 ^ 53]. *)
Lemma binary_round_small s p : Zpos p < 2 ^ 53 ->
  exists mx, Zpos mx = Zpos p * 2 ^ (53 - Zdigits2 (Zpos p)) /\
    binary_round dprec demax s p 0 = S754_finite s mx (Zdigits2 (Zpos p) - 53).
Proof.
  intros Hp. set (d := Zdigits2 (Zpos p)).
  assert (Hd : 1 <= d <= 53).
  { split; [apply Zdigits2_pos; lia | apply Zdigits2_le; lia]. }
  unfold binary_round. rewrite fexp_double.
  change (Z.pos (digits2_pos p)) with d. rewrite Z.add_0_r.
  assert (Hf : dfexp d = d - 53) by (unfold dfexp; lia).
  assert (E : exists mz, Zpos mz = Zpos p * 2 ^ (53 - d) /\
            shl_align p 0 (dfexp d) = (mz, d - 53)).
  { unfold shl_align. rewrite Hf, Z.sub_0_r.
    destruct (d - 53) as [|q|q] eqn:Eq; try lia.
    - exists p. replace (53 - d) with 0 by lia. rewrite Z.pow_0_r. split; [lia|reflexivity].
    - exists (Pos.iter xO p q). rewrite pos_iter_xO. split; [|reflexivity].
      f_equal. f_equal. lia. }
  destruct E as (mz & Hmz & ->). exists mz. split; [exact Hmz|].
  destruct (binary_round_aux_spec s (Zpos mz) (d - 53) loc_Exact ltac:(lia))
    as (m' & _ & Hx & Hr).
  assert (Hdz : Zdigits2 (Zpos mz) = 53).
  { rewrite Hmz, Zdigits2_mul_pow2 by lia. fold d. lia. }
  rewrite Hdz in Hx, Hr.
  assert (Hmax : Z.max (d - 53) (dfexp (53 + (d - 53))) = d - 53) by (unfold dfexp; lia).
  rewrite Hmax in Hx, Hr. rewrite Z.sub_diag, Z.pow_0_r, Z.div_1_r in Hx.
  specialize (Hx eq_refl (Z.mod_1_r _)). subst m'.
  destruct Hr as [[Hz _]|(mz' & e2 & H1 & H2 & H3 & H4 & ->)]; [lia|].
  rewrite Hdz, Hmax in H4. subst e2.
  rewrite Z.sub_diag, Z.pow_0_r in H1.
  assert (mz' = mz) by lia. subst mz'.
  destruct (d - 53 <=? 971) eqn:El; [reflexivity|]. apply Z.leb_gt in El. lia.
Qed.

(** The canonical mantissa and exponent of an integer from [2 ^ 53] on:
    the low [k] bits are rounded away. *)
Lemma binary_round_large s p : 2 ^ 53 <= Zpos p ->
  let k := Zdigits2 (Zpos p) - 53 in
  exists m' mz e2,
    (m' = Zpos p / 2 ^ k \/ m' = Zpos p / 2 ^ k + 1) /\
    (Zpos p mod 2 ^ k = 0 -> m' = Zpos p / 2 ^ k) /\
    Zpos mz * 2 ^ (e2 - k) = m' /\ k <= e2 <= k + 1 /\
    Zdigits2 (Zpos mz) = 53 /\
    binary_round dprec demax s p 0
    = (if e2 <=? 971 then S754_finite s mz e2 else S754_infinity s).
Proof.
  intros Hp k. set (d := Zdigits2 (Zpos p)).
  assert (Hd : 54 <= d) by (pose proof (Zdigits2_ge (Zpos p) 53 ltac:(lia) Hp); unfold d; lia).
  unfold binary_round. rewrite fexp_double.
  change (Z.pos (digits2_pos p)) with d. rewrite Z.add_0_r.
  assert (Hf : dfexp d = d - 53) by (unfold dfexp; lia).
  assert (E : shl_align p 0 (dfexp d) = (p, 0)).
  { unfold shl_align. rewrite Hf, Z.sub_0_r. destruct (d - 53) eqn:Eq; try lia; reflexivity. }
  rewrite E.
  destruct (binary_round_aux_spec s (Zpos p) 0 loc_Exact ltac:(lia)) as (m' & Hc & Hx & Hr).
  fold d in Hc, Hx, Hr. rewrite Z.add_0_r in Hc, Hx, Hr.
  assert (Hmax : Z.max 0 (dfexp d) = k) by (unfold k; fold d; lia).
  rewrite Hmax, Z.sub_0_r in Hc, Hx. rewrite Hmax in Hr.
  assert (Hk : 0 <= k) by (unfold k; fold d; lia).
  pose proof (pow2_pos k Hk) as Hpk.
  set (m1 := Zpos p / 2 ^ k) in *.
  assert (Hm1 : 0 < m1).
  { apply Z.div_str_pos. split; [lia|].
    pose proof (Zdigits2_lt_pow2 (Zpos p) ltac:(lia)) as [Hlo _]. fold d in Hlo.
    apply Z.le_trans with (2 ^ (d - 1)); [|exact Hlo].
    apply Z.pow_le_mono_r; unfold k; fold d; lia. }
  assert (Hdm1 : Zdigits2 m1 = 53).
  { unfold m1. rewrite Zdigits2_div_pow2 by (fold m1; lia). fold d. unfold k. fold d. lia. }
  exists m'.
  destruct Hr as [[Hz _]|(mz & e2 & H1 & H2 & H3 & H4 & ->)]; [lia|].
  exists mz, e2. split; [exact Hc|]. split; [intros H; apply Hx; [reflexivity|exact H]|].
  split; [exact H1|]. split; [exact H2|]. split; [|reflexivity].
  destruct Hc as [Hc|Hc].
  - rewrite Hc, Hdm1 in H3, H4. unfold dfexp in H4. lia.
  - destruct (Zdigits2_succ m1 Hm1) as [Hs|[Hs _]]; rewrite Hc, Hs, Hdm1 in H3, H4;
      unfold dfexp in H4; lia.
Qed.

(** ** Division *)

Lemma new_location_0 nb : new_location nb 0 = loc_Exact.
Proof. unfold new_location, new_location_even, new_location_odd. destruct (Z.even nb); reflexivity. Qed.

Lemma shiftl_match m s : 0 <= s ->
  match s with Z.pos _ => Z.shiftl m s | 0 => m | Z.neg _ => 0 end = m * 2 ^ s.
Proof.
  intros Hs. destruct s as [|p|p]; [rewrite Z.pow_0_r; lia | apply Z.shiftl_mul_pow2; lia | lia].
Qed.

Lemma SFdiv_finite sx mx ex sy my ey :
  Zdigits2 (Zpos mx) = 53 -> Zdigits2 (Zpos my) = 53 ->
  let e' := Z.min (dfexp (ex - ey)) (ex - ey) in
  let s := ex - ey - e' in
  let q := Zpos mx * 2 ^ s / Zpos my in
  let e1 := Z.max e' (dfexp (Zdigits2 q + e')) in
  let m1 := q / 2 ^ (e1 - e') in
  exists m', (m' = m1 \/ m' = m1 + 1) /\
    ((Zpos mx * 2 ^ s) mod Zpos my = 0 -> q mod 2 ^ (e1 - e') = 0 -> m' = m1) /\
    rounded (xorb sx sy) m' e1
      (SFdiv dprec demax (S754_finite sx mx ex) (S754_finite sy my ey)).
Proof.
  intros Hdx Hdy e' s q e1 m1.
  assert (Hs : 0 <= s) by (unfold s, e'; lia).
  unfold SFdiv, SFdiv_core_binary. rewrite Hdx, Hdy, fexp_double.
  replace (53 + ex - (53 + ey)) with (ex - ey) by lia. fold e'. fold s.
  assert (Hm : match s with Z.pos _ => Z.shiftl (Zpos mx) s | 0 => Zpos mx | Z.neg _ => 0 end
               = Zpos mx * 2 ^ s).
  { apply shiftl_match; exact Hs. }
  rewrite Hm.
  pose proof (Z_div_mod_eq_full (Zpos mx * 2 ^ s) (Zpos my)) as Hdm.
  assert (Hq : Z.div_eucl (Zpos mx * 2 ^ s) (Zpos my)
               = (q, (Zpos mx * 2 ^ s) mod Zpos my)).
  { unfold q, Z.div, Z.modulo. destruct (Z.div_eucl (Zpos mx * 2 ^ s) (Zpos my)). reflexivity. }
  rewrite Hq.
  assert (Hq0 : 0 <= q).
  { unfold q. apply Z.div_pos; [|lia]. pose proof (pow2_pos s Hs). nia. }
  destruct (binary_round_aux_spec (xorb sx sy) q e'
              (new_location (Zpos my) ((Zpos mx * 2 ^ s) mod Zpos my)) Hq0) as (m' & Hc & Hx & Hr).
  fold e1 in Hc, Hx, Hr. fold m1 in Hc, Hx.
  exists m'. split; [exact Hc|]. split; [|exact Hr].
  intros Hr0 Hq1. apply Hx; [|exact Hq1]. rewrite Hr0. apply new_location_0.
Qed.

Lemma double_trunc_rounded s m' e1 z : rounded s m' e1 z -> e1 <= -1 ->
  double_trunc z = Some (cond_Zopp s (m' / 2 ^ (- e1))).
Proof.
  intros [[-> ->]|(mz & e2 & H1 & H2 & H3 & H4 & ->)] He.
  - simpl. rewrite Z.div_0_l by (apply Z.pow_nonzero; lia). destruct s; reflexivity.
  - assert (El : (e2 <=? 971) = true) by (apply Z.leb_le; lia). rewrite El. simpl.
    f_equal. f_equal. rewrite <- H1.
    rewrite <- (Z.opp_involutive e2) at 1. rewrite Z.shiftl_opp_r.
    rewrite Z.shiftr_div_pow2 by lia.
    replace (- e1) with ((- e2) + (e2 - e1)) by lia.
    rewrite Z.pow_add_r by lia.
    rewrite Z.div_mul_cancel_r; [reflexivity| |]; apply Z.pow_nonzero; lia.
Qed.

(** The arithmetic behind the truncation of a rounded quotient: a rounding
    error of one unit in the last place cannot carry the quotient [A / B]
    over the next integer when it stays [2 ^ k] last-place units below it. *)
Lemma round_trunc_arith A B t k n m' :
  0 < B -> 0 <= k -> 0 <= t -> 0 <= n ->
  n * 2 ^ (t + k) * B <= A ->
  A + 2 ^ k * B < (n + 1) * 2 ^ (t + k) * B ->
  (m' = A / B / 2 ^ k \/ m' = A / B / 2 ^ k + 1) ->
  m' / 2 ^ t = n.
Proof.
  intros HB Hk Ht Hn Hlo Hhi Hc.
  pose proof (pow2_pos k Hk) as Pk. pose proof (pow2_pos t Ht) as Pt.
  rewrite Z.pow_add_r in Hlo, Hhi by lia.
  set (q := A / B) in *. set (m1 := q / 2 ^ k) in *.
  assert (Hq1 : n * (2 ^ t * 2 ^ k) <= q).
  { apply Z.div_le_lower_bound; [lia|]. nia. }
  assert (Hq2 : q < ((n + 1) * 2 ^ t - 1) * 2 ^ k).
  { apply Z.div_lt_upper_bound; [lia|]. nia. }
  assert (H1 : n * 2 ^ t <= m1).
  { apply Z.div_le_lower_bound; [lia|]. nia. }
  assert (H2 : m1 < (n + 1) * 2 ^ t - 1).
  { apply Z.div_lt_upper_bound; [lia|]. nia. }
  symmetry. apply Z.div_unique with (r := m' - n * 2 ^ t). 
  - left. lia.
  - ring.
Qed.

Lemma Zdigits2_le_nonneg m d : 0 <= m -> 0 <= d -> m < 2 ^ d -> Zdigits2 m <= d.
Proof.
  intros Hm Hd H. destruct (Z.eq_dec m 0) as [->|Hz]; [exact Hd|].
  apply Zdigits2_le; lia.
Qed.

Lemma pow2_le_mono a b : 0 <= a <= b -> 2 ^ a <= 2 ^ b.
Proof. intros; apply Z.pow_le_mono_r; lia. Qed.

(** Truncation of the quotient of two finite doubles whose quotient is
    below [2 ^ 52]: the result is the integer [n] once the exact quotient
    lies in [[n, n + 1)] and keeps two last-place units below [n + 1]. *)
Lemma SFdiv_trunc_gen sx mx ex my ey n :
  Zdigits2 (Zpos mx) = 53 -> Zdigits2 (Zpos my) = 53 ->
  let g := ex - ey in
  let e' := Z.max (g - 53) (-1074) in
  -1074 <= g <= 51 -> 0 <= n ->
  n * 2 ^ (- e') * Zpos my <= Zpos mx * 2 ^ (g - e') ->
  Zpos mx * 2 ^ (g - e') + 2 ^ (Z.max (g - 52) (-1074) - e') * Zpos my
    < (n + 1) * 2 ^ (- e') * Zpos my ->
  double_trunc (SFdiv dprec demax (S754_finite sx mx ex) (S754_finite false my ey))
  = Some (cond_Zopp sx n).
Proof.
  intros Hdx Hdy g e' Hg Hn Hlo Hhi.
  destruct (SFdiv_finite sx mx ex false my ey Hdx Hdy) as (m' & Hc & _ & Hr).
  fold g in Hc, Hr.
  assert (He' : Z.min (dfexp g) g = e') by (unfold e', dfexp; lia).
  rewrite He' in Hc, Hr.
  set (s := g - e') in *.
  assert (Hs : 0 <= s <= 53) by (unfold s, e'; lia).
  set (q := Zpos mx * 2 ^ s / Zpos my) in *.
  set (e1 := Z.max e' (dfexp (Zdigits2 q + e'))) in *.
  pose proof (Zdigits2_lt_pow2 (Zpos mx) ltac:(lia)) as [_ Hmx].
  pose proof (Zdigits2_lt_pow2 (Zpos my) ltac:(lia)) as [Hmy _].
  rewrite Hdx in Hmx. rewrite Hdy in Hmy. change (53 - 1) with 52 in Hmy.
  pose proof (pow2_pos s ltac:(lia)) as Ps.
  assert (Hq0 : 0 <= q) by (unfold q; apply Z.div_pos; [nia|lia]).
  assert (Hq : q < 2 ^ (s + 1)).
  { unfold q. apply Z.div_lt_upper_bound; [lia|].
    rewrite Z.pow_add_r by lia. change (2 ^ 1) with 2. 
    assert (Zpos mx < 2 * Zpos my) by lia. nia. }
  assert (Hdq : Zdigits2 q <= s + 1) by (apply Zdigits2_le_nonneg; lia).
  assert (He1 : e' <= e1 <= Z.max (g - 52) (-1074)).
  { unfold e1, dfexp. unfold s in Hdq. lia. }
  rewrite xorb_false_r in Hr.
  apply double_trunc_rounded in Hr; [|lia]. rewrite Hr. f_equal. f_equal.
  apply round_trunc_arith with (A := Zpos mx * 2 ^ s) (B := Zpos my) (k := e1 - e');
    try lia.
  - replace (- e1 + (e1 - e')) with (- e') by lia. exact Hlo.
  - replace (- e1 + (e1 - e')) with (- e') by lia.
    eapply Z.le_lt_trans; [|exact Hhi].
    apply Z.add_le_mono_l. apply Z.mul_le_mono_nonneg_r; [lia|].
    apply pow2_le_mono. lia.
  - exact Hc.
Qed.

Lemma SFdiv_trunc_gen' sx mx ex my ey n e' s kk :
  Zdigits2 (Zpos mx) = 53 -> Zdigits2 (Zpos my) = 53 ->
  e' = Z.max (ex - ey - 53) (-1074) -> s = ex - ey - e' ->
  kk = Z.max (ex - ey - 52) (-1074) - e' ->
  -1074 <= ex - ey <= 51 -> 0 <= n ->
  n * 2 ^ (- e') * Zpos my <= Zpos mx * 2 ^ s ->
  Zpos mx * 2 ^ s + 2 ^ kk * Zpos my < (n + 1) * 2 ^ (- e') * Zpos my ->
  double_trunc (SFdiv dprec demax (S754_finite sx mx ex) (S754_finite false my ey))
  = Some (cond_Zopp sx n).
Proof.
  intros Hdx Hdy -> -> -> Hg Hn Hlo Hhi. apply SFdiv_trunc_gen; assumption.
Qed.

Lemma double_of_Z_pos p : double_of_Z (Zpos p) = binary_round dprec demax false p 0.
Proof. reflexivity. Qed.

Lemma double_of_Z_neg p : double_of_Z (Zneg p) = binary_round dprec demax true p 0.
Proof. reflexivity. Qed.

(** Dividing an integer of magnitude below [2 ^ 52] by an integer from 2 on
    and truncating the double quotient gives the integer quotient. *)
Lemma SFdiv_trunc_int s p D :
  Zpos p < 2 ^ 52 -> 2 <= D ->
  double_trunc (SFdiv dprec demax (binary_round dprec demax s p 0) (double_of_Z D))
  = Some (cond_Zopp s (Zpos p / D)).
Proof.
  intros Hp HD.
  destruct (binary_round_small s p ltac:(lia)) as (mx & Hmx & ->).
  set (V := Zpos p) in *. set (dV := Zdigits2 V) in *.
  assert (HdV : 1 <= dV <= 52).
  { split; [apply Zdigits2_pos; unfold V; lia | apply Zdigits2_le; unfold V; lia]. }
  assert (Hdx : Zdigits2 (Zpos mx) = 53).
  { rewrite Hmx, Zdigits2_mul_pow2 by (unfold V; lia). fold dV. lia. }
  destruct D as [|pD|pD]; try lia. rewrite double_of_Z_pos.
  destruct (Z.lt_ge_cases (Zpos pD) (2 ^ 53)) as [Hsm|Hlg].
  - destruct (binary_round_small false pD Hsm) as (my & Hmy & ->).
    set (D := Zpos pD) in *. set (dD := Zdigits2 D) in *.
    assert (HdD : 2 <= dD <= 53).
    { split; [|apply Zdigits2_le; unfold D; lia].
      pose proof (Zdigits2_ge D 1 ltac:(unfold D; lia) ltac:(simpl; lia)). fold dD in H. lia. }
    assert (Hdy : Zdigits2 (Zpos my) = 53).
    { rewrite Hmy, Zdigits2_mul_pow2 by (unfold D; lia). fold dD. lia. }
    pose proof (Zdigits2_lt_pow2 D ltac:(unfold D; lia)) as [_ HDlt]. fold dD in HDlt.
    assert (Hn0 : 0 <= V / D) by (apply Z.div_pos; unfold V, D; lia).
    pose proof (Z.mul_div_le V D ltac:(unfold D; lia)) as Hn1.
    pose proof (Z.mul_succ_div_gt V D ltac:(unfold D; lia)) as Hn2. unfold Z.succ in Hn2.
    set (n := V / D) in *.
    assert (HW : 2 ^ (- (dV - dD - 53)) * 2 ^ (53 - dD) = 2 ^ (53 - dV) * 2 ^ 53).
    { rewrite <- !Z.pow_add_r by lia. f_equal. lia. }
    assert (HPe : 2 * 2 ^ dD <= 2 ^ (- (dV - dD - 53))).
    { rewrite <- Z.pow_succ_r by lia. apply pow2_le_mono. lia. }
    apply SFdiv_trunc_gen' with (e' := dV - dD - 53) (s := 53) (kk := 1); try lia.
    + rewrite Hmx, Hmy.
      pose proof (pow2_pos (- (dV - dD - 53)) ltac:(lia)) as P1.
      pose proof (pow2_pos (53 - dD) ltac:(lia)) as P2.
      set (Pe := 2 ^ (- (dV - dD - 53))) in *. set (Pb := 2 ^ (53 - dD)) in *.
      replace (n * Pe * (D * Pb)) with (D * n * (Pe * Pb)) by ring.
      replace (V * 2 ^ (53 - dV) * 2 ^ 53) with (V * (2 ^ (53 - dV) * 2 ^ 53)) by ring.
      rewrite <- HW. apply Z.mul_le_mono_nonneg_r; nia.
    + rewrite Hmx, Hmy.
      pose proof (pow2_pos (- (dV - dD - 53)) ltac:(lia)) as P1.
      pose proof (pow2_pos (53 - dD) ltac:(lia)) as P2.
      set (Pe := 2 ^ (- (dV - dD - 53))) in *. set (Pb := 2 ^ (53 - dD)) in *.
      replace (V * 2 ^ (53 - dV) * 2 ^ 53) with (V * (2 ^ (53 - dV) * 2 ^ 53)) by ring.
      rewrite <- HW. change (2 ^ 1) with 2.
      set (Pd := 2 ^ dD) in *. unfold D in HD. fold D in HD.
      assert (H1 : V * (Pe * Pb) + Pe * Pb <= D * (n + 1) * (Pe * Pb)) by nia.
      assert (H2 : 2 * (D * Pb) < Pe * Pb) by nia.
      nia.
  - destruct (binary_round_large false pD Hlg) as (m' & my & e2 & _ & _ & _ & He2 & Hdy & ->).
    pose proof (Zdigits2_ge (Zpos pD) 53 ltac:(lia) Hlg) as HdD.
    assert (Hn : V / Zpos pD = 0) by (apply Z.div_small; unfold V; lia).
    rewrite Hn. destruct (e2 <=? 971) eqn:El.
    + apply Z.leb_le in El.
      pose proof (Zdigits2_lt_pow2 (Zpos mx) ltac:(lia)) as [_ Hmx'].
      pose proof (Zdigits2_lt_pow2 (Zpos my) ltac:(lia)) as [Hmy' _].
      rewrite Hdx in Hmx'. rewrite Hdy in Hmy'. change (53 - 1) with 52 in Hmy'.
      set (g := dV - 53 - e2). set (e' := Z.max (g - 53) (-1074)).
      apply SFdiv_trunc_gen' with (e' := e') (s := g - e')
          (kk := Z.max (g - 52) (-1074) - e'); try reflexivity; try assumption; try (unfold g; lia).
      * assert (Hs1 : 2 ^ ((g - e') + 1) <= 2 ^ (- e' - 1))
          by (apply pow2_le_mono; unfold e', g; lia).
        assert (Hk1 : 2 ^ (Z.max (g - 52) (-1074) - e') <= 2 ^ (- e' - 1))
          by (apply pow2_le_mono; unfold e', g; lia).
        assert (He : 2 ^ (- e') = 2 * 2 ^ (- e' - 1)).
        { rewrite <- Z.pow_succ_r by (unfold e', g; lia). f_equal. lia. }
        rewrite Z.pow_add_r in Hs1 by (unfold e', g; lia). change (2 ^ 1) with 2 in Hs1.
        pose proof (pow2_pos (g - e') ltac:(unfold e', g; lia)).
        pose proof (pow2_pos (Z.max (g - 52) (-1074) - e') ltac:(unfold e', g; lia)).
        rewrite He.
        set (Ps := 2 ^ (g - e')) in *. set (Pk := 2 ^ (Z.max (g - 52) (-1074) - e')) in *.
        set (Ph := 2 ^ (- e' - 1)) in *. nia.
    + simpl. destruct s; reflexivity.
Qed.

Lemma Zdigits2_succ_le m : 0 <= m -> Zdigits2 (m + 1) <= Zdigits2 m + 1.
Proof.
  intros Hm. destruct (Z.eq_dec m 0) as [->|Hz]; [simpl; lia|].
  destruct (Zdigits2_succ m ltac:(lia)) as [H|[H _]]; lia.
Qed.

Lemma shiftl_pos_bound mz e2 : Zdigits2 (Zpos mz) <= 53 ->
  Zdigits2 (Zpos mz) + e2 <= 63 ->
  0 <= Z.shiftl (Zpos mz) e2 < 2 ^ 63.
Proof.
  intros Hd Hs.
  pose proof (Zdigits2_lt_pow2 (Zpos mz) ltac:(lia)) as [_ Hm].
  pose proof (Zdigits2_pos (Zpos mz) ltac:(lia)) as Hd1.
  destruct (Z.le_gt_cases 0 e2) as [He|He].
  - rewrite Z.shiftl_mul_pow2 by lia. pose proof (pow2_pos e2 He). split; [nia|].
    apply Z.lt_le_trans with (2 ^ (Zdigits2 (Zpos mz) + e2)).
    + rewrite Z.pow_add_r by lia. nia.
    + apply pow2_le_mono. lia.
  - rewrite <- (Z.opp_involutive e2), Z.shiftl_opp_r, Z.shiftr_div_pow2 by lia.
    pose proof (pow2_pos (- e2) ltac:(lia)) as Pe. split.
    + apply Z.div_pos; lia.
    + apply Z.le_lt_trans with (Zpos mz).
      * apply Z.div_le_upper_bound; [lia|]. nia.
      * apply Z.lt_le_trans with (2 ^ Zdigits2 (Zpos mz)); [exact Hm|].
        apply pow2_le_mono. lia.
Qed.

(** The truncated quotient of two finite doubles stays below [2 ^ 63] in
    magnitude when the dividend's exponent exceeds the divisor's by at most
    61. *)
Lemma SFdiv_trunc_bound sx mx ex my ey :
  Zdigits2 (Zpos mx) = 53 -> Zdigits2 (Zpos my) = 53 ->
  -1074 <= ex - ey <= 61 ->
  exists r, double_trunc (SFdiv dprec demax (S754_finite sx mx ex) (S754_finite false my ey))
            = Some r /\ - 2 ^ 63 < r < 2 ^ 63.
Proof.
  intros Hdx Hdy Hg.
  destruct (SFdiv_finite sx mx ex false my ey Hdx Hdy) as (m' & Hc & _ & Hr).
  set (g := ex - ey) in *.
  assert (He' : Z.min (dfexp g) g = Z.max (g - 53) (-1074)) by (unfold dfexp; lia).
  rewrite He' in Hc, Hr. set (e' := Z.max (g - 53) (-1074)) in *.
  set (s := g - e') in *.
  assert (Hs : 0 <= s <= 53) by (unfold s, e'; lia).
  set (q := Zpos mx * 2 ^ s / Zpos my) in *.
  set (e1 := Z.max e' (dfexp (Zdigits2 q + e'))) in *.
  pose proof (Zdigits2_lt_pow2 (Zpos mx) ltac:(lia)) as [_ Hmx].
  pose proof (Zdigits2_lt_pow2 (Zpos my) ltac:(lia)) as [Hmy _].
  rewrite Hdx in Hmx. rewrite Hdy in Hmy. change (53 - 1) with 52 in Hmy.
  pose proof (pow2_pos s ltac:(lia)) as Ps.
  assert (Hq0 : 0 <= q) by (unfold q; apply Z.div_pos; [nia|lia]).
  assert (Hq : q < 2 ^ (s + 1)).
  { unfold q. apply Z.div_lt_upper_bound; [lia|].
    rewrite Z.pow_add_r by lia. change (2 ^ 1) with 2.
    assert (Zpos mx < 2 * Zpos my) by lia. nia. }
  assert (Hdq : Zdigits2 q <= s + 1) by (apply Zdigits2_le_nonneg; lia).
  assert (He1 : e' <= e1 <= Z.max (g - 52) (-1074)).
  { unfold e1, dfexp. unfold s in Hdq. lia. }
  set (m1 := q / 2 ^ (e1 - e')) in *.
  assert (Hm1 : 0 <= m1) by (apply div_pow2_nonneg; lia).
  destruct Hr as [[_ ->]|(mz & e2 & H1 & H2 & H3 & H4 & ->)].
  { exists 0. split; [reflexivity|]. lia. }
  assert (El : (e2 <=? 971) = true) by (apply Z.leb_le; lia). rewrite El.
  assert (Hdz : Zdigits2 (Zpos mz) <= 53) by (unfold dfexp in H4; lia).
  assert (Hmag : 1 <= e2 -> Zdigits2 (Zpos mz) + e2 <= 63).
  { intros He2. rewrite H3.
    assert (Hdm' : Zdigits2 m' <= Zdigits2 m1 + 1).
    { destruct Hc as [->| ->]; [lia|]. apply Zdigits2_succ_le; lia. }
    destruct (Z.eq_dec m1 0) as [Hz|Hz].
    - rewrite Hz in Hdm'. change (Zdigits2 0) with 0 in Hdm'. lia.
    - assert (Zdigits2 m1 = Zdigits2 q - (e1 - e'))
        by (unfold m1; apply Zdigits2_div_pow2; [lia | fold m1; lia]).
      unfold s in Hdq. lia. }
  exists (cond_Zopp (xorb sx false) (Z.shiftl (Zpos mz) e2)). split; [reflexivity|].
  assert (Hb : 0 <= Z.shiftl (Zpos mz) e2 < 2 ^ 63).
  { destruct (Z.le_gt_cases 1 e2) as [He2|He2].
    - apply shiftl_pos_bound; [exact Hdz | apply Hmag; exact He2].
    - apply shiftl_pos_bound; [exact Hdz | lia]. }
  destruct (xorb sx false); simpl; lia.
Qed.

Lemma double_of_Z_divisor_form D : 2 <= D ->
  double_of_Z D = S754_infinity false \/
  exists my ey, double_of_Z D = S754_finite false my ey /\
    Zdigits2 (Zpos my) = 53 /\ -51 <= ey <= 971 /\ (4 <= D -> -50 <= ey).
Proof.
  intros HD. destruct D as [|pD|pD]; try lia. rewrite double_of_Z_pos.
  destruct (Z.lt_ge_cases (Zpos pD) (2 ^ 53)) as [Hsm|Hlg].
  - destruct (binary_round_small false pD Hsm) as (my & Hmy & ->).
    right. exists my, (Zdigits2 (Zpos pD) - 53).
    pose proof (Zdigits2_ge (Zpos pD) 1 ltac:(lia) ltac:(simpl; lia)) as H1.
    pose proof (Zdigits2_le (Zpos pD) 53 ltac:(lia) ltac:(lia) Hsm) as H2.
    split; [reflexivity|]. split; [|split; [lia|]].
    + rewrite Hmy, Zdigits2_mul_pow2 by lia. lia.
    + intros H4. pose proof (Zdigits2_ge (Zpos pD) 2 ltac:(lia) ltac:(simpl; lia)). lia.
  - destruct (binary_round_large false pD Hlg) as (m' & my & e2 & _ & _ & _ & He2 & Hdy & ->).
    pose proof (Zdigits2_ge (Zpos pD) 53 ltac:(lia) Hlg) as HdD.
    destruct (e2 <=? 971) eqn:El; [|left; reflexivity].
    apply Z.leb_le in El. right. exists my, e2. repeat split; try assumption; lia.
Qed.

Lemma binary_round_int64_form s p : 2 ^ 52 <= Zpos p <= 2 ^ 63 ->
  exists mx ex, binary_round dprec demax s p 0 = S754_finite s mx ex /\
    Zdigits2 (Zpos mx) = 53 /\ 0 <= ex <= 11 /\ (ex = 11 -> Zpos mx = 2 ^ 52).
Proof.
  intros [Hlo Hhi].
  destruct (Z.lt_ge_cases (Zpos p) (2 ^ 53)) as [Hsm|Hlg].
  - destruct (binary_round_small s p Hsm) as (mx & Hmx & ->).
    pose proof (Zdigits2_ge (Zpos p) 52 ltac:(lia) Hlo) as H1.
    pose proof (Zdigits2_le (Zpos p) 53 ltac:(lia) ltac:(lia) Hsm) as H2.
    exists mx, (Zdigits2 (Zpos p) - 53). split; [reflexivity|]. split; [|lia].
    rewrite Hmx, Zdigits2_mul_pow2 by lia. lia.
  - destruct (binary_round_large s p Hlg) as (m' & mz & e2 & Hc & Hx & H1 & H2 & Hdz & ->).
    set (d := Zdigits2 (Zpos p)) in *.
    assert (Hd : 54 <= d <= 64).
    { split.
      - pose proof (Zdigits2_ge (Zpos p) 53 ltac:(lia) Hlg). fold d in H. lia.
      - apply Zdigits2_le; lia. }
    set (k := d - 53) in *.
    pose proof (pow2_pos k ltac:(unfold k; lia)) as Pk.
    pose proof (Zdigits2_lt_pow2 (Zpos p) ltac:(lia)) as [Hp1 Hp2]. fold d in Hp1, Hp2.
    assert (Hm1 : Zpos p / 2 ^ k < 2 ^ 53).
    { apply Z.div_lt_upper_bound; [lia|]. rewrite <- Z.pow_add_r by (unfold k; lia).
      replace (k + 53) with d by (unfold k; lia). exact Hp2. }
    pose proof (Zdigits2_lt_pow2 (Zpos mz) ltac:(lia)) as [Hz1 _].
    rewrite Hdz in Hz1. change (53 - 1) with 52 in Hz1.
    assert (Hm' : m' <= 2 ^ 53) by lia.
    assert (Hk11 : k = 11 -> e2 = 11 /\ Zpos mz = 2 ^ 52).
    { intros Hk. assert (Hp : Zpos p = 2 ^ 63).
      { replace (d - 1) with 63 in Hp1 by (unfold k in Hk; lia). lia. }
      rewrite Hp, Hk in Hx. specialize (Hx eq_refl).
      change (2 ^ 63 / 2 ^ 11) with (2 ^ 52) in Hx. subst m'.
      assert (e2 = k \/ e2 = k + 1) as [->| ->] by lia.
      - rewrite Z.sub_diag, Z.pow_0_r in H1. lia.
      - replace (k + 1 - k) with 1 in H1 by lia. change (2 ^ 1) with 2 in H1. lia. }
    assert ((e2 <=? 971) = true) as -> by (apply Z.leb_le; unfold k in *; lia).
    exists mz, e2. split; [reflexivity|]. split; [exact Hdz|].
    destruct (Z.eq_dec k 11) as [Hk|Hk]; [destruct (Hk11 Hk); lia|].
    assert (e2 = k \/ e2 = k + 1) as [->| ->] by lia.
    + unfold k in *. lia.
    + replace (k + 1 - k) with 1 in H1 by lia. change (2 ^ 1) with 2 in H1.
      unfold k in *. lia.
Qed.

Lemma SFdiv_zero_l s D : 2 <= D ->
  double_trunc (SFdiv dprec demax (S754_zero s) (double_of_Z D)) = Some 0.
Proof.
  intros HD. destruct (double_of_Z_divisor_form D HD) as [->|(my & ey & -> & _)]; reflexivity.
Qed.

(** Truncated division of an integer of magnitude below [2 ^ 52]. *)
Lemma SFdiv_trunc_quot v D : - 2 ^ 52 < v < 2 ^ 52 -> 2 <= D ->
  double_trunc (SFdiv dprec demax (double_of_Z v) (double_of_Z D)) = Some (Z.quot v D).
Proof.
  intros Hv HD. destruct v as [|p|p].
  - rewrite Z.quot_0_l by lia. apply SFdiv_zero_l; exact HD.
  - rewrite double_of_Z_pos, SFdiv_trunc_int by lia. simpl cond_Zopp.
    rewrite Z.quot_div_nonneg by lia. reflexivity.
  - rewrite double_of_Z_neg, SFdiv_trunc_int by lia. simpl cond_Zopp.
    change (Z.neg p) with (- Z.pos p). rewrite Z.quot_opp_l by lia.
    rewrite Z.quot_div_nonneg by lia. reflexivity.
Qed.

(** Truncated division of any 64-bit integer by 2 or by an integer from 4 on
    is defined and representable in 64 bits. *)
Lemma SFdiv_trunc_int64 v D : - 2 ^ 63 <= v <= 2 ^ 63 - 1 -> D = 2 \/ 4 <= D ->
  exists r, double_trunc (SFdiv dprec demax (double_of_Z v) (double_of_Z D)) = Some r /\
            - 2 ^ 63 <= r <= 2 ^ 63 - 1.
Proof.
  intros Hv HD. assert (HD2 : 2 <= D) by lia.
  destruct (Z_lt_le_dec (Z.abs v) (2 ^ 52)) as [Hs|Hl].
  { exists (Z.quot v D). split; [apply SFdiv_trunc_quot; lia|].
    pose proof (Z.quot_abs v D ltac:(lia)) as Ha.
    assert (Z.abs v ÷ Z.abs D <= Z.abs v).
    { rewrite Z.quot_div_nonneg by lia. apply Z.div_le_upper_bound; [lia|]. nia. }
    lia. }
  assert (Hform : exists s p, double_of_Z v = binary_round dprec demax s p 0 /\
                   2 ^ 52 <= Zpos p <= 2 ^ 63).
  { destruct v as [|p|p]; [simpl in Hl; lia| |].
    - exists false, p. split; [reflexivity|]. simpl in Hl. lia.
    - exists true, p. split; [reflexivity|]. simpl in Hl. lia. }
  destruct Hform as (s & p & -> & Hp).
  destruct (binary_round_int64_form s p Hp) as (mx & ex & -> & Hdx & Hex & H11).
  destruct (double_of_Z_divisor_form D HD2) as [->|(my & ey & Ey & Hdy & Hey & H4)].
  { exists 0. split; [reflexivity|lia]. }
  destruct (Z.le_gt_cases (ex - ey) 61) as [Hg|Hg].
  - rewrite Ey. destruct (SFdiv_trunc_bound s mx ex my ey Hdx Hdy ltac:(lia)) as (r & Hr & Hb).
    exists r. split; [exact Hr|lia].
  - assert (D = 2) by lia. subst D.
    assert (ex = 11) by lia. subst ex. specialize (H11 eq_refl).
    assert (mx = 4503599627370496%positive) by lia. subst mx.
    destruct s; [exists (- 2 ^ 62) | exists (2 ^ 62)]; split; try lia; vm_compute; reflexivity.
Qed.

(** ** Exact products and exact quotients *)

Lemma Zdigits2_mul_bounds a b : 0 < a -> 0 < b ->
  Zdigits2 a + Zdigits2 b - 1 <= Zdigits2 (a * b) <= Zdigits2 a + Zdigits2 b.
Proof.
  intros Ha Hb.
  pose proof (Zdigits2_lt_pow2 a Ha) as [A1 A2].
  pose proof (Zdigits2_lt_pow2 b Hb) as [B1 B2].
  pose proof (Zdigits2_pos a Ha). pose proof (Zdigits2_pos b Hb).
  pose proof (pow2_pos (Zdigits2 a - 1) ltac:(lia)).
  pose proof (pow2_pos (Zdigits2 b - 1) ltac:(lia)).
  split.
  - assert (Zdigits2 a - 1 + (Zdigits2 b - 1) < Zdigits2 (a * b)); [|lia].
    apply Zdigits2_ge; [nia|]. rewrite Z.pow_add_r by lia. nia.
  - apply Zdigits2_le; [nia|lia|]. rewrite Z.pow_add_r by lia. nia.
Qed.

Lemma rounded_exact s m e z : 0 < m -> dfexp (Zdigits2 m + e) = e -> e <= 971 ->
  rounded s m e z -> exists mz, Zpos mz = m /\ z = S754_finite s mz e.
Proof.
  intros Hm Hf He [[Hz _]|(mz & e2 & H1 & H2 & H3 & H4 & ->)]; [lia|].
  rewrite Hf, Z.max_id in H4. subst e2.
  rewrite Z.sub_diag, Z.pow_0_r in H1. exists mz. split; [lia|].
  assert ((e <=? 971) = true) as -> by (apply Z.leb_le; lia). reflexivity.
Qed.

(** The product of two integers is computed exactly when it is
    below [2 ^ 53]. *)
Lemma SFmul_int s p pD : Zpos p * Zpos pD < 2 ^ 53 ->
  SFmul dprec demax (binary_round dprec demax s p 0) (double_of_Z (Zpos pD))
  = binary_round dprec demax s (p * pD) 0.
Proof.
  intros HP.
  assert (Hp : Zpos p < 2 ^ 53) by nia. assert (HpD : Zpos pD < 2 ^ 53) by nia.
  rewrite double_of_Z_pos.
  destruct (binary_round_small s p Hp) as (mx & Hmx & ->).
  destruct (binary_round_small false pD HpD) as (my & Hmy & ->).
  destruct (binary_round_small s (p * pD) ltac:(rewrite Pos2Z.inj_mul; exact HP))
    as (mP & HmP & ->).
  rewrite Pos2Z.inj_mul in HmP.
  set (V := Zpos p) in *. set (D := Zpos pD) in *.
  set (dV := Zdigits2 V) in *. set (dD := Zdigits2 D) in *.
  rewrite Pos2Z.inj_mul. fold V D.
  set (dP := Zdigits2 (V * D)) in *.
  assert (HdV : 1 <= dV <= 53) by (split; [apply Zdigits2_pos | apply Zdigits2_le]; unfold V; lia).
  assert (HdD : 1 <= dD <= 53) by (split; [apply Zdigits2_pos | apply Zdigits2_le]; unfold D; lia).
  assert (HdP : 1 <= dP <= 53) by (split; [apply Zdigits2_pos | apply Zdigits2_le]; unfold V, D in *; lia).
  pose proof (Zdigits2_mul_bounds V D ltac:(unfold V; lia) ltac:(unfold D; lia)) as Hb.
  fold dV dD dP in Hb.
  unfold SFmul. rewrite xorb_false_r.
  destruct (binary_round_aux_spec s (Zpos (mx * my)) (dV - 53 + (dD - 53)) loc_Exact ltac:(lia))
    as (m' & _ & Hx & Hr).
  set (z := binary_round_aux _ _ _ _ _ _) in *.
  rewrite Pos2Z.inj_mul, Hmx, Hmy in Hx, Hr.
  assert (Hm : V * 2 ^ (53 - dV) * (D * 2 ^ (53 - dD))
               = V * D * 2 ^ (53 - dP) * 2 ^ (dP - 53 - (dV - 53 + (dD - 53)))).
  { replace (V * D * 2 ^ (53 - dP) * 2 ^ (dP - 53 - (dV - 53 + (dD - 53))))
      with (V * D * (2 ^ (53 - dP) * 2 ^ (dP - 53 - (dV - 53 + (dD - 53))))) by ring.
    rewrite <- Z.pow_add_r by lia.
    replace (53 - dP + (dP - 53 - (dV - 53 + (dD - 53)))) with ((53 - dV) + (53 - dD)) by lia.
    rewrite Z.pow_add_r by lia. ring. }
  assert (Hdm : Zdigits2 (V * 2 ^ (53 - dV) * (D * 2 ^ (53 - dD))) = dP + ((53 - dV) + (53 - dD))).
  { replace (V * 2 ^ (53 - dV) * (D * 2 ^ (53 - dD)))
      with (V * D * 2 ^ ((53 - dV) + (53 - dD))) by (rewrite Z.pow_add_r by lia; ring).
    rewrite Zdigits2_mul_pow2 by (unfold V, D; lia). reflexivity. }
  rewrite Hdm in Hx, Hr.
  assert (He1 : Z.max (dV - 53 + (dD - 53)) (dfexp (dP + (53 - dV + (53 - dD)) + (dV - 53 + (dD - 53))))
                = dP - 53) by (unfold dfexp; lia).
  rewrite He1 in Hx, Hr.
  rewrite Hm in Hx.
  pose proof (pow2_pos (dP - 53 - (dV - 53 + (dD - 53))) ltac:(lia)) as Pk.
  rewrite Z.mod_mul, Z.div_mul in Hx by lia. specialize (Hx eq_refl eq_refl). subst m'.
  pose proof (pow2_pos (53 - dP) ltac:(lia)) as Pc.
  apply rounded_exact in Hr; try lia.
  - destruct Hr as (mz & Hmz & ->). f_equal. lia.
  - rewrite Zdigits2_mul_pow2 by (unfold V, D; lia). fold dP. unfold dfexp. lia.
Qed.

(** The quotient of a product below [2 ^ 53] by one of its factors is
    computed exactly. *)
Lemma SFdiv_exact_int s p pD : Zpos p * Zpos pD < 2 ^ 53 ->
  SFdiv dprec demax (binary_round dprec demax s (p * pD) 0) (double_of_Z (Zpos pD))
  = binary_round dprec demax s p 0.
Proof.
  intros HP.
  assert (Hp : Zpos p < 2 ^ 53) by nia. assert (HpD : Zpos pD < 2 ^ 53) by nia.
  rewrite double_of_Z_pos.
  destruct (binary_round_small s p Hp) as (mx & Hmx & ->).
  destruct (binary_round_small false pD HpD) as (my & Hmy & ->).
  destruct (binary_round_small s (p * pD) ltac:(rewrite Pos2Z.inj_mul; exact HP))
    as (mP & HmP & ->).
  rewrite Pos2Z.inj_mul in HmP.
  set (V := Zpos p) in *. set (D := Zpos pD) in *.
  set (dV := Zdigits2 V) in *. set (dD := Zdigits2 D) in *.
  rewrite Pos2Z.inj_mul. fold V D.
  set (dP := Zdigits2 (V * D)) in *.
  assert (HdV : 1 <= dV <= 53) by (split; [apply Zdigits2_pos | apply Zdigits2_le]; unfold V; lia).
  assert (HdD : 1 <= dD <= 53) by (split; [apply Zdigits2_pos | apply Zdigits2_le]; unfold D; lia).
  assert (HdP : 1 <= dP <= 53) by (split; [apply Zdigits2_pos | apply Zdigits2_le]; unfold V, D in *; lia).
  pose proof (Zdigits2_mul_bounds V D ltac:(unfold V; lia) ltac:(unfold D; lia)) as Hb.
  fold dV dD dP in Hb.
  assert (HdmP : Zdigits2 (Zpos mP) = 53).
  { rewrite HmP, Zdigits2_mul_pow2 by (unfold V, D; lia). fold dP. lia. }
  assert (Hdmy : Zdigits2 (Zpos my) = 53).
  { rewrite Hmy, Zdigits2_mul_pow2 by (unfold D; lia). fold dD. lia. }
  destruct (SFdiv_finite s mP (dP - 53) false my (dD - 53) HdmP Hdmy) as (m' & _ & Hx & Hr).
  set (z := SFdiv _ _ _ _) in *.
  rewrite xorb_false_r in Hr.
  assert (He' : Z.min (dfexp (dP - 53 - (dD - 53))) (dP - 53 - (dD - 53)) = dP - dD - 53)
    by (unfold dfexp; lia).
  rewrite He' in Hx, Hr.
  replace (dP - 53 - (dD - 53) - (dP - dD - 53)) with 53 in Hx, Hr by lia.
  assert (Hq : Zpos mP * 2 ^ 53 = V * 2 ^ (53 - dP + dD) * Zpos my).
  { rewrite HmP, Hmy.
    replace (V * 2 ^ (53 - dP + dD) * (D * 2 ^ (53 - dD)))
      with (V * D * (2 ^ (53 - dP + dD) * 2 ^ (53 - dD))) by ring.
    rewrite <- Z.pow_add_r by lia.
    replace (53 - dP + dD + (53 - dD)) with ((53 - dP) + 53) by lia.
    rewrite Z.pow_add_r by lia. ring. }
  rewrite Hq in Hx, Hr. rewrite Z.mod_mul, Z.div_mul in Hx by lia.
  rewrite Z.div_mul in Hr by lia.
  rewrite Zdigits2_mul_pow2 in Hx, Hr by (unfold V; lia). fold dV in Hx, Hr.
  assert (He1 : Z.max (dP - dD - 53) (dfexp (dV + (53 - dP + dD) + (dP - dD - 53))) = dV - 53)
    by (unfold dfexp; lia).
  rewrite He1 in Hx, Hr.
  assert (Hsplit : V * 2 ^ (53 - dP + dD) = V * 2 ^ (53 - dV) * 2 ^ (dV - 53 - (dP - dD - 53))).
  { replace (V * 2 ^ (53 - dV) * 2 ^ (dV - 53 - (dP - dD - 53)))
      with (V * (2 ^ (53 - dV) * 2 ^ (dV - 53 - (dP - dD - 53)))) by ring.
    rewrite <- Z.pow_add_r by lia. f_equal. f_equal. lia. }
  rewrite Hsplit in Hx.
  pose proof (pow2_pos (dV - 53 - (dP - dD - 53)) ltac:(lia)) as Pk.
  rewrite Z.mod_mul, Z.div_mul in Hx by lia. specialize (Hx eq_refl eq_refl). subst m'.
  pose proof (pow2_pos (53 - dV) ltac:(lia)) as Pc.
  apply rounded_exact in Hr; try lia.
  - destruct Hr as (mz & Hmz & ->). f_equal. lia.
  - rewrite Zdigits2_mul_pow2 by (unfold V; lia). fold dV. unfold dfexp. lia.
Qed.

(** * Properties of the header *)

(** ** Integer arithmetic *)

Lemma wrap_in_range T z : in_range T z -> wrap T z = z.
Proof.
  unfold in_range, wrap, numeric_limits_min, numeric_limits_max.
  destruct T; simpl bits; intros H; rewrite Z.mod_small; lia.
Qed.

Lemma in_rangeb_true T z : in_range T z -> in_rangeb T z = true.
Proof.
  unfold in_range, in_rangeb. intros [H1 H2].
  apply andb_true_intro. split; apply Z.leb_le; assumption.
Qed.

Lemma in_range_int32_int64 z : in_range int32_t z -> in_range int64_t z.
Proof. unfold in_range, numeric_limits_min, numeric_limits_max. simpl bits. lia. Qed.

Lemma in_range_int32_any T z : in_range int32_t z -> in_range T z.
Proof. destruct T; [auto | apply in_range_int32_int64]. Qed.

Lemma radix_value_cases Rad : radix_value Rad = 2 \/ radix_value Rad = 10.
Proof. destruct Rad; simpl; auto. Qed.

Lemma radix_pow_ge Rad s : 0 < s ->
  radix_value Rad ^ s = 2 \/ 4 <= radix_value Rad ^ s.
Proof.
  intros Hs. destruct (Z.eq_dec s 1) as [->|Hn].
  - rewrite Z.pow_1_r. destruct Rad; simpl; lia.
  - right. replace s with (2 + (s - 2)) by lia.
    rewrite Z.pow_add_r by lia.
    pose proof (Z.pow_pos_nonneg (radix_value Rad) (s - 2)) as Hp.
    destruct Rad; simpl radix_value in *; specialize (Hp ltac:(lia) ltac:(lia)); nia.
Qed.

Lemma std_pow_nonneg b e : 0 <= e -> std_pow b e = double_of_Z (b ^ e).
Proof. intros He. unfold std_pow. apply Z.leb_le in He. rewrite He. reflexivity. Qed.

(** ** The shift primitives on integers *)

Lemma quot_in_range T v D : in_range T v -> 2 <= D -> in_range T (Z.quot v D).
Proof.
  intros Hv HD. pose proof (Z.quot_abs v D ltac:(lia)) as Ha.
  assert (Hq : Z.abs v ÷ Z.abs D <= Z.abs v).
  { rewrite Z.quot_div_nonneg by lia. apply Z.div_le_upper_bound; [lia|]. nia. }
  assert (Hs : 0 <= v -> 0 <= Z.quot v D) by (intros; apply Z.quot_pos; lia).
  assert (Hs' : v <= 0 -> Z.quot v D <= 0).
  { intros Hn. replace v with (- - v) by lia. rewrite Z.quot_opp_l by lia.
    pose proof (Z.quot_pos (- v) D ltac:(lia) ltac:(lia)). lia. }
  unfold in_range, numeric_limits_min, numeric_limits_max in *.
  destruct T; simpl bits in *; lia.
Qed.

(** A right shift of an integer always has a result in the type of the
    integer, and below [2 ^ 52] it is the truncating integer quotient. *)
Lemma shift_right_defined Rad T v s : in_range T v -> 0 < s ->
  exists r,
    static_cast_int T (detail.right_shift Rad (Integral T) v (mk_weak_typedef s)) = Some r /\
    in_range T r /\
    (- 2 ^ 52 < v < 2 ^ 52 -> r = Z.quot v (radix_value Rad ^ s)).
Proof.
  intros Hv Hs. unfold detail.right_shift. simpl to_double. simpl _t.
  rewrite std_pow_nonneg by lia.
  pose proof (radix_pow_ge Rad s Hs) as HD.
  set (D := radix_value Rad ^ s) in *.
  unfold static_cast_int.
  assert (Hsmall : - 2 ^ 52 < v < 2 ^ 52 ->
    exists r, (match double_trunc (SFdiv dprec demax (double_of_Z v) (double_of_Z D)) with
               | Some z => if in_rangeb T z then Some z else None
               | None => None end) = Some r /\ in_range T r /\
              (- 2 ^ 52 < v < 2 ^ 52 -> r = Z.quot v D)).
  { intros Hb. exists (Z.quot v D). rewrite SFdiv_trunc_quot by lia.
    pose proof (quot_in_range T v D Hv ltac:(lia)) as Hq.
    rewrite in_rangeb_true by exact Hq. auto. }
  destruct T.
  - apply Hsmall. unfold in_range, numeric_limits_min, numeric_limits_max in Hv.
    simpl bits in Hv. lia.
  - destruct (Z_lt_le_dec (Z.abs v) (2 ^ 52)) as [Hlt|Hge]; [apply Hsmall; lia|].
    destruct (SFdiv_trunc_int64 v D) as (r & Hr & Hb); [exact Hv | exact HD |].
    exists r. rewrite Hr.
    assert (Hin : in_range int64_t r) by exact Hb.
    rewrite in_rangeb_true by exact Hin. split; [reflexivity|]. split; [exact Hin|]. lia.
Qed.

Lemma shift_pos Rad T v s : 0 < s ->
  detail.shift Rad (Integral T) v (mk_weak_typedef s)
  = static_cast_int T (detail.right_shift Rad (Integral T) v (mk_weak_typedef s)).
Proof.
  intros Hs. unfold detail.shift. simpl _t.
  destruct (s =? 0) eqn:E0; [apply Z.eqb_eq in E0; lia|].
  destruct (s >? 0) eqn:E1; [reflexivity|]. rewrite Z.gtb_ltb in E1. apply Z.ltb_ge in E1. lia.
Qed.

Lemma shift_neg Rad T v s : s < 0 ->
  detail.shift Rad (Integral T) v (mk_weak_typedef s)
  = static_cast_int T (detail.left_shift Rad (Integral T) v (mk_weak_typedef s)).
Proof.
  intros Hs. unfold detail.shift. simpl _t.
  destruct (s =? 0) eqn:E0; [apply Z.eqb_eq in E0; lia|].
  destruct (s >? 0) eqn:E1; [|reflexivity]. rewrite Z.gtb_ltb in E1. apply Z.ltb_lt in E1. lia.
Qed.

Lemma scale_eta (s : scale_type) : mk_weak_typedef (_t s) = s.
Proof. destruct s; reflexivity. Qed.

(** ** Multiplication and division *)

(** C2. The product of two fixed_point values has the representation value
    [a.value * b.value] and the scale [a.scale + b.scale], both computed in
    the arithmetic of their types and with no rescaling of an operand; when
    the product and the sum are representable they are the exact ones. *)
Theorem multiplies_value_and_scale (Rep : int_type) (Rad : Radix)
    (a b : fixed_point Rep Rad) :
  operator_multiplies a b
  = mk_fixed_point (int_mul Rep (_value a) (_value b))
      (mk_weak_typedef (int_add int32_t (_t (_scale a)) (_t (_scale b)))) /\
  (in_range Rep (_value a * _value b) ->
   in_range int32_t (_t (_scale a) + _t (_scale b)) ->
   operator_multiplies a b
   = mk_fixed_point (_value a * _value b)
       (mk_weak_typedef (_t (_scale a) + _t (_scale b)))).
Proof.
  split; [reflexivity|]. intros Hv Hs.
  unfold operator_multiplies, fixed_point_of_scaled, int_mul, int_add. simpl.
  rewrite !wrap_in_range by assumption. reflexivity.
Qed.

Lemma multiplies_value_and_scale_witness :
  in_range int32_t (2 * 3) /\ in_range int32_t (-1 + -1) /\
  operator_multiplies (Rep := int32_t) (Rad := BASE_10)
    (mk_fixed_point 2 (mk_weak_typedef (-1))) (mk_fixed_point 3 (mk_weak_typedef (-1)))
  = mk_fixed_point 6 (mk_weak_typedef (-2)).
Proof.
  assert (H1 : in_range int32_t (2 * 3)) by (unfold in_range; vm_compute; split; discriminate).
  assert (H2 : in_range int32_t (-1 + -1)) by (unfold in_range; vm_compute; split; discriminate).
  split; [exact H1|]. split; [exact H2|].
  exact (proj2 (multiplies_value_and_scale int32_t BASE_10
                  (mk_fixed_point 2 (mk_weak_typedef (-1)))
                  (mk_fixed_point 3 (mk_weak_typedef (-1)))) H1 H2).
Defined.

(** A quotient of a representable dividend is representable, but for the
    minimum divided by -1. *)
Lemma quot_defined_in_range T a b :
  in_range T a -> b <> 0 -> ~ (a = numeric_limits_min T /\ b = -1) ->
  in_range T (Z.quot a b).
Proof.
  intros Ha Hb Hn.
  pose proof (Z.quot_abs a b Hb) as Hq.
  assert (Hle : Z.abs a ÷ Z.abs b <= Z.abs a).
  { rewrite Z.quot_div_nonneg by lia. apply Z.div_le_upper_bound; [lia|]. nia. }
  unfold in_range, numeric_limits_min, numeric_limits_max in *.
  assert (HM : 2 <= 2 ^ (bits T - 1)) by (destruct T; simpl; lia).
  set (M := 2 ^ (bits T - 1)) in *.
  destruct (Z.eq_dec a (- M)) as [->|Hm]; [|lia].
  destruct (Z.eq_dec b 1) as [->|H1]; [rewrite Z.quot_1_r; lia|].
  assert (H2 : 2 <= Z.abs b) by lia.
  assert (Hlt : Z.abs (- M) ÷ Z.abs b < M).
  { rewrite Z.quot_div_nonneg by lia. apply Z.div_lt_upper_bound; [lia|]. nia. }
  lia.
Qed.

Lemma divides_defined Rep Rad (a b : fixed_point Rep Rad) :
  _value b <> 0 -> ~ (_value a = numeric_limits_min Rep /\ _value b = -1) ->
  operator_divides a b
  = Some (mk_fixed_point (int_quot Rep (_value a) (_value b))
            (mk_weak_typedef (int_sub int32_t (_t (_scale a)) (_t (_scale b))))).
Proof.
  intros Hb Hn. unfold operator_divides.
  destruct (_value b =? 0) eqn:E; [apply Z.eqb_eq in E; contradiction|].
  destruct ((_value a =? numeric_limits_min Rep) && (_value b =? -1)) eqn:E';
    [|reflexivity].
  apply andb_true_iff in E'. rewrite !Z.eqb_eq in E'. contradiction.
Qed.

(** The claim as worded fails at one pair of values: the minimum divided by
    -1, a nonzero divisor, has no representable quotient, and the division
    of the header has no result there. *)
Lemma divides_min_by_minus_one_undefined :
  exists a b : fixed_point int32_t BASE_10,
    in_range int32_t (_value a) /\ in_range int32_t (_value b) /\
    _value b <> 0 /\
    ~ in_range int32_t (Z.quot (_value a) (_value b)) /\
    operator_divides a b = None.
Proof.
  exists (mk_fixed_point (numeric_limits_min int32_t) (mk_weak_typedef 0)),
         (mk_fixed_point (-1) (mk_weak_typedef 0)).
  split; [unfold in_range; vm_compute; split; discriminate|].
  split; [unfold in_range; vm_compute; split; discriminate|].
  split; [simpl; discriminate|].
  split; [|vm_compute; reflexivity].
  unfold in_range. vm_compute. intros [_ H]. apply H. reflexivity.
Qed.

(** C3, amended. For a divisor with a nonzero value, and not the minimum
    divided by -1, the quotient of two fixed_point values has the
    representation value [a.value / b.value], truncated toward zero, and the
    scale [a.scale - b.scale] computed in int32_t; for a representable
    dividend the value is the quotient itself, with no wrap-around.  100 at
    scale 0 divided by 3 at scale 0 is 33 at scale 0. *)
Theorem divides_value_and_scale :
  (forall (Rep : int_type) (Rad : Radix) (a b : fixed_point Rep Rad),
     _value b <> 0 ->
     ~ (_value a = numeric_limits_min Rep /\ _value b = -1) ->
     operator_divides a b
     = Some (mk_fixed_point (int_quot Rep (_value a) (_value b))
               (mk_weak_typedef (int_sub int32_t (_t (_scale a)) (_t (_scale b))))) /\
     (in_range Rep (_value a) ->
      operator_divides a b
      = Some (mk_fixed_point (Z.quot (_value a) (_value b))
                (mk_weak_typedef (int_sub int32_t (_t (_scale a)) (_t (_scale b)))))) /\
     (in_range Rep (_value a) ->
      in_range int32_t (_t (_scale a) - _t (_scale b)) ->
      operator_divides a b
      = Some (mk_fixed_point (Z.quot (_value a) (_value b))
                (mk_weak_typedef (_t (_scale a) - _t (_scale b)))))) /\
  (exists x y : fixed_point int32_t BASE_10,
     fixed_point_of (Integral int32_t) 100 (mk_weak_typedef 0) = Some x /\
     fixed_point_of (Integral int32_t) 3 (mk_weak_typedef 0) = Some y /\
     operator_divides x y = Some (mk_fixed_point 33 (mk_weak_typedef 0))).
Proof.
  split.
  - intros Rep Rad a b Hb Hn. rewrite divides_defined by assumption.
    split; [reflexivity|].
    assert (Hq : in_range Rep (_value a) ->
                 int_quot Rep (_value a) (_value b) = Z.quot (_value a) (_value b)).
    { intros Ha. unfold int_quot. apply wrap_in_range.
      apply quot_defined_in_range; assumption. }
    split.
    + intros Ha. rewrite (Hq Ha). reflexivity.
    + intros Ha Hs. rewrite (Hq Ha). unfold int_sub.
      rewrite wrap_in_range by exact Hs. reflexivity.
  - exists (mk_fixed_point 100 (mk_weak_typedef 0)), (mk_fixed_point 3 (mk_weak_typedef 0)).
    repeat split; vm_compute; reflexivity.
Qed.

Lemma divides_value_and_scale_witness :
  3 <> 0 /\ ~ (100 = numeric_limits_min int32_t /\ 3 = -1) /\
  operator_divides (Rep := int32_t) (Rad := BASE_10)
    (mk_fixed_point 100 (mk_weak_typedef 0)) (mk_fixed_point 3 (mk_weak_typedef 0))
  = Some (mk_fixed_point 33 (mk_weak_typedef 0)).
Proof.
  assert (H : 3 <> 0) by discriminate.
  assert (H' : ~ (100 = numeric_limits_min int32_t /\ 3 = -1))
    by (intros [_ E]; discriminate E).
  split; [exact H|]. split; [exact H'|].
  exact (proj1 (proj1 divides_value_and_scale int32_t BASE_10
                  (mk_fixed_point 100 (mk_weak_typedef 0))
                  (mk_fixed_point 3 (mk_weak_typedef 0)) H H')).
Defined.

(** ** Overflow predicates *)

Lemma div_lt_iff a b x : 0 < b -> (a / b < x <-> a < x * b).
Proof.
  intros Hb. split; intros H.
  - pose proof (Z.mul_succ_div_gt a b Hb). unfold Z.succ in *. nia.
  - apply Z.div_lt_upper_bound; [exact Hb|]. lia.
Qed.

Lemma half_range_pos T : 2 <= 2 ^ (bits T - 1).
Proof. destruct T; simpl bits; lia. Qed.

Lemma in_range_iff T z :
  in_range T z <-> - 2 ^ (bits T - 1) <= z <= 2 ^ (bits T - 1) - 1.
Proof. reflexivity. Qed.

Lemma multiplication_overflow_exact Rep l r :
  in_range Rep l -> in_range Rep r ->
  (multiplication_overflow Rep l r = true <-> ~ in_range Rep (l * r)).
Proof.
  intros Hl Hr. unfold multiplication_overflow, int_quot.
  pose proof (half_range_pos Rep) as HM.
  rewrite in_range_iff in *. unfold numeric_limits_min, numeric_limits_max.
  set (M := 2 ^ (bits Rep - 1)) in *.
  destruct (r >? 0) eqn:E1.
  - rewrite Z.gtb_ltb in E1. apply Z.ltb_lt in E1.
    assert (Q1 : Z.quot (M - 1) r = (M - 1) / r) by (apply Z.quot_div_nonneg; lia).
    assert (Q2 : Z.quot (- M) r = - (M / r)).
    { rewrite Z.quot_opp_l by lia. rewrite Z.quot_div_nonneg by lia. reflexivity. }
    assert (B1 : 0 <= (M - 1) / r <= M - 1).
    { split; [apply Z.div_pos; lia|]. apply Z.div_le_upper_bound; [lia|]. nia. }
    assert (B2 : 0 <= M / r <= M).
    { split; [apply Z.div_pos; lia|]. apply Z.div_le_upper_bound; [lia|]. nia. }
    rewrite Q1, Q2.
    rewrite !wrap_in_range by (rewrite in_range_iff; fold M; lia).
    pose proof (div_lt_iff (M - 1) r l E1) as D1.
    pose proof (div_lt_iff M r (- l) E1) as D2.
    rewrite orb_true_iff, Z.gtb_ltb, !Z.ltb_lt. split.
    + intros [H|H]; [apply D1 in H | assert (H' : M / r < - l) by lia; apply D2 in H']; lia.
    + intros H. destruct (Z_lt_le_dec (M - 1) (l * r)) as [Hc|Hc].
      * left. apply D1. lia.
      * right. assert (H' : M / r < - l) by (apply D2; lia). lia.
  - rewrite Z.gtb_ltb in E1. apply Z.ltb_ge in E1.
    destruct (r <? -1) eqn:E2.
    + apply Z.ltb_lt in E2.
      assert (Q1 : Z.quot (- M) r = M / (- r)).
      { replace r with (- - r) at 1 by lia. rewrite Z.quot_opp_opp by lia.
        apply Z.quot_div_nonneg; lia. }
      assert (Q2 : Z.quot (M - 1) r = - ((M - 1) / (- r))).
      { replace r with (- - r) at 1 by lia. rewrite Z.quot_opp_r by lia.
        rewrite Z.quot_div_nonneg by lia. reflexivity. }
      assert (B1 : 0 <= (M - 1) / (- r) <= M - 1).
      { split; [apply Z.div_pos; lia|]. apply Z.div_le_upper_bound; [lia|]. nia. }
      assert (B2 : 0 <= M / (- r) <= M - 1).
      { split; [apply Z.div_pos; lia|].
        assert (M / (- r) < M); [|lia]. apply Z.div_lt_upper_bound; [lia|]. nia. }
      rewrite Q1, Q2.
      rewrite !wrap_in_range by (rewrite in_range_iff; fold M; lia).
      pose proof (div_lt_iff M (- r) l ltac:(lia)) as D1.
      pose proof (div_lt_iff (M - 1) (- r) (- l) ltac:(lia)) as D2.
      rewrite orb_true_iff, Z.gtb_ltb, !Z.ltb_lt. split.
      * intros [H|H]; [apply D1 in H | assert (H' : (M - 1) / - r < - l) by lia; apply D2 in H']; lia.
      * intros H. destruct (Z_lt_le_dec (l * r) (- M)) as [Hc|Hc].
        -- left. apply D1. lia.
        -- right. assert (H' : (M - 1) / - r < - l) by (apply D2; lia). lia.
    + apply Z.ltb_ge in E2. rewrite andb_true_iff, !Z.eqb_eq.
      assert (r = 0 \/ r = -1) as [->| ->] by lia; split; intros H; lia.
Qed.

Lemma division_overflow_exact Rep l r :
  in_range Rep l -> in_range Rep r -> r <> 0 ->
  (division_overflow Rep l r = true <-> ~ in_range Rep (Z.quot l r)).
Proof.
  intros Hl Hr Hz. unfold division_overflow.
  pose proof (half_range_pos Rep) as HM.
  rewrite in_range_iff in *. unfold numeric_limits_min.
  set (M := 2 ^ (bits Rep - 1)) in *.
  rewrite andb_true_iff, !Z.eqb_eq. split.
  - intros [-> ->]. replace (-1) with (- (1)) by lia.
    rewrite Z.quot_opp_opp, Z.quot_1_r by lia. lia.
  - intros H.
    destruct (Z.eq_dec r 1) as [->|H1]; [rewrite Z.quot_1_r in H; lia|].
    destruct (Z.eq_dec r (-1)) as [->|H2].
    + replace (-1) with (- (1)) in H by lia.
      rewrite Z.quot_opp_r, Z.quot_1_r in H by lia. lia.
    + exfalso. apply H.
      pose proof (Z.quot_abs l r Hz) as Ha.
      assert (Hq : Z.abs l ÷ Z.abs r < M).
      { rewrite Z.quot_div_nonneg by lia. apply Z.div_lt_upper_bound; [lia|]. nia. }
      lia.
Qed.

(** C4. Each overflow predicate is true exactly when the unbounded result of
    its operation on two values of [Rep] lies outside [[MIN, MAX]];
    [division_overflow] is true exactly at [MIN / -1]. *)
Theorem overflow_predicates_exact (Rep : int_type) (l r : Z) :
  in_range Rep l -> in_range Rep r ->
  (addition_overflow Rep l r = true <-> ~ in_range Rep (l + r)) /\
  (subtraction_overflow Rep l r = true <-> ~ in_range Rep (l - r)) /\
  (multiplication_overflow Rep l r = true <-> ~ in_range Rep (l * r)) /\
  (division_overflow Rep l r = true <-> l = numeric_limits_min Rep /\ r = -1) /\
  (r <> 0 -> (division_overflow Rep l r = true <-> ~ in_range Rep (Z.quot l r))).
Proof.
  intros Hl Hr.
  split; [|split; [|split; [apply multiplication_overflow_exact; assumption|split]]].
  - unfold addition_overflow, int_sub. pose proof (half_range_pos Rep) as HM.
    rewrite in_range_iff in *. unfold numeric_limits_min, numeric_limits_max.
    set (M := 2 ^ (bits Rep - 1)) in *.
    destruct (r >? 0) eqn:E; rewrite Z.gtb_ltb in E;
      [apply Z.ltb_lt in E | apply Z.ltb_ge in E];
      rewrite wrap_in_range by (rewrite in_range_iff; fold M; lia);
      rewrite ?Z.gtb_ltb, Z.ltb_lt; lia.
  - unfold subtraction_overflow, int_add. pose proof (half_range_pos Rep) as HM.
    rewrite in_range_iff in *. unfold numeric_limits_min, numeric_limits_max.
    set (M := 2 ^ (bits Rep - 1)) in *.
    destruct (r >? 0) eqn:E; rewrite Z.gtb_ltb in E;
      [apply Z.ltb_lt in E | apply Z.ltb_ge in E];
      rewrite wrap_in_range by (rewrite in_range_iff; fold M; lia);
      rewrite ?Z.gtb_ltb, Z.ltb_lt; lia.
  - unfold division_overflow. rewrite andb_true_iff, !Z.eqb_eq. reflexivity.
  - intros Hz. apply division_overflow_exact; assumption.
Qed.

Lemma overflow_predicates_exact_witness :
  in_range int32_t 2147483647 /\ in_range int32_t 1 /\
  (addition_overflow int32_t 2147483647 1 = true <-> ~ in_range int32_t (2147483647 + 1)).
Proof.
  assert (H1 : in_range int32_t 2147483647) by (unfold in_range; vm_compute; split; discriminate).
  assert (H2 : in_range int32_t 1) by (unfold in_range; vm_compute; split; discriminate).
  split; [exact H1|]. split; [exact H2|].
  exact (proj1 (overflow_predicates_exact int32_t 2147483647 1 H1 H2)).
Defined.

(** ** Alignment of two operands *)

Section Alignment.

Context {Rep : int_type} {Rad : Radix}.

Lemma int32_sub_exact x y :
  Z.abs (x - y) <= numeric_limits_max int32_t -> int_sub int32_t x y = x - y.
Proof.
  intros H. unfold int_sub. apply wrap_in_range.
  unfold in_range, numeric_limits_min, numeric_limits_max in *. simpl bits in *. lia.
Qed.

Lemma aligned_same_scale (a b : fixed_point Rep Rad) :
  _t (_scale a) = _t (_scale b) -> aligned a b = Some (_value a, _value b).
Proof.
  intros H. unfold aligned. rewrite H.
  rewrite Z.gtb_ltb, Z.ltb_irrefl. reflexivity.
Qed.

Lemma aligned_lower_lhs (a b : fixed_point Rep Rad) :
  _t (_scale a) < _t (_scale b) ->
  _t (_scale b) - _t (_scale a) <= numeric_limits_max int32_t ->
  aligned a b
  = (r <- static_cast_int Rep
            (detail.right_shift Rad (Integral Rep) (_value a)
               (mk_weak_typedef (_t (_scale b) - _t (_scale a)))) ;;
     Some (r, _value b)).
Proof.
  intros Hlt Hd. unfold aligned.
  assert (E1 : (_t (_scale a) >? _t (_scale b)) = false)
    by (rewrite Z.gtb_ltb; apply Z.ltb_ge; lia).
  assert (E2 : (_t (_scale a) <? _t (_scale b)) = true) by (apply Z.ltb_lt; lia).
  rewrite E1, E2. simpl bind at 1.
  rewrite int32_sub_exact by lia. rewrite shift_pos by lia. reflexivity.
Qed.

Lemma aligned_lower_rhs (a b : fixed_point Rep Rad) :
  _t (_scale b) < _t (_scale a) ->
  _t (_scale a) - _t (_scale b) <= numeric_limits_max int32_t ->
  aligned a b
  = (r <- static_cast_int Rep
            (detail.right_shift Rad (Integral Rep) (_value b)
               (mk_weak_typedef (_t (_scale a) - _t (_scale b)))) ;;
     Some (_value a, r)).
Proof.
  intros Hlt Hd. unfold aligned.
  assert (E1 : (_t (_scale a) >? _t (_scale b)) = true)
    by (rewrite Z.gtb_ltb; apply Z.ltb_lt; lia).
  assert (E2 : (_t (_scale a) <? _t (_scale b)) = false) by (apply Z.ltb_ge; lia).
  rewrite E1, E2.
  rewrite int32_sub_exact by lia. rewrite shift_pos by lia.
  destruct (static_cast_int Rep _); reflexivity.
Qed.

Lemma aligned_scale_max (a b : fixed_point Rep Rad) :
  aligned_scale a b = mk_weak_typedef (Z.max (_t (_scale a)) (_t (_scale b))).
Proof.
  unfold aligned_scale. destruct (_t (_scale a) >? _t (_scale b)) eqn:E;
    rewrite Z.gtb_ltb in E; [apply Z.ltb_lt in E | apply Z.ltb_ge in E].
  - rewrite Z.max_l by lia. symmetry. apply scale_eta.
  - rewrite Z.max_r by lia. symmetry. apply scale_eta.
Qed.

Lemma aligned_swap (a b : fixed_point Rep Rad) :
  aligned b a = (p <- aligned a b ;; Some (snd p, fst p)).
Proof.
  unfold aligned.
  destruct (Z.lt_trichotomy (_t (_scale a)) (_t (_scale b))) as [H|[H|H]].
  - assert ((_t (_scale a) >? _t (_scale b)) = false) as -> by (rewrite Z.gtb_ltb; apply Z.ltb_ge; lia).
    assert ((_t (_scale a) <? _t (_scale b)) = true) as -> by (apply Z.ltb_lt; lia).
    assert ((_t (_scale b) >? _t (_scale a)) = true) as -> by (rewrite Z.gtb_ltb; apply Z.ltb_lt; lia).
    assert ((_t (_scale b) <? _t (_scale a)) = false) as -> by (apply Z.ltb_ge; lia).
    simpl. destruct (detail.shift Rad (Integral Rep) (_value a) _); reflexivity.
  - rewrite H, Z.gtb_ltb, Z.ltb_irrefl. reflexivity.
  - assert ((_t (_scale a) >? _t (_scale b)) = true) as -> by (rewrite Z.gtb_ltb; apply Z.ltb_lt; lia).
    assert ((_t (_scale a) <? _t (_scale b)) = false) as -> by (apply Z.ltb_ge; lia).
    assert ((_t (_scale b) >? _t (_scale a)) = false) as -> by (rewrite Z.gtb_ltb; apply Z.ltb_ge; lia).
    assert ((_t (_scale b) <? _t (_scale a)) = true) as -> by (apply Z.ltb_lt; lia).
    simpl. destruct (detail.shift Rad (Integral Rep) (_value b) _); reflexivity.
Qed.

Lemma aligned_scale_comm (a b : fixed_point Rep Rad) :
  aligned_scale a b = aligned_scale b a.
Proof. rewrite !aligned_scale_max. f_equal. apply Z.max_comm. Qed.

End Alignment.

(** The claim as worded fails for 64-bit values from [2 ^ 53]: the aligned
    value is computed through [double], and 999999999999999999 at scale -18
    is aligned to scale 0 as 1, not as the 0 that shifting out 18 decimal
    digits gives, so that adding or subtracting 0 at scale 0 gives 1. *)
Lemma plus_minus_alignment_not_radix_shift :
  exists a b : fixed_point int64_t BASE_10,
    in_range int64_t (_value a) /\ in_range int64_t (_value b) /\
    _t (_scale a) < _t (_scale b) /\
    Z.quot (_value a) (10 ^ (_t (_scale b) - _t (_scale a))) = 0 /\
    _value b = 0 /\
    operator_plus a b = Some (mk_fixed_point 1 (mk_weak_typedef 0)) /\
    operator_minus a b = Some (mk_fixed_point 1 (mk_weak_typedef 0)).
Proof.
  exists (mk_fixed_point 999999999999999999 (mk_weak_typedef (-18))),
         (mk_fixed_point 0 (mk_weak_typedef 0)).
  split; [unfold in_range; vm_compute; split; discriminate|].
  split; [unfold in_range; vm_compute; split; discriminate|].
  split; [reflexivity|].
  split; [vm_compute; reflexivity|].
  split; [reflexivity|].
  split; vm_compute; reflexivity.
Qed.

(** C1, amended. Addition and subtraction always have a result; they give it
    the larger of the two scales, leave the value of the operand with the
    larger scale as it is, and replace the value of the operand with the
    smaller scale by its right shift by the difference of the scales, which
    the header computes as the cast to [Rep] of a quotient of doubles; for a
    value of magnitude below [2 ^ 52] that is the integer quotient by the
    power of the radix, truncated toward zero.  The two aligned values are
    combined in [Rep] and the pair is installed with no further shift.  The
    difference of the scales is assumed representable in int32_t, as the
    header computes it in that type. *)
Theorem plus_minus_align_to_larger_scale (Rep : int_type) (Rad : Radix)
    (a b : fixed_point Rep Rad) :
  in_range Rep (_value a) -> in_range Rep (_value b) ->
  Z.abs (_t (_scale a) - _t (_scale b)) <= numeric_limits_max int32_t ->
  exists av bv : Z,
    (_t (_scale a) < _t (_scale b) ->
     static_cast_int Rep
       (detail.right_shift Rad (Integral Rep) (_value a)
          (mk_weak_typedef (_t (_scale b) - _t (_scale a)))) = Some av /\
     (- 2 ^ 52 < _value a < 2 ^ 52 ->
      av = Z.quot (_value a) (radix_value Rad ^ (_t (_scale b) - _t (_scale a))))) /\
    (_t (_scale b) <= _t (_scale a) -> av = _value a) /\
    (_t (_scale b) < _t (_scale a) ->
     static_cast_int Rep
       (detail.right_shift Rad (Integral Rep) (_value b)
          (mk_weak_typedef (_t (_scale a) - _t (_scale b)))) = Some bv /\
     (- 2 ^ 52 < _value b < 2 ^ 52 ->
      bv = Z.quot (_value b) (radix_value Rad ^ (_t (_scale a) - _t (_scale b))))) /\
    (_t (_scale a) <= _t (_scale b) -> bv = _value b) /\
    operator_plus a b
    = Some (mk_fixed_point (int_add Rep av bv)
              (mk_weak_typedef (Z.max (_t (_scale a)) (_t (_scale b))))) /\
    operator_minus a b
    = Some (mk_fixed_point (int_sub Rep av bv)
              (mk_weak_typedef (Z.max (_t (_scale a)) (_t (_scale b))))).
Proof.
  intros Ha Hb Hd. unfold operator_plus, operator_minus, fixed_point_of_scaled.
  rewrite aligned_scale_max. simpl si_value. simpl si_scale.
  destruct (Z.lt_trichotomy (_t (_scale a)) (_t (_scale b))) as [H|[H|H]].
  - destruct (shift_right_defined Rad Rep (_value a) (_t (_scale b) - _t (_scale a)) Ha
                ltac:(lia)) as (r & Hr & _ & Hq).
    exists r, (_value b). rewrite aligned_lower_lhs by lia. rewrite Hr. simpl.
    split; [intros _; split; [reflexivity|exact Hq]|].
    split; [intros; lia|]. split; [intros; lia|].
    split; [reflexivity|]. split; reflexivity.
  - exists (_value a), (_value b). rewrite aligned_same_scale by exact H. simpl.
    split; [intros; lia|]. split; [reflexivity|]. split; [intros; lia|].
    split; [reflexivity|]. split; reflexivity.
  - destruct (shift_right_defined Rad Rep (_value b) (_t (_scale a) - _t (_scale b)) Hb
                ltac:(lia)) as (r & Hr & _ & Hq).
    exists (_value a), r. rewrite aligned_lower_rhs by lia. rewrite Hr. simpl.
    split; [intros; lia|]. split; [reflexivity|].
    split; [intros _; split; [reflexivity|exact Hq]|].
    split; [intros; lia|]. split; reflexivity.
Qed.

Lemma plus_minus_align_to_larger_scale_witness :
  in_range int32_t 123 /\ in_range int32_t 25 /\
  Z.abs (-2 - -1) <= numeric_limits_max int32_t /\
  operator_plus (Rep := int32_t) (Rad := BASE_10)
    (mk_fixed_point 123 (mk_weak_typedef (-2))) (mk_fixed_point 25 (mk_weak_typedef (-1)))
  = Some (mk_fixed_point (Z.quot 123 (10 ^ 1) + 25) (mk_weak_typedef (-1))).
Proof.
  assert (H1 : in_range int32_t 123) by (unfold in_range; vm_compute; split; discriminate).
  assert (H2 : in_range int32_t 25) by (unfold in_range; vm_compute; split; discriminate).
  assert (H3 : Z.abs (-2 - -1) <= numeric_limits_max int32_t) by (vm_compute; discriminate).
  split; [exact H1|]. split; [exact H2|]. split; [exact H3|].
  destruct (plus_minus_align_to_larger_scale int32_t BASE_10
              (mk_fixed_point 123 (mk_weak_typedef (-2)))
              (mk_fixed_point 25 (mk_weak_typedef (-1))) H1 H2 H3)
    as (av & bv & Hav & _ & _ & Hbv & Hp & _).
  rewrite Hp. simpl in Hav, Hbv.
  destruct (Hav eq_refl) as [_ Hq]. specialize (Hbv ltac:(discriminate)).
  rewrite (Hq ltac:(split; reflexivity)). subst bv. reflexivity.
Defined.

(** C8. Addition and multiplication are commutative: both orders give the
    same value and the same scale (and the same absence of a result), with
    or without overflow. *)
Theorem plus_multiplies_commute (Rep : int_type) (Rad : Radix)
    (a b : fixed_point Rep Rad) :
  operator_plus a b = operator_plus b a /\
  operator_multiplies a b = operator_multiplies b a.
Proof.
  split.
  - unfold operator_plus. rewrite (aligned_swap a b), (aligned_scale_comm b a).
    destruct (aligned a b) as [[x y]|]; simpl; [|reflexivity].
    unfold int_add. rewrite Z.add_comm. reflexivity.
  - unfold operator_multiplies, int_mul, int_add.
    rewrite Z.mul_comm, Z.add_comm. reflexivity.
Qed.

(** C10. Equality is reflexive and symmetric. *)
Theorem eq_reflexive_symmetric (Rep : int_type) (Rad : Radix) :
  (forall x : fixed_point Rep Rad, operator_eq x x = Some true) /\
  (forall a b : fixed_point Rep Rad, operator_eq a b = operator_eq b a).
Proof.
  split.
  - intros x. unfold operator_eq. rewrite aligned_same_scale by reflexivity.
    simpl. rewrite Z.eqb_refl. reflexivity.
  - intros a b. unfold operator_eq. rewrite (aligned_swap a b).
    destruct (aligned a b) as [[x y]|]; simpl; [|reflexivity].
    rewrite Z.eqb_sym. reflexivity.
Qed.

(** The claim as worded fails for 64-bit values from [2 ^ 53]: the
    comparison goes through [double], and 999999999999999999 at scale -18
    compares equal to 1 at scale 0 although shifting out 18 decimal digits
    gives 0. *)
Lemma eq_not_radix_shift :
  exists a b : fixed_point int64_t BASE_10,
    in_range int64_t (_value a) /\ in_range int64_t (_value b) /\
    _t (_scale a) < _t (_scale b) /\
    Z.quot (_value a) (10 ^ (_t (_scale b) - _t (_scale a))) <> _value b /\
    operator_eq a b = Some true.
Proof.
  exists (mk_fixed_point 999999999999999999 (mk_weak_typedef (-18))),
         (mk_fixed_point 1 (mk_weak_typedef 0)).
  split; [unfold in_range; vm_compute; split; discriminate|].
  split; [unfold in_range; vm_compute; split; discriminate|].
  split; [reflexivity|].
  split; [vm_compute; discriminate|].
  vm_compute. reflexivity.
Qed.

(** C9, amended. Equality across scales is lossy: with [a.scale < b.scale]
    the comparison always has a result, and it is true exactly when the
    right shift of [a.value] by the difference of the scales, which the
    header computes as the cast to [Rep] of a quotient of doubles, gives
    [b.value]; for [a.value] of magnitude below [2 ^ 52] the comparison is
    true exactly when the integer quotient of [a.value] by the power of the
    radix, truncated toward zero, is [b.value], whatever the digits shifted
    out.  1.23 at scale -2 and 1.2 at scale -1 compare equal. *)
Theorem eq_lossy_across_scales :
  (forall (Rep : int_type) (Rad : Radix) (a b : fixed_point Rep Rad),
     in_range Rep (_value a) ->
     _t (_scale a) < _t (_scale b) ->
     _t (_scale b) - _t (_scale a) <= numeric_limits_max int32_t ->
     (exists r,
        static_cast_int Rep
          (detail.right_shift Rad (Integral Rep) (_value a)
             (mk_weak_typedef (_t (_scale b) - _t (_scale a)))) = Some r /\
        operator_eq a b = Some (_value b =? r)) /\
     (- 2 ^ 52 < _value a < 2 ^ 52 ->
      operator_eq a b
      = Some (_value b =? Z.quot (_value a)
                            (radix_value Rad ^ (_t (_scale b) - _t (_scale a)))) /\
      (operator_eq a b = Some true <->
       Z.quot (_value a) (radix_value Rad ^ (_t (_scale b) - _t (_scale a)))
       = _value b))) /\
  (exists a b : fixed_point int32_t BASE_10,
     _t (_scale a) < _t (_scale b) /\
     Z.rem (_value a) (10 ^ (_t (_scale b) - _t (_scale a))) <> 0 /\
     operator_eq a b = Some true /\
     ~ (rational_value a == rational_value b)%Q).
Proof.
  split.
  - intros Rep Rad a b Ha Hlt Hd.
    destruct (shift_right_defined Rad Rep (_value a) (_t (_scale b) - _t (_scale a)) Ha
                ltac:(lia)) as (r & Hr & _ & Hq).
    assert (He : operator_eq a b = Some (_value b =? r)).
    { unfold operator_eq. rewrite aligned_lower_lhs by lia. rewrite Hr. reflexivity. }
    split; [exists r; split; assumption|].
    intros Hb. rewrite He, <- (Hq Hb). split; [reflexivity|]. split.
    + intros H. injection H as H. apply Z.eqb_eq in H. lia.
    + intros ->. rewrite Z.eqb_refl. reflexivity.
  - exists (mk_fixed_point 123 (mk_weak_typedef (-2))),
           (mk_fixed_point 12 (mk_weak_typedef (-1))).
    split; [reflexivity|]. split; [vm_compute; discriminate|].
    split; [vm_compute; reflexivity|].
    intros H. vm_compute in H. discriminate.
Qed.

Lemma eq_lossy_across_scales_witness :
  in_range int32_t 123 /\ -2 < -1 /\ -1 - -2 <= numeric_limits_max int32_t /\
  - 2 ^ 52 < 123 < 2 ^ 52 /\
  operator_eq (Rep := int32_t) (Rad := BASE_10)
    (mk_fixed_point 123 (mk_weak_typedef (-2))) (mk_fixed_point 12 (mk_weak_typedef (-1)))
  = Some (12 =? Z.quot 123 (10 ^ 1)).
Proof.
  assert (H1 : in_range int32_t 123) by (unfold in_range; vm_compute; split; discriminate).
  assert (H2 : -2 < -1) by reflexivity.
  assert (H3 : -1 - -2 <= numeric_limits_max int32_t) by (vm_compute; discriminate).
  assert (H4 : - 2 ^ 52 < 123 < 2 ^ 52) by (split; reflexivity).
  split; [exact H1|]. split; [exact H2|]. split; [exact H3|]. split; [exact H4|].
  exact (proj1 (proj2 (proj1 eq_lossy_across_scales int32_t BASE_10
                         (mk_fixed_point 123 (mk_weak_typedef (-2)))
                         (mk_fixed_point 12 (mk_weak_typedef (-1))) H1 H2 H3) H4)).
Defined.

(** ** Exact conversions, products and quotients of small integers *)

Lemma double_of_Z_zero : double_of_Z 0 = S754_zero false.
Proof. reflexivity. Qed.

Lemma double_of_Z_finite_pos D : 0 < D < 2 ^ 53 ->
  exists my e, double_of_Z D = S754_finite false my e.
Proof.
  intros HD. destruct D as [|p|p]; try lia. rewrite double_of_Z_pos.
  destruct (binary_round_small false p ltac:(lia)) as (my & _ & ->). eauto.
Qed.

Lemma double_trunc_binary_round s p : Zpos p < 2 ^ 53 ->
  double_trunc (binary_round dprec demax s p 0) = Some (cond_Zopp s (Zpos p)).
Proof.
  intros Hp. destruct (binary_round_small s p Hp) as (mx & Hmx & ->).
  pose proof (Zdigits2_pos (Zpos p) ltac:(lia)) as H1.
  pose proof (Zdigits2_le (Zpos p) 53 ltac:(lia) ltac:(lia) Hp) as H2.
  cbn [double_trunc]. f_equal. f_equal.
  rewrite <- (Z.opp_involutive (Zdigits2 (Zpos p) - 53)), Z.shiftl_opp_r.
  rewrite Z.shiftr_div_pow2 by lia. rewrite Hmx.
  replace (- (Zdigits2 (Z.pos p) - 53)) with (53 - Zdigits2 (Zpos p)) by lia.
  apply Z.div_mul. apply Z.pow_nonzero; lia.
Qed.

Lemma double_trunc_of_Z z : - 2 ^ 53 < z < 2 ^ 53 -> double_trunc (double_of_Z z) = Some z.
Proof.
  intros Hz. destruct z as [|p|p].
  - reflexivity.
  - rewrite double_of_Z_pos, double_trunc_binary_round by lia. reflexivity.
  - rewrite double_of_Z_neg, double_trunc_binary_round by lia. reflexivity.
Qed.

Lemma SFmul_Z v D : 0 < D < 2 ^ 53 -> Z.abs v * D < 2 ^ 53 ->
  SFmul dprec demax (double_of_Z v) (double_of_Z D) = double_of_Z (v * D).
Proof.
  intros HD Hv. destruct D as [|pD|pD]; try lia. destruct v as [|p|p].
  - destruct (double_of_Z_finite_pos (Zpos pD) HD) as (my & e & ->). reflexivity.
  - rewrite (double_of_Z_pos p). rewrite SFmul_int by (simpl in Hv; lia). reflexivity.
  - rewrite (double_of_Z_neg p). rewrite SFmul_int by (simpl in Hv; lia). reflexivity.
Qed.

Lemma SFdiv_exact_Z v D : 0 < D < 2 ^ 53 -> Z.abs v * D < 2 ^ 53 ->
  SFdiv dprec demax (double_of_Z (v * D)) (double_of_Z D) = double_of_Z v.
Proof.
  intros HD Hv. destruct D as [|pD|pD]; try lia. destruct v as [|p|p].
  - destruct (double_of_Z_finite_pos (Zpos pD) HD) as (my & e & ->). reflexivity.
  - change (Zpos p * Zpos pD) with (Zpos (p * pD)). rewrite (double_of_Z_pos (p * pD)).
    rewrite SFdiv_exact_int by (simpl in Hv; lia). reflexivity.
  - change (Zneg p * Zpos pD) with (Zneg (p * pD)). rewrite (double_of_Z_neg (p * pD)).
    rewrite SFdiv_exact_int by (simpl in Hv; lia). reflexivity.
Qed.

Lemma radix_pow_pos Rad k : 0 <= k -> 0 < radix_value Rad ^ k.
Proof. intros; apply Z.pow_pos_nonneg; [destruct Rad; simpl; lia|lia]. Qed.

Lemma radix_pow_gt_lin Rad k : 0 <= k -> k < radix_value Rad ^ k.
Proof. intros; apply Z.pow_gt_lin_r; [destruct Rad; simpl; lia|lia]. Qed.

Lemma negate_exact s : Z.abs s <= numeric_limits_max int32_t ->
  detail.negate (mk_weak_typedef s) = mk_weak_typedef (- s).
Proof.
  intros H. unfold detail.negate, int_neg. simpl _t. rewrite wrap_in_range; [reflexivity|].
  unfold in_range, numeric_limits_min, numeric_limits_max in *. simpl bits in *. lia.
Qed.

(** A left shift of an integer is exact when the power of the radix and the
    product are below [2 ^ 53] and the product fits the integer type. *)
Lemma shift_left_exact Rad T v s :
  s < 0 -> - s <= numeric_limits_max int32_t ->
  radix_value Rad ^ (- s) < 2 ^ 53 ->
  Z.abs (v * radix_value Rad ^ (- s)) < 2 ^ 53 ->
  in_range T (v * radix_value Rad ^ (- s)) ->
  detail.shift Rad (Integral T) v (mk_weak_typedef s)
  = Some (v * radix_value Rad ^ (- s)).
Proof.
  intros Hs Hm HD Hv Hr. rewrite shift_neg by exact Hs.
  unfold detail.left_shift. rewrite negate_exact by lia. simpl _t. simpl to_double.
  rewrite std_pow_nonneg by lia.
  pose proof (radix_pow_pos Rad (- s) ltac:(lia)) as HP.
  rewrite SFmul_Z; [| lia | rewrite Z.abs_mul in Hv; rewrite (Z.abs_eq (_ ^ _)) in Hv; lia].
  unfold static_cast_int. rewrite double_trunc_of_Z by lia.
  rewrite in_rangeb_true by exact Hr. reflexivity.
Qed.

Lemma shift_double_pos Rad d k : 0 < k ->
  detail.shift Rad Floating d (mk_weak_typedef k)
  = Some (SFdiv dprec demax d (std_pow (radix_value Rad) k)).
Proof.
  intros Hk. unfold detail.shift. simpl _t.
  destruct (k =? 0) eqn:E0; [apply Z.eqb_eq in E0; lia|].
  destruct (k >? 0) eqn:E1; [reflexivity|]. rewrite Z.gtb_ltb in E1. apply Z.ltb_ge in E1. lia.
Qed.

Lemma shift_double_neg Rad d k : k < 0 ->
  detail.shift Rad Floating d (mk_weak_typedef k)
  = Some (SFmul dprec demax d
            (std_pow (radix_value Rad) (_t (detail.negate (mk_weak_typedef k))))).
Proof.
  intros Hk. unfold detail.shift. simpl _t.
  destruct (k =? 0) eqn:E0; [apply Z.eqb_eq in E0; lia|].
  destruct (k >? 0) eqn:E1; [|reflexivity]. rewrite Z.gtb_ltb in E1. apply Z.ltb_lt in E1. lia.
Qed.

Lemma shift_right_quot Rad T v s : in_range T v -> - 2 ^ 52 < v < 2 ^ 52 -> 0 < s ->
  detail.shift Rad (Integral T) v (mk_weak_typedef s) = Some (Z.quot v (radix_value Rad ^ s)).
Proof.
  intros Hr Hv Hs. rewrite shift_pos by exact Hs.
  destruct (shift_right_defined Rad T v s Hr Hs) as (r & -> & _ & Hq).
  rewrite (Hq Hv). reflexivity.
Qed.

(** ** The shift primitives: C6 *)

(** The shifts are computed in double precision: on 64-bit operands beyond
    [2 ^ 53] neither the right shift nor the left shift is the one of integer
    arithmetic. *)
Lemma shift_not_integer_arithmetic :
  (exists r, detail.shift BASE_10 (Integral int64_t) (2 ^ 63 - 1) (mk_weak_typedef 1) = Some r /\
             r = 922337203685477632 /\ r <> Z.quot (2 ^ 63 - 1) (10 ^ 1)) /\
  (exists r, detail.shift BASE_10 (Integral int64_t) (2 ^ 53 + 1) (mk_weak_typedef (-1)) = Some r /\
             r = 90071992547409920 /\ r <> (2 ^ 53 + 1) * 10 ^ 1 /\
             in_range int64_t ((2 ^ 53 + 1) * 10 ^ 1)).
Proof.
  split.
  - exists 922337203685477632. split; [vm_compute; reflexivity|].
    split; [reflexivity|]. vm_compute. discriminate.
  - exists 90071992547409920. split; [vm_compute; reflexivity|].
    split; [reflexivity|]. split; [vm_compute; discriminate|].
    unfold in_range. vm_compute. split; discriminate.
Qed.

(** A boolean property of the integers below a bound, checked one by one. *)
Lemma forall_below (P : Z -> bool) (n : nat) :
  List.forallb (fun i => P (Z.of_nat i)) (List.seq 0 n) = true ->
  forall j, 0 <= j < Z.of_nat n -> P j = true.
Proof.
  intros Hall j Hj. rewrite List.forallb_forall in Hall.
  specialize (Hall (Z.to_nat j)). rewrite Z2Nat.id in Hall by lia.
  apply Hall. apply List.in_seq. lia.
Qed.

(** The power of the radix that [std_pow] returns is the exact one up to
    the exponent 1023 in radix 2 and 22 in radix 10: it is a [double]. *)
Lemma std_pow_exact Rad k :
  0 <= k <= match Rad with BASE_2 => 1023 | BASE_10 => 22 end ->
  double_trunc (std_pow (radix_value Rad) k) = Some (radix_value Rad ^ k).
Proof.
  intros Hk.
  set (P := fun R j => match double_trunc (std_pow R j) with
                       | Some z => z =? R ^ j
                       | None => false
                       end).
  assert (H : forall R, P R k = true -> double_trunc (std_pow R k) = Some (R ^ k)).
  { intros R. unfold P. destruct (double_trunc (std_pow R k)) as [z|]; [|discriminate].
    intros E. apply Z.eqb_eq in E. congruence. }
  apply H. destruct Rad; simpl radix_value.
  - apply (forall_below (P 2) 1024); [vm_compute; reflexivity | lia].
  - apply (forall_below (P 10) 23); [vm_compute; reflexivity | lia].
Qed.

(** The right shift of [true] is [true] as long as the power of the radix
    is finite: the quotient of 1 by it is not a zero. *)
Lemma shift_true_right Rad s :
  0 < s <= match Rad with BASE_2 => 1023 | BASE_10 => 308 end ->
  detail.shift Rad Boolean true (mk_weak_typedef s) = Some true.
Proof.
  intros Hs.
  set (P := fun R j => match detail.shift R Boolean true (mk_weak_typedef j) with
                       | Some b => b
                       | None => false
                       end).
  assert (H : forall R, P R s = true ->
                        detail.shift R Boolean true (mk_weak_typedef s) = Some true).
  { intros R. unfold P.
    destruct (detail.shift R Boolean true (mk_weak_typedef s)) as [b|]; [|discriminate].
    intros ->. reflexivity. }
  apply H. destruct Rad.
  - apply (forall_below (P BASE_2) 1024); [vm_compute; reflexivity | lia].
  - apply (forall_below (P BASE_10) 309); [vm_compute; reflexivity | lia].
Qed.

(** C6, amended. The shifts go through [double].  For an operand of type
    int32_t or int64_t the right shift is the quotient, and the left shift
    the product, of the operand converted to [double] and the power of the
    radix, which is exact up to the exponent 1023 in radix 2 and 22 in radix
    10; [shift] casts the result back to the operand's type.  For such an
    operand of magnitude below [2 ^ 52] (every int32_t value) the right shift
    is the integer quotient truncated toward zero, and the left shift is the
    exact product when the power of the radix and the product are below
    [2 ^ 53] and the product is representable in the operand's type.  For a
    [bool] operand the cast back is a test against zero, and the right shift
    of [true] is [true], where the integer quotient is 0. *)
Theorem shift_integer_arithmetic_below_2_52 (Rad : Radix) (T : int_type) (v s : Z) :
  in_range T v ->
  (0 < s <= match Rad with BASE_2 => 1023 | BASE_10 => 22 end ->
   double_trunc (std_pow (radix_value Rad) s) = Some (radix_value Rad ^ s) /\
   detail.right_shift Rad (Integral T) v (mk_weak_typedef s)
   = SFdiv dprec demax (double_of_Z v) (double_of_Z (radix_value Rad ^ s)) /\
   detail.shift Rad (Integral T) v (mk_weak_typedef s)
   = static_cast_int T
       (SFdiv dprec demax (double_of_Z v) (double_of_Z (radix_value Rad ^ s)))) /\
  (- match Rad with BASE_2 => 1023 | BASE_10 => 22 end <= s < 0 ->
   double_trunc (std_pow (radix_value Rad) (- s)) = Some (radix_value Rad ^ (- s)) /\
   detail.left_shift Rad (Integral T) v (mk_weak_typedef s)
   = SFmul dprec demax (double_of_Z v) (double_of_Z (radix_value Rad ^ (- s))) /\
   detail.shift Rad (Integral T) v (mk_weak_typedef s)
   = static_cast_int T
       (SFmul dprec demax (double_of_Z v) (double_of_Z (radix_value Rad ^ (- s))))) /\
  (0 < s -> - 2 ^ 52 < v < 2 ^ 52 ->
   detail.shift Rad (Integral T) v (mk_weak_typedef s)
   = Some (Z.quot v (radix_value Rad ^ s))) /\
  (s < 0 -> - s <= numeric_limits_max int32_t ->
   radix_value Rad ^ (- s) < 2 ^ 53 ->
   Z.abs (v * radix_value Rad ^ (- s)) < 2 ^ 53 ->
   in_range T (v * radix_value Rad ^ (- s)) ->
   detail.shift Rad (Integral T) v (mk_weak_typedef s)
   = Some (v * radix_value Rad ^ (- s))) /\
  (0 < s <= match Rad with BASE_2 => 1023 | BASE_10 => 308 end ->
   detail.shift Rad Boolean true (mk_weak_typedef s) = Some true /\
   Z.quot (int_of_bool true) (radix_value Rad ^ s) = 0).
Proof.
  intros Hr.
  split; [|split; [|split; [|split]]].
  - intros Hs.
    assert (E : detail.right_shift Rad (Integral T) v (mk_weak_typedef s)
                = SFdiv dprec demax (double_of_Z v) (double_of_Z (radix_value Rad ^ s))).
    { unfold detail.right_shift. simpl. rewrite std_pow_nonneg by lia. reflexivity. }
    split; [apply std_pow_exact; lia|]. split; [exact E|].
    rewrite shift_pos by lia. rewrite E. reflexivity.
  - intros Hs.
    assert (Hm : Z.abs s <= numeric_limits_max int32_t).
    { unfold numeric_limits_max; simpl bits. destruct Rad; lia. }
    assert (E : detail.left_shift Rad (Integral T) v (mk_weak_typedef s)
                = SFmul dprec demax (double_of_Z v)
                    (double_of_Z (radix_value Rad ^ (- s)))).
    { unfold detail.left_shift. rewrite negate_exact by exact Hm. simpl.
      rewrite std_pow_nonneg by lia. reflexivity. }
    split; [apply std_pow_exact; lia|]. split; [exact E|].
    rewrite shift_neg by lia. rewrite E. reflexivity.
  - intros Hs Hv. apply shift_right_quot; assumption.
  - intros Hs Hm HD Hp Hi. apply shift_left_exact; assumption.
  - intros Hs. split; [apply shift_true_right; exact Hs|].
    pose proof (radix_pow_ge Rad s ltac:(lia)).
    apply Z.quot_small. simpl int_of_bool. lia.
Qed.

Lemma shift_integer_arithmetic_below_2_52_witness :
  in_range int32_t (-123) /\ 0 < 1 /\ - 2 ^ 52 < -123 < 2 ^ 52 /\
  detail.shift BASE_10 (Integral int32_t) (-123) (mk_weak_typedef 1)
  = Some (Z.quot (-123) (10 ^ 1)).
Proof.
  assert (H1 : in_range int32_t (-123)) by (unfold in_range; vm_compute; split; discriminate).
  assert (H2 : 0 < 1) by reflexivity.
  assert (H3 : - 2 ^ 52 < -123 < 2 ^ 52) by (split; reflexivity).
  split; [exact H1|]. split; [exact H2|]. split; [exact H3|].
  exact (proj1 (proj2 (proj2 (shift_integer_arithmetic_below_2_52 BASE_10 int32_t (-123) 1 H1)))
           H2 H3).
Defined.

(** ** Pre-increment: C7 *)

Section Increment.

Context {Rep : int_type} {Rad : Radix}.

Lemma plus_same_scale (a b : fixed_point Rep Rad) :
  _t (_scale a) = _t (_scale b) ->
  operator_plus a b
  = Some (mk_fixed_point (int_add Rep (_value a) (_value b)) (_scale a)).
Proof.
  intros H. unfold operator_plus. rewrite aligned_same_scale by exact H.
  rewrite aligned_scale_max. rewrite <- H, Z.max_id, scale_eta. reflexivity.
Qed.

(** The fixed_point constructed from the [int] 1 at the scale [s]. *)
Lemma one_at_scale (s : Z) :
  (s = 0 ->
   fixed_point_of (Rep := Rep) (Rad := Rad) (Integral int32_t) 1 (mk_weak_typedef s)
   = Some (mk_fixed_point 1 (mk_weak_typedef s))) /\
  (0 < s ->
   fixed_point_of (Rep := Rep) (Rad := Rad) (Integral int32_t) 1 (mk_weak_typedef s)
   = Some (mk_fixed_point 0 (mk_weak_typedef s))) /\
  (s < 0 -> in_range int32_t (radix_value Rad ^ (- s)) ->
   fixed_point_of (Rep := Rep) (Rad := Rad) (Integral int32_t) 1 (mk_weak_typedef s)
   = Some (mk_fixed_point (radix_value Rad ^ (- s)) (mk_weak_typedef s))).
Proof.
  assert (H32 : forall z, in_range int32_t z -> wrap Rep z = z).
  { intros z Hz. apply wrap_in_range. apply in_range_int32_any. exact Hz. }
  assert (R1 : in_range int32_t 1) by (unfold in_range; vm_compute; split; discriminate).
  assert (R0 : in_range int32_t 0) by (unfold in_range; vm_compute; split; discriminate).
  unfold fixed_point_of. split; [|split].
  - intros ->. simpl. rewrite (H32 1 R1). reflexivity.
  - intros Hs.
    rewrite (shift_right_quot Rad int32_t 1 s R1 ltac:(lia) Hs).
    pose proof (radix_pow_ge Rad s Hs) as HD.
    rewrite Z.quot_small by lia. simpl. rewrite (H32 0 R0). reflexivity.
  - intros Hs Hr.
    pose proof (radix_pow_gt_lin Rad (- s) ltac:(lia)) as Hk.
    assert (Hm : radix_value Rad ^ (- s) <= numeric_limits_max int32_t) by (apply Hr).
    assert (Hb : numeric_limits_max int32_t < 2 ^ 53) by (vm_compute; reflexivity).
    pose proof (radix_pow_pos Rad (- s) ltac:(lia)) as HP.
    rewrite (shift_left_exact Rad int32_t 1 s); try lia.
    + rewrite Z.mul_1_l. simpl. rewrite (H32 _ Hr). reflexivity.
    + rewrite Z.mul_1_l. exact Hr.
Qed.

End Increment.

(** The pre-increment of 5 at scale -2 in radix 10 adds 100 to the
    representation value, not 1; at scale 2 it adds nothing. *)
Lemma increment_not_one_unit :
  operator_increment (Rep := int32_t) (Rad := BASE_10)
    (mk_fixed_point 5 (mk_weak_typedef (-2)))
  = Some (mk_fixed_point 105 (mk_weak_typedef (-2))) /\
  105 <> 5 + 1 /\
  operator_increment (Rep := int32_t) (Rad := BASE_10)
    (mk_fixed_point 5 (mk_weak_typedef 2))
  = Some (mk_fixed_point 5 (mk_weak_typedef 2)).
Proof. split; [vm_compute; reflexivity|]. split; [discriminate|vm_compute; reflexivity]. Qed.

(** C7, amended. The pre-increment leaves the scale unchanged and adds to
    the representation value the value of the number 1 constructed at that
    scale: 1 at scale 0, nothing at a positive scale (1 / Rad ^ scale
    truncates to 0), and [Rad ^ (- scale)] at a negative scale for which this
    power is representable in int32_t. *)
Theorem increment_adds_one_at_scale (Rep : int_type) (Rad : Radix)
    (x : fixed_point Rep Rad) :
  in_range Rep (_value x) ->
  (_t (_scale x) = 0 ->
   operator_increment x
   = Some (mk_fixed_point (int_add Rep (_value x) 1) (_scale x))) /\
  (0 < _t (_scale x) ->
   operator_increment x = Some (mk_fixed_point (_value x) (_scale x))) /\
  (_t (_scale x) < 0 ->
   in_range int32_t (radix_value Rad ^ (- _t (_scale x))) ->
   operator_increment x
   = Some (mk_fixed_point (int_add Rep (_value x) (radix_value Rad ^ (- _t (_scale x))))
             (_scale x))).
Proof.
  intros Hv. unfold operator_increment.
  destruct (one_at_scale (Rep := Rep) (Rad := Rad) (_t (_scale x))) as (H0 & H1 & H2).
  split; [|split].
  - intros Hs. rewrite (H0 Hs). simpl bind. rewrite plus_same_scale by reflexivity. reflexivity.
  - intros Hs. rewrite (H1 Hs). simpl bind. rewrite plus_same_scale by reflexivity.
    simpl _value. unfold int_add. rewrite Z.add_0_r, wrap_in_range by exact Hv. reflexivity.
  - intros Hs Hr. rewrite (H2 Hs Hr). simpl bind. rewrite plus_same_scale by reflexivity.
    reflexivity.
Qed.

Lemma increment_adds_one_at_scale_witness :
  in_range int32_t 5 /\ -2 < 0 /\ in_range int32_t (10 ^ (- -2)) /\
  operator_increment (Rep := int32_t) (Rad := BASE_10)
    (mk_fixed_point 5 (mk_weak_typedef (-2)))
  = Some (mk_fixed_point (int_add int32_t 5 (10 ^ (- -2))) (mk_weak_typedef (-2))).
Proof.
  assert (H1 : in_range int32_t 5) by (unfold in_range; vm_compute; split; discriminate).
  assert (H2 : -2 < 0) by reflexivity.
  assert (H3 : in_range int32_t (10 ^ (- -2))) by (unfold in_range; vm_compute; split; discriminate).
  split; [exact H1|]. split; [exact H2|]. split; [exact H3|].
  exact (proj2 (proj2 (increment_adds_one_at_scale int32_t BASE_10
                         (mk_fixed_point 5 (mk_weak_typedef (-2))) H1)) H2 H3).
Defined.

(** ** Construction and conversion: C5 *)

(** Constructed from the integer 1 at scale 1 in radix 10 the value is 0 and
    converts to the double 0, not to 1 * 10 ^ 1 = 10; constructed at scale -1
    the value is 10 and converts to the double 1, not to 1 * 10 ^ -1. *)
Lemma convert_double_not_scaled :
  (fixed_point_of (Rep := int32_t) (Rad := BASE_10) (Integral int32_t) 1 (mk_weak_typedef 1)
   = Some (mk_fixed_point 0 (mk_weak_typedef 1)) /\
   get (Rep := int32_t) (Rad := BASE_10) (mk_fixed_point 0 (mk_weak_typedef 1))
   = Some (S754_zero false) /\
   ~ within_one_ulp (S754_zero false) (double_of_Z (1 * 10 ^ 1))) /\
  (fixed_point_of (Rep := int32_t) (Rad := BASE_10) (Integral int32_t) 1 (mk_weak_typedef (-1))
   = Some (mk_fixed_point 10 (mk_weak_typedef (-1))) /\
   get (Rep := int32_t) (Rad := BASE_10) (mk_fixed_point 10 (mk_weak_typedef (-1)))
   = Some (double_of_Z 1) /\
   ~ within_one_ulp (double_of_Z 1) (double_of_ratio 1 (10 ^ 1))).
Proof.
  split; (split; [vm_compute; reflexivity|]); (split; [vm_compute; reflexivity|]);
    intros [H1 H2]; vm_compute in H1, H2; discriminate.
Qed.

Lemma radix_pow_le_1e9 Rad k : 0 <= k <= 9 -> 0 < radix_value Rad ^ k <= 10 ^ 9.
Proof.
  intros Hk. split; [apply radix_pow_pos; lia|].
  apply Z.le_trans with (10 ^ k).
  - apply Z.pow_le_mono_l. destruct Rad; simpl; lia.
  - apply Z.pow_le_mono_r; lia.
Qed.

Lemma quot_mul_abs_le v D : 0 < D -> Z.abs (Z.quot v D) * D <= Z.abs v.
Proof.
  intros HD. rewrite <- Z.quot_abs by lia. rewrite (Z.abs_eq D) by lia.
  rewrite Z.quot_div_nonneg by lia. rewrite Z.mul_comm. apply Z.mul_div_le. exact HD.
Qed.

(** C5, amended. A value constructed at scale 0 from a representable
    integer converts back to that integer.  A value constructed from an
    integer [v] of [Rep] of magnitude below [2 ^ 52] (every int32_t value) at
    a scale [s] in [[-9, 9]] converts to the double [v] itself when [s <= 0]
    (and [v * Rad ^ (- s)] is representable in [Rep] and below [2 ^ 53]),
    and to the double [(v / Rad ^ s) * Rad ^ s], [v] without its [s] low
    digits, when [0 < s]; both exactly. *)
Theorem construct_convert_roundtrip (Rep : int_type) (Rad : Radix) (v s : Z) :
  -9 <= s <= 9 ->
  (in_range Rep (v * radix_value Rad ^ Z.abs s) ->
   exists x : fixed_point Rep Rad,
     fixed_point_of (Integral Rep) (v * radix_value Rad ^ Z.abs s) (mk_weak_typedef 0) = Some x /\
     convert (Integral Rep) x = Some (v * radix_value Rad ^ Z.abs s)) /\
  (in_range Rep v -> - 2 ^ 52 < v < 2 ^ 52 -> s <= 0 ->
   in_range Rep (v * radix_value Rad ^ (- s)) ->
   Z.abs (v * radix_value Rad ^ (- s)) < 2 ^ 53 ->
   exists x : fixed_point Rep Rad,
     fixed_point_of (Integral Rep) v (mk_weak_typedef s) = Some x /\
     _value x = v * radix_value Rad ^ (- s) /\
     get x = Some (double_of_Z v)) /\
  (in_range Rep v -> - 2 ^ 52 < v < 2 ^ 52 -> 0 < s ->
   exists x : fixed_point Rep Rad,
     fixed_point_of (Integral Rep) v (mk_weak_typedef s) = Some x /\
     _value x = Z.quot v (radix_value Rad ^ s) /\
     get x = Some (double_of_Z (Z.quot v (radix_value Rad ^ s) * radix_value Rad ^ s))).
Proof.
  intros Hs.
  assert (N0 : detail.negate (mk_weak_typedef 0) = mk_weak_typedef 0) by reflexivity.
  assert (M32 : numeric_limits_max int32_t = 2 ^ 31 - 1) by reflexivity.
  split; [|split].
  - intros Hr. set (z := v * radix_value Rad ^ Z.abs s) in *.
    exists (mk_fixed_point z (mk_weak_typedef 0)). split.
    + unfold fixed_point_of. simpl. rewrite wrap_in_range by exact Hr. reflexivity.
    + unfold convert. simpl _scale. rewrite N0. simpl. rewrite wrap_in_range by exact Hr. reflexivity.
  - intros Hv Hv52 Hs0 Hr Hb.
    exists (mk_fixed_point (v * radix_value Rad ^ (- s)) (mk_weak_typedef s)).
    pose proof (radix_pow_le_1e9 Rad (- s) ltac:(lia)) as HP.
    assert (Hw : wrap Rep (v * radix_value Rad ^ (- s)) = v * radix_value Rad ^ (- s))
      by (apply wrap_in_range; exact Hr).
    destruct (Z.eq_dec s 0) as [->|Hn].
    + simpl (- 0) in *. rewrite Z.pow_0_r, Z.mul_1_r in *.
      split; [|split; [reflexivity|]].
      * unfold fixed_point_of. simpl. rewrite Hw. reflexivity.
      * unfold get, convert. simpl _scale. rewrite N0. reflexivity.
    + split; [|split; [reflexivity|]].
      * unfold fixed_point_of. rewrite shift_left_exact; try lia; try assumption.
        simpl. rewrite Hw. reflexivity.
      * unfold get, convert. simpl _scale. simpl _value. simpl static_cast_of_rep.
        rewrite negate_exact by lia. rewrite shift_double_pos by lia.
        rewrite std_pow_nonneg by lia. rewrite SFdiv_exact_Z; [reflexivity|lia|].
        rewrite Z.abs_mul in Hb. rewrite (Z.abs_eq (_ ^ _)) in Hb by lia. lia.
  - intros Hv Hv52 Hs0.
    exists (mk_fixed_point (Z.quot v (radix_value Rad ^ s)) (mk_weak_typedef s)).
    pose proof (radix_pow_le_1e9 Rad s ltac:(lia)) as HP.
    pose proof (radix_pow_ge Rad s Hs0) as HD.
    pose proof (quot_in_range Rep v (radix_value Rad ^ s) Hv ltac:(lia)) as Hq.
    assert (Hw : wrap Rep (Z.quot v (radix_value Rad ^ s)) = Z.quot v (radix_value Rad ^ s))
      by (apply wrap_in_range; exact Hq).
    split; [|split; [reflexivity|]].
    + unfold fixed_point_of. rewrite shift_right_quot; try lia; try assumption.
      simpl. rewrite Hw. reflexivity.
    + unfold get, convert. simpl _scale. simpl _value. simpl static_cast_of_rep.
      rewrite negate_exact by lia. rewrite shift_double_neg by lia.
      rewrite negate_exact by lia. simpl _t. rewrite Z.opp_involutive.
      rewrite std_pow_nonneg by lia. rewrite SFmul_Z; [reflexivity|lia|].
      pose proof (quot_mul_abs_le v (radix_value Rad ^ s) ltac:(lia)). lia.
Qed.

Lemma construct_convert_roundtrip_witness :
  -9 <= 2 <= 9 /\ in_range int32_t 12345 /\ - 2 ^ 52 < 12345 < 2 ^ 52 /\ 0 < 2 /\
  exists x : fixed_point int32_t BASE_10,
    fixed_point_of (Integral int32_t) 12345 (mk_weak_typedef 2) = Some x /\
    _value x = Z.quot 12345 (10 ^ 2) /\
    get x = Some (double_of_Z (Z.quot 12345 (10 ^ 2) * 10 ^ 2)).
Proof.
  assert (H1 : -9 <= 2 <= 9) by (split; discriminate).
  assert (H2 : in_range int32_t 12345) by (unfold in_range; vm_compute; split; discriminate).
  assert (H3 : - 2 ^ 52 < 12345 < 2 ^ 52) by (split; reflexivity).
  assert (H4 : 0 < 2) by reflexivity.
  split; [exact H1|]. split; [exact H2|]. split; [exact H3|]. split; [exact H4|].
  exact (proj2 (proj2 (construct_convert_roundtrip int32_t BASE_10 12345 2 H1)) H2 H3 H4).
Defined.

(** * Further properties of the header *)

(** ** Modular arithmetic of [wrap] *)

Lemma pow2_bits_pos T : 0 < 2 ^ bits T.
Proof. destruct T; simpl bits; lia. Qed.

Lemma pow2_bits_double T : 2 ^ bits T = 2 * 2 ^ (bits T - 1).
Proof. destruct T; simpl bits; lia. Qed.

Lemma wrap_add_multiple T x k : wrap T (x + k * 2 ^ bits T) = wrap T x.
Proof.
  unfold wrap. pose proof (pow2_bits_pos T).
  replace (x + k * 2 ^ bits T + 2 ^ (bits T - 1))
    with (x + 2 ^ (bits T - 1) + k * 2 ^ bits T) by ring.
  rewrite Z.mod_add by lia. reflexivity.
Qed.

Lemma wrap_decompose T x : exists k, wrap T x = x + k * 2 ^ bits T.
Proof.
  unfold wrap. pose proof (pow2_bits_pos T).
  exists (- ((x + 2 ^ (bits T - 1)) / 2 ^ bits T)).
  pose proof (Z_div_mod_eq_full (x + 2 ^ (bits T - 1)) (2 ^ bits T)). lia.
Qed.

Lemma wrap_is_in_range T x : in_range T (wrap T x).
Proof.
  unfold wrap, in_range, numeric_limits_min, numeric_limits_max.
  pose proof (pow2_bits_pos T). pose proof (pow2_bits_double T).
  pose proof (Z.mod_pos_bound (x + 2 ^ (bits T - 1)) (2 ^ bits T) ltac:(lia)). lia.
Qed.

Lemma wrap_mul_wrap_l T x y : wrap T (wrap T x * y) = wrap T (x * y).
Proof.
  destruct (wrap_decompose T x) as [k ->].
  replace ((x + k * 2 ^ bits T) * y) with (x * y + (k * y) * 2 ^ bits T) by ring.
  apply wrap_add_multiple.
Qed.

Lemma wrap_mul_wrap_r T x y : wrap T (x * wrap T y) = wrap T (x * y).
Proof. rewrite Z.mul_comm, wrap_mul_wrap_l, Z.mul_comm. reflexivity. Qed.

Lemma wrap_add_wrap_l T x y : wrap T (wrap T x + y) = wrap T (x + y).
Proof.
  destruct (wrap_decompose T x) as [k ->].
  replace (x + k * 2 ^ bits T + y) with (x + y + k * 2 ^ bits T) by ring.
  apply wrap_add_multiple.
Qed.

Lemma wrap_add_wrap_r T x y : wrap T (x + wrap T y) = wrap T (x + y).
Proof. rewrite Z.add_comm, wrap_add_wrap_l, Z.add_comm. reflexivity. Qed.

Lemma wrap_sub_wrap_l T x y : wrap T (wrap T x - y) = wrap T (x - y).
Proof.
  destruct (wrap_decompose T x) as [k ->].
  replace (x + k * 2 ^ bits T - y) with (x - y + k * 2 ^ bits T) by ring.
  apply wrap_add_multiple.
Qed.

Lemma fixed_point_eta Rep Rad (x : fixed_point Rep Rad) :
  mk_fixed_point (_value x) (_scale x) = x.
Proof. destruct x; reflexivity. Qed.

(** ** Algebra of the operators *)

(** X1. Multiplication is associative, with or without overflow: the
    wrapped products and the wrapped sums of the scales agree. *)
Theorem multiplies_associative (Rep : int_type) (Rad : Radix)
    (a b c : fixed_point Rep Rad) :
  operator_multiplies (operator_multiplies a b) c
  = operator_multiplies a (operator_multiplies b c).
Proof.
  unfold operator_multiplies, fixed_point_of_scaled, int_mul, int_add. simpl.
  rewrite wrap_mul_wrap_l, wrap_mul_wrap_r, wrap_add_wrap_l, wrap_add_wrap_r.
  rewrite Z.mul_assoc, Z.add_assoc. reflexivity.
Qed.

(** X2. Addition of operands of one scale is associative, with or without
    overflow; across scales it is not: (0.5 + 0.5) + 0 is 1 at scale 0 and
    0.5 + (0.5 + 0) is 0 at scale 0 in radix 10. *)
Theorem plus_associative_at_one_scale :
  (forall (Rep : int_type) (Rad : Radix) (a b c : fixed_point Rep Rad),
     _t (_scale a) = _t (_scale b) -> _t (_scale b) = _t (_scale c) ->
     (ab <- operator_plus a b ;; operator_plus ab c)
     = (bc <- operator_plus b c ;; operator_plus a bc)) /\
  (exists a b c : fixed_point int32_t BASE_10,
     (ab <- operator_plus a b ;; operator_plus ab c)
     = Some (mk_fixed_point 1 (mk_weak_typedef 0)) /\
     (bc <- operator_plus b c ;; operator_plus a bc)
     = Some (mk_fixed_point 0 (mk_weak_typedef 0))).
Proof.
  split.
  - intros Rep Rad a b c Hab Hbc.
    rewrite (plus_same_scale a b Hab), (plus_same_scale b c Hbc). simpl bind.
    rewrite !plus_same_scale by (simpl; congruence). simpl _value.
    unfold int_add. rewrite wrap_add_wrap_l, wrap_add_wrap_r, Z.add_assoc. reflexivity.
  - exists (mk_fixed_point 5 (mk_weak_typedef (-1))),
           (mk_fixed_point 5 (mk_weak_typedef (-1))),
           (mk_fixed_point 0 (mk_weak_typedef 0)).
    split; vm_compute; reflexivity.
Qed.

Lemma plus_associative_at_one_scale_witness :
  -2 = -2 /\ -2 = -2 /\
  (ab <- operator_plus (Rep := int32_t) (Rad := BASE_10)
           (mk_fixed_point 2147483647 (mk_weak_typedef (-2)))
           (mk_fixed_point 1 (mk_weak_typedef (-2))) ;;
   operator_plus ab (mk_fixed_point (-1) (mk_weak_typedef (-2))))
  = (bc <- operator_plus (Rep := int32_t) (Rad := BASE_10)
             (mk_fixed_point 1 (mk_weak_typedef (-2)))
             (mk_fixed_point (-1) (mk_weak_typedef (-2))) ;;
     operator_plus (mk_fixed_point 2147483647 (mk_weak_typedef (-2))) bc).
Proof.
  split; [reflexivity|]. split; [reflexivity|].
  exact (proj1 plus_associative_at_one_scale int32_t BASE_10
           (mk_fixed_point 2147483647 (mk_weak_typedef (-2)))
           (mk_fixed_point 1 (mk_weak_typedef (-2)))
           (mk_fixed_point (-1) (mk_weak_typedef (-2))) eq_refl eq_refl).
Defined.

(** X3. Neutral elements: 0 at the scale of [x] is neutral for [+] and [-],
    [x - x] is 0 at the scale of [x], and 1 at scale 0 is neutral for [*]
    and [/], for a value representable in [Rep] and a scale representable
    in int32_t. *)
Theorem neutral_elements (Rep : int_type) (Rad : Radix) (x : fixed_point Rep Rad) :
  in_range Rep (_value x) -> in_range int32_t (_t (_scale x)) ->
  operator_plus x (mk_fixed_point 0 (_scale x)) = Some x /\
  operator_minus x (mk_fixed_point 0 (_scale x)) = Some x /\
  operator_minus x x = Some (mk_fixed_point 0 (_scale x)) /\
  operator_multiplies x (mk_fixed_point 1 (mk_weak_typedef 0)) = x /\
  operator_divides x (mk_fixed_point 1 (mk_weak_typedef 0)) = Some x.
Proof.
  intros Hv Hs.
  assert (Hm : forall y : fixed_point Rep Rad, _t (_scale x) = _t (_scale y) ->
            operator_minus x y
            = Some (mk_fixed_point (int_sub Rep (_value x) (_value y)) (_scale x))).
  { intros y H. unfold operator_minus. rewrite aligned_same_scale by exact H.
    rewrite aligned_scale_max. rewrite <- H, Z.max_id, scale_eta. reflexivity. }
  assert (W0 : wrap Rep 0 = 0).
  { apply wrap_in_range. unfold in_range, numeric_limits_min, numeric_limits_max.
    destruct Rep; simpl bits; lia. }
  split; [|split; [|split; [|split]]].
  - rewrite plus_same_scale by reflexivity. simpl _value. unfold int_add.
    rewrite Z.add_0_r, wrap_in_range by exact Hv. rewrite fixed_point_eta. reflexivity.
  - rewrite Hm by reflexivity. simpl _value. unfold int_sub.
    rewrite Z.sub_0_r, wrap_in_range by exact Hv. rewrite fixed_point_eta. reflexivity.
  - rewrite Hm by reflexivity. unfold int_sub. rewrite Z.sub_diag, W0. reflexivity.
  - unfold operator_multiplies, fixed_point_of_scaled, int_mul, int_add. simpl.
    rewrite Z.mul_1_r, Z.add_0_r, !wrap_in_range by assumption.
    rewrite scale_eta, fixed_point_eta. reflexivity.
  - rewrite divides_defined;
      [|simpl; discriminate|simpl; intros [_ E]; discriminate E].
    unfold int_quot, int_sub. simpl.
    rewrite Z.quot_1_r, Z.sub_0_r, !wrap_in_range by assumption.
    rewrite scale_eta, fixed_point_eta. reflexivity.
Qed.

Lemma neutral_elements_witness :
  in_range int32_t 123 /\ in_range int32_t (-2) /\
  operator_plus (Rep := int32_t) (Rad := BASE_10)
    (mk_fixed_point 123 (mk_weak_typedef (-2))) (mk_fixed_point 0 (mk_weak_typedef (-2)))
  = Some (mk_fixed_point 123 (mk_weak_typedef (-2))).
Proof.
  assert (H1 : in_range int32_t 123) by (unfold in_range; vm_compute; split; discriminate).
  assert (H2 : in_range int32_t (-2)) by (unfold in_range; vm_compute; split; discriminate).
  split; [exact H1|]. split; [exact H2|].
  exact (proj1 (neutral_elements int32_t BASE_10
                  (mk_fixed_point 123 (mk_weak_typedef (-2))) H1 H2)).
Defined.

(** X4. Subtraction undoes addition at one scale even when the sum
    overflows, and division undoes a multiplication that does not overflow. *)
Theorem minus_undoes_plus_divides_undoes_multiplies (Rep : int_type) (Rad : Radix)
    (a b : fixed_point Rep Rad) :
  in_range Rep (_value a) ->
  (_t (_scale a) = _t (_scale b) ->
   (ab <- operator_plus a b ;; operator_minus ab b) = Some a) /\
  (_value b <> 0 -> in_range Rep (_value a * _value b) ->
   in_range int32_t (_t (_scale a)) ->
   operator_divides (operator_multiplies a b) b = Some a).
Proof.
  intros Hv. split.
  - intros Hs. rewrite (plus_same_scale a b Hs). simpl bind.
    unfold operator_minus. rewrite aligned_same_scale by (simpl; exact Hs).
    rewrite aligned_scale_max. simpl _scale. simpl _value. simpl fst. simpl snd.
    rewrite <- Hs, Z.max_id, scale_eta.
    unfold fixed_point_of_scaled, int_sub, int_add. simpl.
    rewrite wrap_sub_wrap_l. replace (_value a + _value b - _value b) with (_value a) by ring.
    rewrite wrap_in_range by exact Hv. rewrite fixed_point_eta. reflexivity.
  - intros Hb Hp Hs.
    assert (Hn : ~ (_value (operator_multiplies a b) = numeric_limits_min Rep
                    /\ _value b = -1)).
    { unfold operator_multiplies, fixed_point_of_scaled, int_mul. simpl _value.
      rewrite wrap_in_range by exact Hp. intros [E1 E2]. rewrite E2 in E1.
      unfold in_range, numeric_limits_min, numeric_limits_max in *. lia. }
    rewrite divides_defined by assumption.
    unfold operator_multiplies, fixed_point_of_scaled.
    simpl _value. simpl _scale. simpl _t.
    unfold int_quot, int_mul, int_sub, int_add. simpl.
    rewrite (wrap_in_range Rep (_value a * _value b)) by exact Hp.
    rewrite Z.quot_mul by exact Hb. rewrite wrap_sub_wrap_l.
    replace (_t (_scale a) + _t (_scale b) - _t (_scale b)) with (_t (_scale a)) by ring.
    rewrite !wrap_in_range by assumption.
    rewrite scale_eta, fixed_point_eta. reflexivity.
Qed.

Lemma minus_undoes_plus_divides_undoes_multiplies_witness :
  in_range int32_t 2147483647 /\ -2 = -2 /\
  (ab <- operator_plus (Rep := int32_t) (Rad := BASE_10)
           (mk_fixed_point 2147483647 (mk_weak_typedef (-2)))
           (mk_fixed_point 5 (mk_weak_typedef (-2))) ;;
   operator_minus ab (mk_fixed_point 5 (mk_weak_typedef (-2))))
  = Some (mk_fixed_point 2147483647 (mk_weak_typedef (-2))).
Proof.
  assert (H1 : in_range int32_t 2147483647) by (unfold in_range; vm_compute; split; discriminate).
  split; [exact H1|]. split; [reflexivity|].
  exact (proj1 (minus_undoes_plus_divides_undoes_multiplies int32_t BASE_10
                  (mk_fixed_point 2147483647 (mk_weak_typedef (-2)))
                  (mk_fixed_point 5 (mk_weak_typedef (-2))) H1) eq_refl).
Defined.

(** ** Overflow predicates and the results of the operators *)

Lemma addition_overflow_exact Rep l r :
  in_range Rep l -> in_range Rep r ->
  (addition_overflow Rep l r = true <-> ~ in_range Rep (l + r)).
Proof.
  intros Hl Hr. unfold addition_overflow, int_sub. pose proof (half_range_pos Rep) as HM.
  rewrite in_range_iff in *. unfold numeric_limits_min, numeric_limits_max.
  set (M := 2 ^ (bits Rep - 1)) in *.
  destruct (r >? 0) eqn:E; rewrite Z.gtb_ltb in E;
    [apply Z.ltb_lt in E | apply Z.ltb_ge in E];
    rewrite wrap_in_range by (rewrite in_range_iff; fold M; lia);
    rewrite ?Z.gtb_ltb, Z.ltb_lt; lia.
Qed.

Lemma subtraction_overflow_exact Rep l r :
  in_range Rep l -> in_range Rep r ->
  (subtraction_overflow Rep l r = true <-> ~ in_range Rep (l - r)).
Proof.
  intros Hl Hr. unfold subtraction_overflow, int_add. pose proof (half_range_pos Rep) as HM.
  rewrite in_range_iff in *. unfold numeric_limits_min, numeric_limits_max.
  set (M := 2 ^ (bits Rep - 1)) in *.
  destruct (r >? 0) eqn:E; rewrite Z.gtb_ltb in E;
    [apply Z.ltb_lt in E | apply Z.ltb_ge in E];
    rewrite wrap_in_range by (rewrite in_range_iff; fold M; lia);
    rewrite ?Z.gtb_ltb, Z.ltb_lt; lia.
Qed.

Lemma in_range_dec T z : {in_range T z} + {~ in_range T z}.
Proof.
  unfold in_range.
  destruct (Z_le_dec (numeric_limits_min T) z); destruct (Z_le_dec z (numeric_limits_max T));
    [left | right | right | right]; lia.
Qed.

Lemma overflow_false_in_range (b : bool) (P : Prop) :
  (b = true <-> ~ P) -> {P} + {~ P} -> b = false -> P.
Proof.
  intros H [Hp|Hn] Hb; [exact Hp|]. apply H in Hn. congruence.
Qed.

(** X5. The overflow predicates do not depend on the order of the
    operands for addition and multiplication, although the code only
    inspects the sign of the right one; a subtraction overflows exactly when
    the addition of the negated right operand does. *)
Theorem overflow_predicates_symmetric (Rep : int_type) (l r : Z) :
  in_range Rep l -> in_range Rep r ->
  addition_overflow Rep l r = addition_overflow Rep r l /\
  multiplication_overflow Rep l r = multiplication_overflow Rep r l /\
  (r <> numeric_limits_min Rep ->
   subtraction_overflow Rep l r = addition_overflow Rep l (- r)).
Proof.
  intros Hl Hr. split; [|split].
  - apply Bool.eq_true_iff_eq.
    rewrite (addition_overflow_exact Rep l r Hl Hr), (addition_overflow_exact Rep r l Hr Hl).
    rewrite Z.add_comm. reflexivity.
  - apply Bool.eq_true_iff_eq.
    rewrite (multiplication_overflow_exact Rep l r Hl Hr),
            (multiplication_overflow_exact Rep r l Hr Hl).
    rewrite Z.mul_comm. reflexivity.
  - intros Hm.
    assert (Hr' : in_range Rep (- r)).
    { unfold in_range, numeric_limits_min, numeric_limits_max in *. lia. }
    apply Bool.eq_true_iff_eq.
    rewrite (subtraction_overflow_exact Rep l r Hl Hr),
            (addition_overflow_exact Rep l (- r) Hl Hr').
    replace (l + - r) with (l - r) by ring. reflexivity.
Qed.

Lemma overflow_predicates_symmetric_witness :
  in_range int32_t 2147483647 /\ in_range int32_t (-3) /\
  multiplication_overflow int32_t 2147483647 (-3)
  = multiplication_overflow int32_t (-3) 2147483647.
Proof.
  assert (H1 : in_range int32_t 2147483647) by (unfold in_range; vm_compute; split; discriminate).
  assert (H2 : in_range int32_t (-3)) by (unfold in_range; vm_compute; split; discriminate).
  split; [exact H1|]. split; [exact H2|].
  exact (proj1 (proj2 (overflow_predicates_symmetric int32_t 2147483647 (-3) H1 H2))).
Defined.

Lemma aligned_defined (Rep : int_type) (Rad : Radix) (a b : fixed_point Rep Rad) :
  in_range Rep (_value a) -> in_range Rep (_value b) ->
  Z.abs (_t (_scale a) - _t (_scale b)) <= numeric_limits_max int32_t ->
  exists l r, aligned a b = Some (l, r) /\ in_range Rep l /\ in_range Rep r.
Proof.
  intros Ha Hb Hd.
  destruct (Z.lt_trichotomy (_t (_scale a)) (_t (_scale b))) as [H|[H|H]].
  - destruct (shift_right_defined Rad Rep (_value a) (_t (_scale b) - _t (_scale a)) Ha
                ltac:(lia)) as (q & Hq & Hr & _).
    exists q, (_value b). rewrite aligned_lower_lhs by lia. rewrite Hq. auto.
  - exists (_value a), (_value b). rewrite aligned_same_scale by exact H. auto.
  - destruct (shift_right_defined Rad Rep (_value b) (_t (_scale a) - _t (_scale b)) Hb
                ltac:(lia)) as (q & Hq & Hr & _).
    exists (_value a), q. rewrite aligned_lower_rhs by lia. rewrite Hq. auto.
Qed.

(** X6. When the predicate a debug build asserts is false, the result the
    operator installs is the exact one: the sum or difference of the aligned
    values, the product and the truncated quotient of the values, not a
    wrapped one. *)
Theorem no_overflow_result_exact (Rep : int_type) (Rad : Radix)
    (a b : fixed_point Rep Rad) :
  in_range Rep (_value a) -> in_range Rep (_value b) ->
  Z.abs (_t (_scale a) - _t (_scale b)) <= numeric_limits_max int32_t ->
  (exists l r,
     aligned a b = Some (l, r) /\
     (addition_overflow Rep l r = false ->
      operator_plus a b
      = Some (mk_fixed_point (l + r)
                (mk_weak_typedef (Z.max (_t (_scale a)) (_t (_scale b)))))) /\
     (subtraction_overflow Rep l r = false ->
      operator_minus a b
      = Some (mk_fixed_point (l - r)
                (mk_weak_typedef (Z.max (_t (_scale a)) (_t (_scale b))))))) /\
  (multiplication_overflow Rep (_value a) (_value b) = false ->
   _value (operator_multiplies a b) = _value a * _value b) /\
  (_value b <> 0 -> division_overflow Rep (_value a) (_value b) = false ->
   exists q, operator_divides a b = Some q /\ _value q = Z.quot (_value a) (_value b)).
Proof.
  intros Ha Hb Hd. split; [|split].
  - destruct (aligned_defined Rep Rad a b Ha Hb Hd) as (l & r & Hal & Hl & Hr).
    exists l, r. split; [exact Hal|]. split.
    + intros Ho. unfold operator_plus. rewrite Hal, aligned_scale_max. simpl.
      unfold fixed_point_of_scaled, int_add. simpl.
      rewrite wrap_in_range; [reflexivity|].
      exact (overflow_false_in_range _ _ (addition_overflow_exact Rep l r Hl Hr)
               (in_range_dec Rep (l + r)) Ho).
    + intros Ho. unfold operator_minus. rewrite Hal, aligned_scale_max. simpl.
      unfold fixed_point_of_scaled, int_sub. simpl.
      rewrite wrap_in_range; [reflexivity|].
      exact (overflow_false_in_range _ _ (subtraction_overflow_exact Rep l r Hl Hr)
               (in_range_dec Rep (l - r)) Ho).
  - intros Ho. unfold operator_multiplies, fixed_point_of_scaled, int_mul. simpl.
    apply wrap_in_range.
    exact (overflow_false_in_range _ _
             (multiplication_overflow_exact Rep (_value a) (_value b) Ha Hb)
             (in_range_dec Rep (_value a * _value b)) Ho).
  - intros Hz Ho.
    assert (Hn : ~ (_value a = numeric_limits_min Rep /\ _value b = -1)).
    { intros [E1 E2]. unfold division_overflow in Ho.
      rewrite E1, E2, !Z.eqb_refl in Ho. discriminate Ho. }
    rewrite divides_defined by assumption.
    eexists. split; [reflexivity|]. unfold int_quot. simpl.
    apply wrap_in_range.
    exact (overflow_false_in_range _ _
             (division_overflow_exact Rep (_value a) (_value b) Ha Hb Hz)
             (in_range_dec Rep (Z.quot (_value a) (_value b))) Ho).
Qed.

Lemma no_overflow_result_exact_witness :
  in_range int32_t 46341 /\ in_range int32_t 46340 /\
  Z.abs (-1 - -1) <= numeric_limits_max int32_t /\
  multiplication_overflow int32_t 46341 46340 = false /\
  _value (operator_multiplies (Rep := int32_t) (Rad := BASE_10)
            (mk_fixed_point 46341 (mk_weak_typedef (-1)))
            (mk_fixed_point 46340 (mk_weak_typedef (-1))))
  = 46341 * 46340.
Proof.
  assert (H1 : in_range int32_t 46341) by (unfold in_range; vm_compute; split; discriminate).
  assert (H2 : in_range int32_t 46340) by (unfold in_range; vm_compute; split; discriminate).
  assert (H3 : Z.abs (-1 - -1) <= numeric_limits_max int32_t) by (vm_compute; discriminate).
  assert (H4 : multiplication_overflow int32_t 46341 46340 = false) by (vm_compute; reflexivity).
  split; [exact H1|]. split; [exact H2|]. split; [exact H3|]. split; [exact H4|].
  exact (proj1 (proj2 (no_overflow_result_exact int32_t BASE_10
                         (mk_fixed_point 46341 (mk_weak_typedef (-1)))
                         (mk_fixed_point 46340 (mk_weak_typedef (-1))) H1 H2 H3)) H4).
Defined.

(** ** Scales beyond the range of double *)

Lemma double_of_Z_overflow D : 2 ^ 1024 <= D -> double_of_Z D = S754_infinity false.
Proof.
  intros HD. assert (Hp : 0 < 2 ^ 1024) by (apply pow2_pos; lia).
  destruct D as [|p|p]; try lia. rewrite double_of_Z_pos.
  assert (Hlg : 2 ^ 53 <= Zpos p).
  { apply Z.le_trans with (2 ^ 1024); [apply pow2_le_mono; lia | exact HD]. }
  destruct (binary_round_large false p Hlg) as (m' & mz & e2 & _ & _ & _ & He2 & _ & ->).
  pose proof (Zdigits2_ge (Zpos p) 1024 ltac:(lia) HD) as Hd.
  destruct (e2 <=? 971) eqn:E; [apply Z.leb_le in E; lia | reflexivity].
Qed.

Lemma double_of_Z_not_nan v :
  double_of_Z v = S754_zero false \/
  (exists s m e, double_of_Z v = S754_finite s m e) \/
  (exists s, double_of_Z v = S754_infinity s).
Proof.
  assert (H : forall s p,
            (exists m e, binary_round dprec demax s p 0 = S754_finite s m e) \/
            binary_round dprec demax s p 0 = S754_infinity s).
  { intros s p. destruct (Z.lt_ge_cases (Zpos p) (2 ^ 53)) as [Hsm|Hlg].
    - destruct (binary_round_small s p Hsm) as (mx & _ & ->). left. eauto.
    - destruct (binary_round_large s p Hlg) as (m' & mz & e2 & _ & _ & _ & _ & _ & ->).
      destruct (e2 <=? 971); [left; eauto | right; reflexivity]. }
  destruct v as [|p|p].
  - left. reflexivity.
  - rewrite double_of_Z_pos. destruct (H false p) as [(m & e & ->)| ->]; right; eauto.
  - rewrite double_of_Z_neg. destruct (H true p) as [(m & e & ->)| ->]; right; eauto.
Qed.

Lemma double_of_Z_finite_int64 v : - 2 ^ 63 <= v <= 2 ^ 63 ->
  double_of_Z v = S754_zero false \/ exists s m e, double_of_Z v = S754_finite s m e.
Proof.
  intros Hv.
  assert (H : forall s p, Zpos p <= 2 ^ 63 ->
            exists m e, binary_round dprec demax s p 0 = S754_finite s m e).
  { intros s p Hp. destruct (Z.lt_ge_cases (Zpos p) (2 ^ 52)) as [Hsm|Hlg].
    - destruct (binary_round_small s p ltac:(lia)) as (mx & _ & ->). eauto.
    - destruct (binary_round_int64_form s p ltac:(lia)) as (mx & ex & -> & _). eauto. }
  destruct v as [|p|p].
  - left. reflexivity.
  - right. rewrite double_of_Z_pos. destruct (H false p ltac:(lia)) as (m & e & ->). eauto.
  - right. rewrite double_of_Z_neg. destruct (H true p ltac:(lia)) as (m & e & ->). eauto.
Qed.

(** The least exponent at which the power of the radix exceeds every
    finite double. *)
Lemma radix_pow_overflows Rad k :
  match Rad with BASE_2 => 1024 | BASE_10 => 309 end <= k ->
  2 ^ 1024 <= radix_value Rad ^ k.
Proof.
  intros Hk. destruct Rad; simpl radix_value.
  - apply pow2_le_mono. lia.
  - apply Z.le_trans with (10 ^ 309).
    + apply Z.leb_le. vm_compute. reflexivity.
    + apply Z.pow_le_mono_r; lia.
Qed.

(** X7. Beyond the range of double the shifts degenerate: from the scale
    1024 (radix 2) or 309 (radix 10) on, the right shift of every integer is
    0; at the opposite scales the left shift has no result for any integer,
    not even for 0, because the power of the radix is an infinity. *)
Theorem shift_at_extreme_scales (Rad : Radix) (T : int_type) (v s : Z) :
  (match Rad with BASE_2 => 1024 | BASE_10 => 309 end <= s -> in_range T v ->
   detail.shift Rad (Integral T) v (mk_weak_typedef s) = Some 0) /\
  (s <= - match Rad with BASE_2 => 1024 | BASE_10 => 309 end ->
   - s <= numeric_limits_max int32_t ->
   detail.shift Rad (Integral T) v (mk_weak_typedef s) = None).
Proof.
  split.
  - intros Hs Hv.
    assert (Hs0 : 0 < s) by (destruct Rad; lia).
    rewrite shift_pos by exact Hs0. unfold detail.right_shift. simpl to_double. simpl _t.
    rewrite std_pow_nonneg by lia.
    rewrite (double_of_Z_overflow _ (radix_pow_overflows Rad s Hs)).
    assert (Hv64 : - 2 ^ 63 <= v <= 2 ^ 63).
    { unfold in_range, numeric_limits_min, numeric_limits_max in Hv.
      destruct T; simpl bits in Hv; lia. }
    assert (H0 : in_rangeb T 0 = true) by (destruct T; reflexivity).
    destruct (double_of_Z_finite_int64 v Hv64) as [->|(sx & m & e & ->)];
      unfold static_cast_int; simpl; rewrite H0; reflexivity.
  - intros Hs Hm.
    assert (Hs0 : s < 0) by (destruct Rad; lia).
    rewrite shift_neg by exact Hs0. unfold detail.left_shift.
    rewrite negate_exact by lia. simpl to_double. simpl _t.
    rewrite std_pow_nonneg by lia.
    rewrite (double_of_Z_overflow _ (radix_pow_overflows Rad (- s) ltac:(lia))).
    destruct (double_of_Z_not_nan v) as [->|[(sx & m & e & ->)|(sx & ->)]]; reflexivity.
Qed.

Lemma shift_at_extreme_scales_witness :
  309 <= 309 /\ in_range int64_t (2 ^ 63 - 1) /\
  detail.shift BASE_10 (Integral int64_t) (2 ^ 63 - 1) (mk_weak_typedef 309) = Some 0.
Proof.
  assert (H1 : 309 <= 309) by discriminate.
  assert (H2 : in_range int64_t (2 ^ 63 - 1)) by (unfold in_range; vm_compute; split; discriminate).
  split; [exact H1|]. split; [exact H2|].
  exact (proj1 (shift_at_extreme_scales BASE_10 int64_t (2 ^ 63 - 1) 309) H1 H2).
Defined.

(** ** Conversion to an integer *)

Lemma mul_quot_in_range T v D : in_range T v -> 0 < D -> in_range T (Z.quot v D * D).
Proof.
  intros Hv HD. unfold in_range in *.
  destruct (Z.le_gt_cases 0 v) as [H|H].
  - pose proof (Z.mul_quot_le v D H ltac:(lia)).
    assert (numeric_limits_min T <= 0) by (unfold numeric_limits_min; destruct T; simpl bits; lia).
    lia.
  - pose proof (Z.mul_quot_ge v D ltac:(lia) ltac:(lia)).
    assert (0 <= numeric_limits_max T) by (unfold numeric_limits_max; destruct T; simpl bits; lia).
    lia.
Qed.

Lemma mul_quot_abs_le v D : 0 < D -> Z.abs (Z.quot v D * D) <= Z.abs v.
Proof.
  intros HD. destruct (Z.le_gt_cases 0 v) as [H|H].
  - pose proof (Z.mul_quot_le v D H ltac:(lia)). lia.
  - pose proof (Z.mul_quot_ge v D ltac:(lia) ltac:(lia)). lia.
Qed.

(** X8. The conversion to [Rep] truncates the number toward zero: at a
    negative scale it is the quotient of the value by the power of the
    radix, at a positive scale the exact product when that is representable. *)
Theorem convert_integral_truncates (Rep : int_type) (Rad : Radix)
    (x : fixed_point Rep Rad) :
  in_range Rep (_value x) -> - 2 ^ 52 < _value x < 2 ^ 52 ->
  Z.abs (_t (_scale x)) <= numeric_limits_max int32_t ->
  (_t (_scale x) <= 0 ->
   convert (Integral Rep) x
   = Some (Z.quot (_value x) (radix_value Rad ^ (- _t (_scale x))))) /\
  (0 < _t (_scale x) ->
   radix_value Rad ^ _t (_scale x) < 2 ^ 53 ->
   Z.abs (_value x * radix_value Rad ^ _t (_scale x)) < 2 ^ 53 ->
   in_range Rep (_value x * radix_value Rad ^ _t (_scale x)) ->
   convert (Integral Rep) x = Some (_value x * radix_value Rad ^ _t (_scale x))).
Proof.
  intros Hv Hb Hs. unfold convert. simpl static_cast_of_rep.
  rewrite (wrap_in_range Rep _ Hv). rewrite <- (scale_eta (_scale x)).
  rewrite negate_exact by exact Hs. simpl _t. split.
  - intros Hs0. destruct (Z.eq_dec (_t (_scale x)) 0) as [E|E].
    + rewrite E. simpl. rewrite Z.quot_1_r. reflexivity.
    + apply shift_right_quot; [exact Hv | exact Hb | lia].
  - intros Hs0 HP Hp Hr.
    rewrite (shift_left_exact Rad Rep (_value x) (- _t (_scale x)));
      rewrite ?Z.opp_involutive; try assumption; try lia. reflexivity.
Qed.

Lemma convert_integral_truncates_witness :
  in_range int32_t (-129) /\ - 2 ^ 52 < -129 < 2 ^ 52 /\
  Z.abs (-1) <= numeric_limits_max int32_t /\ -1 <= 0 /\
  convert (Rep := int32_t) (Rad := BASE_10) (Integral int32_t)
    (mk_fixed_point (-129) (mk_weak_typedef (-1)))
  = Some (Z.quot (-129) (10 ^ (- -1))).
Proof.
  assert (H1 : in_range int32_t (-129)) by (unfold in_range; vm_compute; split; discriminate).
  assert (H2 : - 2 ^ 52 < -129 < 2 ^ 52) by (split; reflexivity).
  assert (H3 : Z.abs (-1) <= numeric_limits_max int32_t) by (vm_compute; discriminate).
  assert (H4 : -1 <= 0) by discriminate.
  split; [exact H1|]. split; [exact H2|]. split; [exact H3|]. split; [exact H4|].
  exact (proj1 (convert_integral_truncates int32_t BASE_10
                  (mk_fixed_point (-129) (mk_weak_typedef (-1))) H1 H2 H3) H4).
Defined.

(** X9. Round trip through an integer: constructing from an integer [v] and
    converting back to [Rep] gives [v] at a scale [s <= 0], and [v] without
    its [s] low digits, [v - v rem Rad ^ s], at a scale [0 < s]. *)
Theorem construct_convert_integer_roundtrip (Rep : int_type) (Rad : Radix) (v s : Z) :
  in_range Rep v -> - 2 ^ 52 < v < 2 ^ 52 ->
  Z.abs s <= numeric_limits_max int32_t ->
  (s <= 0 -> radix_value Rad ^ (- s) < 2 ^ 53 ->
   - 2 ^ 52 < v * radix_value Rad ^ (- s) < 2 ^ 52 ->
   in_range Rep (v * radix_value Rad ^ (- s)) ->
   exists x : fixed_point Rep Rad,
     fixed_point_of (Integral Rep) v (mk_weak_typedef s) = Some x /\
     convert (Integral Rep) x = Some v) /\
  (0 < s -> radix_value Rad ^ s < 2 ^ 53 ->
   exists x : fixed_point Rep Rad,
     fixed_point_of (Integral Rep) v (mk_weak_typedef s) = Some x /\
     convert (Integral Rep) x = Some (v - Z.rem v (radix_value Rad ^ s))).
Proof.
  intros Hv Hb Hs. split.
  - intros Hs0 HP Hpb Hr.
    pose proof (radix_pow_pos Rad (- s) ltac:(lia)) as Hpos.
    exists (mk_fixed_point (v * radix_value Rad ^ (- s)) (mk_weak_typedef s)). split.
    + unfold fixed_point_of. destruct (Z.eq_dec s 0) as [->|E].
      * simpl. rewrite Z.mul_1_r, wrap_in_range by exact Hv. reflexivity.
      * rewrite shift_left_exact; try assumption; try lia.
        simpl. rewrite wrap_in_range by exact Hr. reflexivity.
    + unfold convert. simpl static_cast_of_rep. simpl _value. simpl _scale.
      rewrite (wrap_in_range Rep _ Hr). rewrite negate_exact by exact Hs.
      destruct (Z.eq_dec s 0) as [->|E].
      * simpl. rewrite Z.mul_1_r. reflexivity.
      * rewrite shift_right_quot; [|exact Hr|exact Hpb|lia].
        rewrite Z.quot_mul by lia. reflexivity.
  - intros Hs0 HP.
    pose proof (radix_pow_pos Rad s ltac:(lia)) as Hpos.
    pose proof (radix_pow_ge Rad s Hs0) as HD.
    pose proof (quot_in_range Rep v (radix_value Rad ^ s) Hv ltac:(lia)) as Hq.
    pose proof (mul_quot_in_range Rep v (radix_value Rad ^ s) Hv Hpos) as Hm.
    pose proof (mul_quot_abs_le v (radix_value Rad ^ s) Hpos) as Ha.
    exists (mk_fixed_point (Z.quot v (radix_value Rad ^ s)) (mk_weak_typedef s)). split.
    + unfold fixed_point_of. rewrite shift_right_quot; try assumption.
      simpl. rewrite wrap_in_range by exact Hq. reflexivity.
    + unfold convert. simpl static_cast_of_rep. simpl _value. simpl _scale.
      rewrite (wrap_in_range Rep _ Hq). rewrite negate_exact by exact Hs.
      rewrite (shift_left_exact Rad Rep _ (- s));
        rewrite ?Z.opp_involutive; try assumption; try lia.
      f_equal. pose proof (Z.quot_rem' v (radix_value Rad ^ s)). lia.
Qed.

Lemma construct_convert_integer_roundtrip_witness :
  in_range int32_t (-12345) /\ - 2 ^ 52 < -12345 < 2 ^ 52 /\
  Z.abs 2 <= numeric_limits_max int32_t /\ 0 < 2 /\ 10 ^ 2 < 2 ^ 53 /\
  exists x : fixed_point int32_t BASE_10,
    fixed_point_of (Integral int32_t) (-12345) (mk_weak_typedef 2) = Some x /\
    convert (Integral int32_t) x = Some (-12345 - Z.rem (-12345) (10 ^ 2)).
Proof.
  assert (H1 : in_range int32_t (-12345)) by (unfold in_range; vm_compute; split; discriminate).
  assert (H2 : - 2 ^ 52 < -12345 < 2 ^ 52) by (split; reflexivity).
  assert (H3 : Z.abs 2 <= numeric_limits_max int32_t) by (vm_compute; discriminate).
  assert (H4 : 0 < 2) by reflexivity.
  assert (H5 : 10 ^ 2 < 2 ^ 53) by reflexivity.
  split; [exact H1|]. split; [exact H2|]. split; [exact H3|]. split; [exact H4|].
  split; [exact H5|].
  exact (proj2 (construct_convert_integer_roundtrip int32_t BASE_10 (-12345) 2 H1 H2 H3) H4 H5).
Defined.

(** ** Construction from a double *)

Lemma static_cast_int_in_range T d r : static_cast_int T d = Some r -> in_range T r.
Proof.
  unfold static_cast_int. destruct (double_trunc d) as [z|]; [|discriminate].
  destruct (in_rangeb T z) eqn:E; [|discriminate]. intros H. injection H as <-.
  unfold in_rangeb in E. apply andb_true_iff in E. destruct E as [E1 E2].
  apply Z.leb_le in E1, E2. split; assumption.
Qed.

(** X10. The constructor gives the same fixed_point from the double of an
    integer below [2 ^ 53] as from the integer itself, at every scale: the
    floating path and the integral path of the template agree. *)
Theorem construct_from_double_of_integer (Rep : int_type) (Rad : Radix) (v s : Z) :
  in_range Rep v -> - 2 ^ 53 < v < 2 ^ 53 ->
  fixed_point_of (Rep := Rep) (Rad := Rad) Floating (double_of_Z v) (mk_weak_typedef s)
  = fixed_point_of (Rep := Rep) (Rad := Rad) (Integral Rep) v (mk_weak_typedef s).
Proof.
  intros Hv Hb. unfold fixed_point_of, detail.shift. simpl _t.
  destruct (s =? 0).
  - simpl. unfold static_cast_int. rewrite double_trunc_of_Z by exact Hb.
    rewrite in_rangeb_true by exact Hv. rewrite wrap_in_range by exact Hv. reflexivity.
  - destruct (s >? 0); simpl static_cast_from_double; simpl bind at 1;
      unfold detail.right_shift, detail.left_shift; simpl to_double.
    + destruct (static_cast_int Rep _) as [r|] eqn:E; [|reflexivity].
      simpl. rewrite wrap_in_range by (eapply static_cast_int_in_range; exact E). reflexivity.
    + destruct (static_cast_int Rep _) as [r|] eqn:E; [|reflexivity].
      simpl. rewrite wrap_in_range by (eapply static_cast_int_in_range; exact E). reflexivity.
Qed.

Lemma construct_from_double_of_integer_witness :
  in_range int32_t 12345 /\ - 2 ^ 53 < 12345 < 2 ^ 53 /\
  fixed_point_of (Rep := int32_t) (Rad := BASE_10) Floating (double_of_Z 12345)
    (mk_weak_typedef 2)
  = fixed_point_of (Rep := int32_t) (Rad := BASE_10) (Integral int32_t) 12345
      (mk_weak_typedef 2).
Proof.
  assert (H1 : in_range int32_t 12345) by (unfold in_range; vm_compute; split; discriminate).
  assert (H2 : - 2 ^ 53 < 12345 < 2 ^ 53) by (split; reflexivity).
  split; [exact H1|]. split; [exact H2|].
  exact (construct_from_double_of_integer int32_t BASE_10 12345 2 H1 H2).
Defined.

(** ** The numbers the results stand for *)

Lemma radix_Q_nonzero Rad : ~ (inject_Z (radix_value Rad) == 0)%Q.
Proof. destruct Rad; simpl; intros H; vm_compute in H; discriminate. Qed.

Lemma Qpower_radix_split Rad s d : 0 <= d ->
  (inject_Z (radix_value Rad) ^ (s + d)
   == inject_Z (radix_value Rad) ^ s * inject_Z (radix_value Rad ^ d))%Q.
Proof.
  intros Hd. rewrite Qpower_plus by apply radix_Q_nonzero.
  rewrite Zpower_Qpower by exact Hd. reflexivity.
Qed.

(** The number of a truncated quotient at a coarser scale is the number of
    the dividend less the digits dropped. *)
Lemma rational_of_quot Rad v s d : 0 <= d ->
  (inject_Z (Z.quot v (radix_value Rad ^ d)) * inject_Z (radix_value Rad) ^ (s + d)
   == inject_Z v * inject_Z (radix_value Rad) ^ s
      - inject_Z (Z.rem v (radix_value Rad ^ d)) * inject_Z (radix_value Rad) ^ s)%Q.
Proof.
  intros Hd. rewrite Qpower_radix_split by exact Hd.
  pose proof (Z.quot_rem' v (radix_value Rad ^ d)) as H.
  rewrite H at 2. rewrite inject_Z_plus, inject_Z_mult. ring.
Qed.

(** The two aligned values in one formula: each value is divided by the
    power of the radix that lifts its scale to the larger one. *)
Lemma aligned_quot (Rep : int_type) (Rad : Radix) (a b : fixed_point Rep Rad) :
  in_range Rep (_value a) -> in_range Rep (_value b) ->
  - 2 ^ 52 < _value a < 2 ^ 52 -> - 2 ^ 52 < _value b < 2 ^ 52 ->
  Z.abs (_t (_scale a) - _t (_scale b)) <= numeric_limits_max int32_t ->
  aligned a b
  = Some (Z.quot (_value a)
            (radix_value Rad ^ (Z.max (_t (_scale a)) (_t (_scale b)) - _t (_scale a))),
          Z.quot (_value b)
            (radix_value Rad ^ (Z.max (_t (_scale a)) (_t (_scale b)) - _t (_scale b)))).
Proof.
  intros Ha Hb Ba Bb Hd.
  destruct (Z.lt_trichotomy (_t (_scale a)) (_t (_scale b))) as [H|[H|H]].
  - rewrite Z.max_r by lia. rewrite Z.sub_diag, Z.pow_0_r, Z.quot_1_r.
    rewrite aligned_lower_lhs by lia.
    destruct (shift_right_defined Rad Rep (_value a) (_t (_scale b) - _t (_scale a)) Ha
                ltac:(lia)) as (q & -> & _ & Hq).
    rewrite (Hq Ba). reflexivity.
  - rewrite H, Z.max_id, Z.sub_diag, Z.pow_0_r, !Z.quot_1_r.
    apply aligned_same_scale. exact H.
  - rewrite Z.max_l by lia. rewrite Z.sub_diag, Z.pow_0_r, Z.quot_1_r.
    rewrite aligned_lower_rhs by lia.
    destruct (shift_right_defined Rad Rep (_value b) (_t (_scale a) - _t (_scale b)) Hb
                ltac:(lia)) as (q & -> & _ & Hq).
    rewrite (Hq Bb). reflexivity.
Qed.

(** X11. On the numbers they stand for, a multiplication that does not
    overflow is exact, and the quotient of a division that does not overflow,
    times the divisor, is the dividend less the remainder of the values at
    the dividend's scale. *)
Theorem multiplies_divides_on_rationals (Rep : int_type) (Rad : Radix)
    (a b : fixed_point Rep Rad) :
  (in_range Rep (_value a * _value b) ->
   in_range int32_t (_t (_scale a) + _t (_scale b)) ->
   (rational_value (operator_multiplies a b)
    == rational_value a * rational_value b)%Q) /\
  (_value b <> 0 -> in_range Rep (Z.quot (_value a) (_value b)) ->
   in_range int32_t (_t (_scale a) - _t (_scale b)) ->
   exists q, operator_divides a b = Some q /\
     (rational_value q * rational_value b
      == rational_value a
         - inject_Z (Z.rem (_value a) (_value b))
           * inject_Z (radix_value Rad) ^ _t (_scale a))%Q).
Proof.
  split.
  - intros Hv Hs. unfold operator_multiplies, fixed_point_of_scaled, int_mul, int_add,
      rational_value. simpl.
    rewrite !wrap_in_range by assumption.
    rewrite Qpower_plus by apply radix_Q_nonzero. rewrite inject_Z_mult. ring.
  - intros Hb Hv Hs.
    assert (Hn : ~ (_value a = numeric_limits_min Rep /\ _value b = -1)).
    { intros [E1 E2]. rewrite E1, E2 in Hv.
      unfold in_range, numeric_limits_min, numeric_limits_max in Hv.
      replace (-1) with (- (1)) in Hv by lia.
      rewrite Z.quot_opp_opp, Z.quot_1_r in Hv by lia. lia. }
    rewrite divides_defined by assumption.
    eexists. split; [reflexivity|].
    unfold int_quot, int_sub, rational_value. simpl.
    rewrite !wrap_in_range by assumption.
    pose proof (Z.quot_rem' (_value a) (_value b)) as H.
    rewrite H at 2. rewrite inject_Z_plus, inject_Z_mult.
    assert (Hp : (inject_Z (radix_value Rad) ^ _t (_scale a)
                  == inject_Z (radix_value Rad) ^ (_t (_scale a) - _t (_scale b))
                     * inject_Z (radix_value Rad) ^ _t (_scale b))%Q).
    { rewrite <- Qpower_plus by apply radix_Q_nonzero.
      replace (_t (_scale a) - _t (_scale b) + _t (_scale b)) with (_t (_scale a)) by ring.
      reflexivity. }
    rewrite Hp. ring.
Qed.

Lemma multiplies_divides_on_rationals_witness :
  7 <> 0 /\ in_range int32_t (Z.quot 100 7) /\ in_range int32_t (-2 - -1) /\
  exists q, operator_divides (Rep := int32_t) (Rad := BASE_10)
              (mk_fixed_point 100 (mk_weak_typedef (-2)))
              (mk_fixed_point 7 (mk_weak_typedef (-1))) = Some q /\
    (rational_value q * rational_value (mk_fixed_point (Rep := int32_t) (Rad := BASE_10)
                                          7 (mk_weak_typedef (-1)%Z))
     == rational_value (mk_fixed_point (Rep := int32_t) (Rad := BASE_10)
                          100 (mk_weak_typedef (-2)%Z))
        - inject_Z (Z.rem 100 7) * inject_Z 10 ^ (-2))%Q.
Proof.
  assert (H1 : 7 <> 0) by discriminate.
  assert (H2 : in_range int32_t (Z.quot 100 7)) by (unfold in_range; vm_compute; split; discriminate).
  assert (H3 : in_range int32_t (-2 - -1)) by (unfold in_range; vm_compute; split; discriminate).
  split; [exact H1|]. split; [exact H2|]. split; [exact H3|].
  exact (proj2 (multiplies_divides_on_rationals int32_t BASE_10
                  (mk_fixed_point 100 (mk_weak_typedef (-2)))
                  (mk_fixed_point 7 (mk_weak_typedef (-1)))) H1 H2 H3).
Defined.

(** X12. On the numbers they stand for, an addition or subtraction that
    does not overflow is exact except for the digits that the alignment
    drops from the operand of the smaller scale: the result is the exact sum
    or difference less (for the right operand of a subtraction: plus) those
    digits, [value rem Rad ^ (difference of the scales)], at the scale of
    their operand.  The values are below [2 ^ 52] in magnitude. *)
Theorem plus_minus_drop_low_digits (Rep : int_type) (Rad : Radix)
    (a b : fixed_point Rep Rad) :
  in_range Rep (_value a) -> in_range Rep (_value b) ->
  - 2 ^ 52 < _value a < 2 ^ 52 -> - 2 ^ 52 < _value b < 2 ^ 52 ->
  Z.abs (_t (_scale a) - _t (_scale b)) <= numeric_limits_max int32_t ->
  forall m da db l r,
    m = Z.max (_t (_scale a)) (_t (_scale b)) ->
    da = Z.rem (_value a) (radix_value Rad ^ (m - _t (_scale a))) ->
    db = Z.rem (_value b) (radix_value Rad ^ (m - _t (_scale b))) ->
    l = Z.quot (_value a) (radix_value Rad ^ (m - _t (_scale a))) ->
    r = Z.quot (_value b) (radix_value Rad ^ (m - _t (_scale b))) ->
    (in_range Rep (l + r) ->
     exists x, operator_plus a b = Some x /\
       (rational_value x
        == rational_value a + rational_value b
           - inject_Z da * inject_Z (radix_value Rad) ^ _t (_scale a)
           - inject_Z db * inject_Z (radix_value Rad) ^ _t (_scale b))%Q) /\
    (in_range Rep (l - r) ->
     exists x, operator_minus a b = Some x /\
       (rational_value x
        == rational_value a - rational_value b
           - inject_Z da * inject_Z (radix_value Rad) ^ _t (_scale a)
           + inject_Z db * inject_Z (radix_value Rad) ^ _t (_scale b))%Q).
Proof.
  intros Ha Hb Ba Bb Hd m da db l r -> -> -> -> ->.
  set (m := Z.max (_t (_scale a)) (_t (_scale b))).
  pose proof (aligned_quot Rep Rad a b Ha Hb Ba Bb Hd) as Hal. fold m in Hal.
  pose proof (rational_of_quot Rad (_value a) (_t (_scale a)) (m - _t (_scale a))
                ltac:(unfold m; lia)) as Qa.
  pose proof (rational_of_quot Rad (_value b) (_t (_scale b)) (m - _t (_scale b))
                ltac:(unfold m; lia)) as Qb.
  replace (_t (_scale a) + (m - _t (_scale a))) with m in Qa by ring.
  replace (_t (_scale b) + (m - _t (_scale b))) with m in Qb by ring.
  split; intros Hr.
  - eexists. split.
    + unfold operator_plus. rewrite Hal. simpl bind. reflexivity.
    + unfold fixed_point_of_scaled, int_add, rational_value. simpl.
      rewrite aligned_scale_max. fold m. simpl _t.
      rewrite wrap_in_range by exact Hr. rewrite inject_Z_plus.
      rewrite Qmult_plus_distr_l, Qa, Qb. unfold rational_value. ring.
  - eexists. split.
    + unfold operator_minus. rewrite Hal. simpl bind. reflexivity.
    + unfold fixed_point_of_scaled, int_sub, rational_value. simpl.
      rewrite aligned_scale_max. fold m. simpl _t.
      rewrite wrap_in_range by exact Hr.
      unfold Z.sub at 1. rewrite inject_Z_plus, inject_Z_opp.
      rewrite Qmult_plus_distr_l.
      setoid_replace (- inject_Z (Z.quot (_value b) (radix_value Rad ^ (m - _t (_scale b))))
                      * inject_Z (radix_value Rad) ^ m)%Q
        with (- (inject_Z (Z.quot (_value b) (radix_value Rad ^ (m - _t (_scale b))))
                 * inject_Z (radix_value Rad) ^ m))%Q by ring.
      rewrite Qa, Qb. unfold rational_value. ring.
Qed.

Lemma plus_minus_drop_low_digits_witness :
  in_range int32_t 123 /\ in_range int32_t 25 /\
  - 2 ^ 52 < 123 < 2 ^ 52 /\ - 2 ^ 52 < 25 < 2 ^ 52 /\
  Z.abs (-2 - -1) <= numeric_limits_max int32_t /\
  in_range int32_t (12 + 25) /\
  exists x, operator_plus (Rep := int32_t) (Rad := BASE_10)
              (mk_fixed_point 123 (mk_weak_typedef (-2)))
              (mk_fixed_point 25 (mk_weak_typedef (-1))) = Some x /\
    (rational_value x
     == rational_value (mk_fixed_point (Rep := int32_t) (Rad := BASE_10)
                          123 (mk_weak_typedef (-2)%Z))
        + rational_value (mk_fixed_point (Rep := int32_t) (Rad := BASE_10)
                            25 (mk_weak_typedef (-1)%Z))
        - inject_Z 3 * inject_Z 10 ^ (-2) - inject_Z 0 * inject_Z 10 ^ (-1))%Q.
Proof.
  assert (H1 : in_range int32_t 123) by (unfold in_range; vm_compute; split; discriminate).
  assert (H2 : in_range int32_t 25) by (unfold in_range; vm_compute; split; discriminate).
  assert (H3 : - 2 ^ 52 < 123 < 2 ^ 52) by (split; reflexivity).
  assert (H4 : - 2 ^ 52 < 25 < 2 ^ 52) by (split; reflexivity).
  assert (H5 : Z.abs (-2 - -1) <= numeric_limits_max int32_t) by (vm_compute; discriminate).
  assert (H6 : in_range int32_t (12 + 25)) by (unfold in_range; vm_compute; split; discriminate).
  split; [exact H1|]. split; [exact H2|]. split; [exact H3|]. split; [exact H4|].
  split; [exact H5|]. split; [exact H6|].
  exact (proj1 (plus_minus_drop_low_digits int32_t BASE_10
                  (mk_fixed_point 123 (mk_weak_typedef (-2)))
                  (mk_fixed_point 25 (mk_weak_typedef (-1))) H1 H2 H3 H4 H5
                  (-1) 3 0 12 25 eq_refl eq_refl eq_refl eq_refl eq_refl) H6).
Defined.

(** ** Equality and the numbers compared *)

Lemma rational_eq_lift Rad av bv sa sb : sa <= sb ->
  (inject_Z av * inject_Z (radix_value Rad) ^ sa
   == inject_Z bv * inject_Z (radix_value Rad) ^ sb)%Q ->
  av = bv * radix_value Rad ^ (sb - sa).
Proof.
  intros Hs H. replace sb with (sa + (sb - sa)) in H by ring.
  rewrite Qpower_radix_split in H by lia.
  apply inject_Z_injective. rewrite inject_Z_mult.
  apply (Qmult_inj_r _ _ (inject_Z (radix_value Rad) ^ sa)).
  - apply Qpower_not_0. apply radix_Q_nonzero.
  - rewrite H. ring.
Qed.

(** X13. Equality never separates equal numbers: two values that stand for
    the same rational compare equal; and two values that compare equal
    differ only by the digits the alignment drops.  The values are below
    [2 ^ 52] in magnitude. *)
Theorem eq_on_rationals (Rep : int_type) (Rad : Radix) (a b : fixed_point Rep Rad) :
  in_range Rep (_value a) -> in_range Rep (_value b) ->
  - 2 ^ 52 < _value a < 2 ^ 52 -> - 2 ^ 52 < _value b < 2 ^ 52 ->
  Z.abs (_t (_scale a) - _t (_scale b)) <= numeric_limits_max int32_t ->
  ((rational_value a == rational_value b)%Q -> operator_eq a b = Some true) /\
  (operator_eq a b = Some true ->
   (rational_value a - rational_value b
    == inject_Z (Z.rem (_value a)
                   (radix_value Rad ^ (Z.max (_t (_scale a)) (_t (_scale b)) - _t (_scale a))))
       * inject_Z (radix_value Rad) ^ _t (_scale a)
       - inject_Z (Z.rem (_value b)
                     (radix_value Rad ^ (Z.max (_t (_scale a)) (_t (_scale b)) - _t (_scale b))))
         * inject_Z (radix_value Rad) ^ _t (_scale b))%Q).
Proof.
  intros Ha Hb Ba Bb Hd.
  pose proof (aligned_quot Rep Rad a b Ha Hb Ba Bb Hd) as Hal.
  set (m := Z.max (_t (_scale a)) (_t (_scale b))) in *.
  unfold operator_eq. rewrite Hal. simpl bind. split.
  - intros H. unfold rational_value in H. f_equal. apply Z.eqb_eq.
    destruct (Z.le_ge_cases (_t (_scale a)) (_t (_scale b))) as [Hs|Hs].
    + assert (Em : m = _t (_scale b)) by (unfold m; lia). rewrite Em.
      rewrite Z.sub_diag, Z.pow_0_r, Z.quot_1_r.
      rewrite (rational_eq_lift Rad _ _ _ _ Hs H).
      rewrite Z.quot_mul; [reflexivity|].
      pose proof (radix_pow_pos Rad (_t (_scale b) - _t (_scale a)) ltac:(lia)). lia.
    + assert (Em : m = _t (_scale a)) by (unfold m; lia). rewrite Em.
      rewrite Z.sub_diag, Z.pow_0_r, Z.quot_1_r.
      symmetry in H. rewrite (rational_eq_lift Rad _ _ _ _ Hs H).
      rewrite Z.quot_mul; [reflexivity|].
      pose proof (radix_pow_pos Rad (_t (_scale a) - _t (_scale b)) ltac:(lia)). lia.
  - intros H. injection H as H. apply Z.eqb_eq in H.
    pose proof (rational_of_quot Rad (_value a) (_t (_scale a)) (m - _t (_scale a))
                  ltac:(unfold m; lia)) as Qa.
    pose proof (rational_of_quot Rad (_value b) (_t (_scale b)) (m - _t (_scale b))
                  ltac:(unfold m; lia)) as Qb.
    replace (_t (_scale a) + (m - _t (_scale a))) with m in Qa by ring.
    replace (_t (_scale b) + (m - _t (_scale b))) with m in Qb by ring.
    rewrite H in Qb. rewrite Qa in Qb. unfold rational_value.
    set (A := (inject_Z (_value a) * inject_Z (radix_value Rad) ^ _t (_scale a))%Q) in *.
    set (B := (inject_Z (_value b) * inject_Z (radix_value Rad) ^ _t (_scale b))%Q) in *.
    set (X := (inject_Z (Z.rem (_value a) (radix_value Rad ^ (m - _t (_scale a))))
               * inject_Z (radix_value Rad) ^ _t (_scale a))%Q) in *.
    set (Y := (inject_Z (Z.rem (_value b) (radix_value Rad ^ (m - _t (_scale b))))
               * inject_Z (radix_value Rad) ^ _t (_scale b))%Q) in *.
    setoid_replace (A - B)%Q with ((A - X) - (B - Y) + (X - Y))%Q by ring.
    rewrite Qb. ring.
Qed.

Lemma eq_on_rationals_witness :
  in_range int32_t 120 /\ in_range int32_t 12 /\
  - 2 ^ 52 < 120 < 2 ^ 52 /\ - 2 ^ 52 < 12 < 2 ^ 52 /\
  Z.abs (-2 - -1) <= numeric_limits_max int32_t /\
  (rational_value (mk_fixed_point (Rep := int32_t) (Rad := BASE_10)
                     120 (mk_weak_typedef (-2)%Z))
   == rational_value (mk_fixed_point (Rep := int32_t) (Rad := BASE_10)
                        12 (mk_weak_typedef (-1)%Z)))%Q /\
  operator_eq (Rep := int32_t) (Rad := BASE_10)
    (mk_fixed_point 120 (mk_weak_typedef (-2))) (mk_fixed_point 12 (mk_weak_typedef (-1)))
  = Some true.
Proof.
  assert (H1 : in_range int32_t 120) by (unfold in_range; vm_compute; split; discriminate).
  assert (H2 : in_range int32_t 12) by (unfold in_range; vm_compute; split; discriminate).
  assert (H3 : - 2 ^ 52 < 120 < 2 ^ 52) by (split; reflexivity).
  assert (H4 : - 2 ^ 52 < 12 < 2 ^ 52) by (split; reflexivity).
  assert (H5 : Z.abs (-2 - -1) <= numeric_limits_max int32_t) by (vm_compute; discriminate).
  assert (H6 : (rational_value (mk_fixed_point (Rep := int32_t) (Rad := BASE_10)
                                  120 (mk_weak_typedef (-2)%Z))
                == rational_value (mk_fixed_point (Rep := int32_t) (Rad := BASE_10)
                                     12 (mk_weak_typedef (-1)%Z)))%Q)
    by (vm_compute; reflexivity).
  split; [exact H1|]. split; [exact H2|]. split; [exact H3|]. split; [exact H4|].
  split; [exact H5|]. split; [exact H6|].
  exact (proj1 (eq_on_rationals int32_t BASE_10
                  (mk_fixed_point 120 (mk_weak_typedef (-2)))
                  (mk_fixed_point 12 (mk_weak_typedef (-1))) H1 H2 H3 H4 H5) H6).
Defined.

(** X14. At one scale equality is the equality of the two values, so of the
    two fixed_point objects; across scales it is not transitive: 1.23 == 1.2
    and 1.2 == 1.29 but not 1.23 == 1.29. *)
Theorem eq_at_one_scale_not_transitive :
  (forall (Rep : int_type) (Rad : Radix) (a b : fixed_point Rep Rad),
     _t (_scale a) = _t (_scale b) ->
     (operator_eq a b = Some true <-> a = b) /\
     (operator_eq a b = Some false <-> a <> b)) /\
  (exists a b c : fixed_point int32_t BASE_10,
     operator_eq a b = Some true /\ operator_eq b c = Some true /\
     operator_eq a c = Some false).
Proof.
  split.
  - intros Rep Rad a b Hs. unfold operator_eq. rewrite aligned_same_scale by exact Hs.
    simpl. destruct a as [av [sa]], b as [bv [sb]]. simpl in *. subst sb.
    destruct (bv =? av) eqn:E; [apply Z.eqb_eq in E | apply Z.eqb_neq in E].
    + subst bv. split; split; intros H; try reflexivity; try discriminate.
      exfalso. apply H. reflexivity.
    + split; split; intros H; try reflexivity; try discriminate.
      * injection H as H. congruence.
      * intros H'. injection H' as H'. congruence.
  - exists (mk_fixed_point 123 (mk_weak_typedef (-2))),
           (mk_fixed_point 12 (mk_weak_typedef (-1))),
           (mk_fixed_point 129 (mk_weak_typedef (-2))).
    repeat split; vm_compute; reflexivity.
Qed.

Lemma eq_at_one_scale_not_transitive_witness :
  -2 = -2 /\
  (operator_eq (Rep := int32_t) (Rad := BASE_10)
     (mk_fixed_point 123 (mk_weak_typedef (-2))) (mk_fixed_point 129 (mk_weak_typedef (-2)))
   = Some false <->
   mk_fixed_point (Rep := int32_t) (Rad := BASE_10) 123 (mk_weak_typedef (-2))
   <> mk_fixed_point 129 (mk_weak_typedef (-2))).
Proof.
  split; [reflexivity|].
  exact (proj2 (proj1 eq_at_one_scale_not_transitive int32_t BASE_10
                  (mk_fixed_point 123 (mk_weak_typedef (-2)))
                  (mk_fixed_point 129 (mk_weak_typedef (-2))) eq_refl)).
Defined.

(** ** The default value and the distributive law *)

(** X15. Adding the default-constructed value (0 at scale 0) leaves a value
    of nonnegative scale unchanged, and truncates a value of negative scale
    to an integer at scale 0. *)
Theorem plus_default_value (Rep : int_type) (Rad : Radix) (x : fixed_point Rep Rad) :
  in_range Rep (_value x) -> - 2 ^ 52 < _value x < 2 ^ 52 ->
  Z.abs (_t (_scale x)) <= numeric_limits_max int32_t ->
  (0 <= _t (_scale x) -> operator_plus x fixed_point_default = Some x) /\
  (_t (_scale x) < 0 ->
   operator_plus x fixed_point_default
   = Some (mk_fixed_point (Z.quot (_value x) (radix_value Rad ^ (- _t (_scale x))))
             (mk_weak_typedef 0))).
Proof.
  intros Hv Hb Hs.
  assert (R0 : in_range Rep 0).
  { unfold in_range, numeric_limits_min, numeric_limits_max. destruct Rep; simpl bits; lia. }
  assert (B0 : - 2 ^ 52 < 0 < 2 ^ 52) by lia.
  pose proof (aligned_quot Rep Rad x fixed_point_default Hv R0 Hb B0) as Hal.
  simpl _scale in Hal. simpl _value in Hal. simpl _t in Hal.
  rewrite Z.sub_0_r in Hal. specialize (Hal Hs).
  rewrite Z.quot_0_l in Hal
    by (pose proof (radix_pow_pos Rad (Z.max (_t (_scale x)) 0 - 0) ltac:(lia)); lia).
  unfold operator_plus. rewrite Hal. simpl bind. rewrite aligned_scale_max.
  unfold fixed_point_of_scaled, int_add. simpl.
  rewrite Z.add_0_r. split; intros H.
  - rewrite Z.max_l by lia. rewrite Z.sub_diag, Z.pow_0_r, Z.quot_1_r.
    rewrite wrap_in_range by exact Hv. rewrite scale_eta, fixed_point_eta. reflexivity.
  - rewrite Z.max_r by lia. rewrite Z.sub_0_l.
    rewrite wrap_in_range; [reflexivity|].
    destruct (radix_pow_ge Rad (- _t (_scale x)) ltac:(lia)) as [E|E];
      apply quot_in_range; try exact Hv; lia.
Qed.

Lemma plus_default_value_witness :
  in_range int32_t (-129) /\ - 2 ^ 52 < -129 < 2 ^ 52 /\
  Z.abs (-1) <= numeric_limits_max int32_t /\ -1 < 0 /\
  operator_plus (Rep := int32_t) (Rad := BASE_10)
    (mk_fixed_point (-129) (mk_weak_typedef (-1))) fixed_point_default
  = Some (mk_fixed_point (Z.quot (-129) (10 ^ (- -1))) (mk_weak_typedef 0)).
Proof.
  assert (H1 : in_range int32_t (-129)) by (unfold in_range; vm_compute; split; discriminate).
  assert (H2 : - 2 ^ 52 < -129 < 2 ^ 52) by (split; reflexivity).
  assert (H3 : Z.abs (-1) <= numeric_limits_max int32_t) by (vm_compute; discriminate).
  assert (H4 : -1 < 0) by reflexivity.
  split; [exact H1|]. split; [exact H2|]. split; [exact H3|]. split; [exact H4|].
  exact (proj2 (plus_default_value int32_t BASE_10
                  (mk_fixed_point (-129) (mk_weak_typedef (-1))) H1 H2 H3) H4).
Defined.

(** X16. Multiplication distributes over the addition of two operands of one
    scale, with or without overflow. *)
Theorem multiplies_distributes_over_plus (Rep : int_type) (Rad : Radix)
    (a b c : fixed_point Rep Rad) :
  _t (_scale b) = _t (_scale c) ->
  (bc <- operator_plus b c ;; Some (operator_multiplies a bc))
  = operator_plus (operator_multiplies a b) (operator_multiplies a c).
Proof.
  intros Hs. rewrite (plus_same_scale b c Hs). simpl bind.
  rewrite plus_same_scale by (simpl; rewrite Hs; reflexivity).
  unfold operator_multiplies, fixed_point_of_scaled, int_mul, int_add. simpl.
  rewrite wrap_mul_wrap_r, wrap_add_wrap_l, wrap_add_wrap_r.
  rewrite Z.mul_add_distr_l. reflexivity.
Qed.

Lemma multiplies_distributes_over_plus_witness :
  -1 = -1 /\
  (bc <- operator_plus (Rep := int32_t) (Rad := BASE_10)
           (mk_fixed_point 2147483647 (mk_weak_typedef (-1)))
           (mk_fixed_point 7 (mk_weak_typedef (-1))) ;;
   Some (operator_multiplies (mk_fixed_point 3 (mk_weak_typedef (-2))) bc))
  = operator_plus
      (operator_multiplies (mk_fixed_point 3 (mk_weak_typedef (-2)))
         (mk_fixed_point 2147483647 (mk_weak_typedef (-1))))
      (operator_multiplies (mk_fixed_point 3 (mk_weak_typedef (-2)))
         (mk_fixed_point 7 (mk_weak_typedef (-1)))).
Proof.
  split; [reflexivity|].
  exact (multiplies_distributes_over_plus int32_t BASE_10
           (mk_fixed_point 3 (mk_weak_typedef (-2)))
           (mk_fixed_point 2147483647 (mk_weak_typedef (-1)))
           (mk_fixed_point 7 (mk_weak_typedef (-1))) eq_refl).
Defined.
